(** * A predictive parser and evaluator for bitwise expressions over binary
      literals: [runner.py] (evaluate while parsing) and [parser.py]
      (recognize only).

    The development embeds the two Python programs shallowly.  The plex
    scanner is an external library: it is modelled through the lexicon that
    [create_scanner] builds (longest match; on a tie the pattern listed first
    in the lexicon wins) and through the two calls the parser makes on it,
    [read] and [position].  The fields of a [MyParser] object and the lines
    printed are threaded through the procedures as a state; an exception is
    an outcome that carries the state at the raise.

    The nonterminal procedures are recursive Python methods.  Here they take
    a bound on the depth of the call stack and answer [TooDeep] when it is
    used up; [parse] allows a depth linear in the number of tokens, and
    [RunnerTotal.parse_total] shows that this depth is never used up.  The
    recursion limit of the Python interpreter itself is not modelled. *)

From Stdlib Require Import ZArith String Ascii List Lia DecimalString.
From stdpp Require Import base strings gmap.

Open Scope string_scope.
Open Scope list_scope.

(** ** The scanner *)

Module Plex.

(** How a scan ends: end of input, or a character sequence that no pattern of
    the lexicon matches ([plex.errors.UnrecognizedInput], a [PlexError]).
    Both carry the line (from 1) and column (from 0) where it happens. *)
Inductive ending :=
| EndOfFile (line col : nat)
| Unrecognized (line col : nat).

(** What [Scanner.read] returns for one token, [(tk_la, tk_val)], and where
    the token starts. *)
Record token := Token {
  tk_la : string;
  tk_val : string;
  tk_line : nat;
  tk_col : nat
}.

Definition is_bit (c : ascii) : bool :=
  Ascii.eqb c "0" || Ascii.eqb c "1".

(** [plex.Range("AZaz")] *)
Definition is_letter (c : ascii) : bool :=
  let k := nat_of_ascii c in
  (Nat.leb 65 k && Nat.leb k 90) || (Nat.leb 97 k && Nat.leb k 122).

(** [plex.Range("09")] *)
Definition is_digit (c : ascii) : bool :=
  let k := nat_of_ascii c in Nat.leb 48 k && Nat.leb k 57.

(** [plex.Any(" \t\n")] *)
Definition is_space (c : ascii) : bool :=
  Ascii.eqb c " " || Ascii.eqb c "009" || Ascii.eqb c "010".

Definition lower (c : ascii) : ascii :=
  let k := nat_of_ascii c in
  if Nat.leb 65 k && Nat.leb k 90 then ascii_of_nat (k + 32) else c.

Fixpoint lowercase (s : string) : string :=
  match s with
  | EmptyString => EmptyString
  | String c s' => String (lower c) (lowercase s')
  end.

(** A maximal run of letters and digits that starts with a letter is matched
    in full by [id]; [operator] and [keyword] match it in full only when it
    is one of their words, and then win the tie, being listed before [id].
    Their action is [plex.TEXT]: the token kind is the matched text itself. *)
Definition word_token (w : string) (line col : nat) : token :=
  if String.eqb w "and" || String.eqb w "or" || String.eqb w "xor"
  then Token w w line col
  else if String.eqb (lowercase w) "print"
  then Token w w line col
  else Token "id" w line col.

Inductive mode :=
| Idle
| InBinary (col0 : nat) (text : string)
| InWord (col0 : nat) (text : string)
| InComment (line0 col0 : nat).

Inductive start :=
| Enter (m : mode)
| Emit (t : token)
| Skip
| Bad.

(** The first character of a token decides which patterns can match. *)
Definition start_token (c : ascii) (line col : nat) : start :=
  if is_bit c then Enter (InBinary col (String c ""))
  else if is_letter c then Enter (InWord col (String c ""))
  else if Ascii.eqb c "=" || Ascii.eqb c "(" || Ascii.eqb c ")"
  then Emit (Token (String c "") (String c "") line col)
  else if is_space c then Skip
  else if Ascii.eqb c "{" then Enter (InComment line col)
  else Bad.

Definition emit (t : token) (r : list token * ending) : list token * ending :=
  (t :: fst r, snd r).

Definition snoc (s : string) (c : ascii) : string := s +:+ String c "".

(** All tokens of a text, in order, and how the scan ends. *)
Fixpoint scan (m : mode) (line col : nat) (s : string) : list token * ending :=
  match s with
  | EmptyString =>
      match m with
      | Idle => ([], EndOfFile line col)
      | InBinary c0 w => ([Token "binary" w line c0], EndOfFile line col)
      | InWord c0 w => ([word_token w line c0], EndOfFile line col)
      | InComment l0 c0 => ([], Unrecognized l0 c0)
      end
  | String c s' =>
      let line' := if Ascii.eqb c "010" then S line else line in
      let col' := if Ascii.eqb c "010" then 0 else S col in
      let fresh (_ : unit) :=
        match start_token c line col with
        | Enter m' => scan m' line' col' s'
        | Emit t => emit t (scan Idle line' col' s')
        | Skip => scan Idle line' col' s'
        | Bad => ([], Unrecognized line col)
        end in
      match m with
      | Idle => fresh tt
      | InBinary c0 w =>
          if is_bit c then scan (InBinary c0 (snoc w c)) line' col' s'
          else emit (Token "binary" w line c0) (fresh tt)
      | InWord c0 w =>
          if is_letter c || is_digit c then scan (InWord c0 (snoc w c)) line' col' s'
          else emit (word_token w line c0) (fresh tt)
      | InComment l0 c0 =>
          if Ascii.eqb c "}" then scan Idle line' col' s'
          else scan m line' col' s'
      end
  end.

(** The scanner object: the tokens not read yet, how the input ends, and the
    position of the last token read. *)
Record scanner := Scanner {
  pending : list token;
  finish : ending;
  sc_line : nat;
  sc_col : nat
}.

(** [plex.Scanner(lexicon, fp)] *)
Definition open (text : string) : scanner :=
  let r := scan Idle 1 0 text in Scanner (fst r) (snd r) 1 0.

(** [Scanner.read()]: [inl] is the pair returned, [inr] is a [PlexError]. *)
Definition read (sc : scanner) : (option string * string) * scanner + scanner :=
  match pending sc with
  | t :: r => inl ((Some (tk_la t), tk_val t), Scanner r (finish sc) (tk_line t) (tk_col t))
  | [] =>
      match finish sc with
      | EndOfFile l c => inl ((None, ""), Scanner [] (finish sc) l c)
      | Unrecognized l c => inr (Scanner [] (finish sc) l c)
      end
  end.

(** [Scanner.position()], without the file name. *)
Definition position (sc : scanner) : nat * nat := (sc_line sc, sc_col sc).

End Plex.

(** ** Values and their text *)

(** [int(text, 2)] on the lexeme of a [binary] token, which the lexicon
    guarantees to be one or more of the characters 0 and 1. *)
Definition bit_value (c : ascii) : Z := if Ascii.eqb c "1" then 1%Z else 0%Z.

Fixpoint int2_from (acc : Z) (text : string) : Z :=
  match text with
  | EmptyString => acc
  | String c text' => int2_from (2 * acc + bit_value c)%Z text'
  end.

Definition int2 (text : string) : Z := int2_from 0 text.

Fixpoint bits (p : positive) : string :=
  match p with
  | xH => "1"
  | xO q => bits q +:+ "0"
  | xI q => bits q +:+ "1"
  end.

(** ['{:b}'.format(z)] *)
Definition format_b (z : Z) : string :=
  match z with
  | Z0 => "0"
  | Zpos p => bits p
  | Zneg p => "-" +:+ bits p
  end.

(** [str(n)] for a line or column number. *)
Definition str_nat (n : nat) : string := NilZero.string_of_uint (Nat.to_uint n).

(** [str(self.la)]: a token kind, or [None] at end of input. *)
Definition str_la (k : option string) : string :=
  match k with
  | Some t => t
  | None => "None"
  end.

(** The exceptions of the two programs. [TypeError] is Python's answer to a
    bitwise operator applied to [None] or to a string. *)
Inductive exn :=
| PlexError
| ParseError (msg : string)
| RuntimeError (msg : string)
| TypeError.

(** What a run of the main part of a program leaves behind: the lines
    written to standard output, and whether the interpreter was stopped by an
    exception that no handler caught. [Unfinished] stands for a call stack
    deeper than the bound given. *)
Inductive run :=
| Finished (stdout : list string)
| Crashed (stdout : list string) (e : exn)
| Unfinished.

Definition scanner_error (p : nat * nat) : string :=
  "Scanner Error: at line " +:+ str_nat (fst p) +:+ " char " +:+ str_nat (snd p + 1).

Definition parser_error (msg : string) (p : nat * nat) : string :=
  "Parser Error: " +:+ msg +:+ " at line " +:+ str_nat (fst p)
    +:+ " char " +:+ str_nat (snd p + 1).

(** The depth of call stack that [parse] allows for a scanner with [k]
    tokens left. *)
Definition depth_for (k : nat) : nat := 7 * k + 9.

(** ** Procedures that read and change the parser object, and may raise *)

Inductive result (S A : Type) :=
| Ok (a : A) (s : S)
| Raise (e : exn) (s : S)
| TooDeep.
Arguments Ok {S A} a s.
Arguments Raise {S A} e s.
Arguments TooDeep {S A}.

Definition M (S A : Type) : Type := S -> result S A.

#[global] Instance M_bind {S} : MBind (M S) := fun A B f m s =>
  match m s with
  | Ok a s' => f a s'
  | Raise e s' => Raise e s'
  | TooDeep => TooDeep
  end.

Definition ret {S A} (a : A) : M S A := fun s => Ok a s.
Definition raise {S A} (e : exn) : M S A := fun s => Raise e s.
Definition too_deep {S A} : M S A := fun _ => TooDeep.

(** ** [runner.py]: the engine that evaluates while it parses *)

Module Runner.

(** The values [MyParser.evaluate] can return: an integer, [None], or the
    text of the lookahead. *)
Inductive pyval :=
| PyInt (z : Z)
| PyNone
| PyStr (t : string).

(** The fields of a [MyParser] object, and the lines printed so far. *)
Record state := State {
  la : option string;
  val : string;
  scanner : Plex.scanner;
  st : gmap string Z;
  out : list string
}.

Abbreviation proc := (M state).

Definition la_is (s : state) (token : string) : bool :=
  match la s with
  | Some k => String.eqb k token
  | None => false
  end.

Definition la_none (s : state) : bool :=
  match la s with
  | Some _ => false
  | None => true
  end.

Definition la_in (s : state) (tokens : list string) : bool :=
  existsb (la_is s) tokens.

(** [MyParser.__init__] *)
Definition init : state := State None "" (Plex.Scanner [] (Plex.EndOfFile 1 0) 1 0) ∅ [].

(** [self.scanner.read()] *)
Definition next_token : proc (option string * string) := fun s =>
  match Plex.read (scanner s) with
  | inl (p, sc) => Ok p (State (la s) (val s) sc (st s) (out s))
  | inr sc => Raise PlexError (State (la s) (val s) sc (st s) (out s))
  end.

(** [self.la, self.val = ...] *)
Definition set_lookahead (p : option string * string) : proc unit := fun s =>
  Ok tt (State (fst p) (snd p) (scanner s) (st s) (out s)).

(** [self.scanner = plex.Scanner(lexicon, fp)], then the first lookahead. *)
Definition create_scanner (sc : Plex.scanner) : proc unit :=
  (fun s => Ok tt (State (la s) (val s) sc (st s) (out s))) ;;
  p ← next_token; set_lookahead p.

Definition position (s : state) : nat * nat := Plex.position (scanner s).

Definition evaluate : proc pyval := fun s =>
  if la_is s "binary" then Ok (PyInt (int2 (val s))) s
  else if la_is s "id" then
    Ok (match st s !! val s with Some z => PyInt z | None => PyNone end) s
  else Ok (PyStr (val s)) s.

Definition match_ (token : string) : proc pyval := fun s =>
  if la_is s token then
    (token_eval ← evaluate;
     p ← next_token;
     set_lookahead p ;;
     ret token_eval) s
  else
    raise (ParseError ("found " +:+ str_la (la s) +:+ " instead of " +:+ token)) s.

(** [self.st[symbol] = v] *)
Definition store (symbol : string) (v : Z) : proc unit := fun s =>
  Ok tt (State (la s) (val s) (scanner s) (<[symbol := v]> (st s)) (out s)).

(** [print(line)] *)
Definition print (line : string) : proc unit := fun s =>
  Ok tt (State (la s) (val s) (scanner s) (st s) (out s ++ [line])).

(** The operands of a bitwise operator are integers: the value that
    [match] hands to [operand] is used as one. *)
Definition as_int (a : pyval) : proc Z :=
  match a with
  | PyInt z => ret z
  | _ => raise TypeError
  end.

(** [b[:-1]] *)
Definition but_last (b : list (option Z)) : list (option Z) := removelast b.

(** [for b_val in bs: a = op(a, b_val)], then [a]. *)
Fixpoint fold_op (op : Z -> Z -> Z) (a : Z) (bs : list (option Z)) : proc Z :=
  match bs with
  | [] => ret a
  | Some b_val :: bs' => fold_op op (op a b_val) bs'
  | None :: _ => raise TypeError
  end.

Definition undefined (var : string) : exn :=
  RuntimeError ("variable '" +:+ var +:+ "' referenced before assignment").

(** The nonterminal procedures. A tail procedure returns the tuple
    [(a, *b)], which ends with the [None] of [(None,)]; the tuple is never
    [None] itself, so the test [b is not None] always passes. *)
Fixpoint expr (n : nat) : proc Z :=
  match n with
  | O => too_deep
  | S n' => fun s =>
      if la_in s ["id"; "binary"; "("] then
        (a ← term n';
         b ← term_tail n';
         fold_op Z.lxor a (but_last b)) s
      else raise (ParseError "in expr: id, binary or '(' expected") s
  end
with term (n : nat) : proc Z :=
  match n with
  | O => too_deep
  | S n' => fun s =>
      if la_in s ["id"; "binary"; "("] then
        (a ← factor n';
         b ← factor_tail n';
         fold_op Z.lor a (but_last b)) s
      else raise (ParseError "in term: id, binary or '(' expected") s
  end
with term_tail (n : nat) : proc (list (option Z)) :=
  match n with
  | O => too_deep
  | S n' => fun s =>
      if la_is s "xor" then
        (match_ "xor" ;;
         a ← term n';
         b ← term_tail n';
         ret (Some a :: b)) s
      else if la_none s || la_in s [")"; "id"; "print"] then ret [None] s
      else raise (ParseError "in term_tail: xor expected") s
  end
with factor (n : nat) : proc Z :=
  match n with
  | O => too_deep
  | S n' => fun s =>
      if la_in s ["id"; "binary"; "("] then
        (a ← operand n';
         b ← operand_tail n';
         fold_op Z.land a (but_last b)) s
      else raise (ParseError "in factor: id, binary or '(' expected") s
  end
with factor_tail (n : nat) : proc (list (option Z)) :=
  match n with
  | O => too_deep
  | S n' => fun s =>
      if la_is s "or" then
        (match_ "or" ;;
         a ← factor n';
         b ← factor_tail n';
         ret (Some a :: b)) s
      else if la_none s || la_in s [")"; "xor"; "id"; "print"] then ret [None] s
      else raise (ParseError "in factor_tail: or expected") s
  end
with operand (n : nat) : proc Z :=
  match n with
  | O => too_deep
  | S n' => fun s =>
      if la_is s "id" then
        (let var := val s in
         a ← match_ "id";
         match a with
         | PyNone => raise (undefined var)
         | _ => as_int a
         end) s
      else if la_is s "binary" then
        (a ← match_ "binary";
         as_int a) s
      else if la_is s "(" then
        (match_ "(" ;;
         a ← expr n';
         match_ ")" ;;
         ret a) s
      else raise (ParseError "in operand: id, binary or '(' expected") s
  end
with operand_tail (n : nat) : proc (list (option Z)) :=
  match n with
  | O => too_deep
  | S n' => fun s =>
      if la_is s "and" then
        (match_ "and" ;;
         a ← operand n';
         b ← operand_tail n';
         ret (Some a :: b)) s
      else if la_none s || la_in s [")"; "xor"; "or"; "id"; "print"] then ret [None] s
      else raise (ParseError "in operand_tail: or expected") s
  end.

Definition stmt (n : nat) : proc unit :=
  match n with
  | O => too_deep
  | S n' => fun s =>
      if la_is s "id" then
        (let symbol := val s in
         match_ "id" ;;
         match_ "=" ;;
         v ← expr n';
         store symbol v) s
      else if la_is s "print" then
        (match_ "print" ;;
         v ← expr n';
         print (format_b v)) s
      else raise (ParseError "in stmt: id or print expected") s
  end.

Fixpoint stmt_list (n : nat) : proc unit :=
  match n with
  | O => too_deep
  | S n' => fun s =>
      if la_is s "id" || la_is s "print" then
        (stmt n' ;; stmt_list n') s
      else if la_none s then ret tt s
      else raise (ParseError "in stmt_list: id or print expected") s
  end.

(** [MyParser.parse], on a parser object just created. *)
Definition parse (sc : Plex.scanner) : result state unit :=
  (create_scanner sc ;; stmt_list (depth_for (length (Plex.pending sc)))) init.

(** The main part of the program: the two handlers around [parser.parse]. *)
Definition report (r : result state unit) : run :=
  match r with
  | Ok _ s => Finished (out s)
  | Raise PlexError s => Finished (out s ++ [scanner_error (position s)])
  | Raise (ParseError perr) s => Finished (out s ++ [parser_error perr (position s)])
  | Raise e s => Crashed (out s) e
  | TooDeep => Unfinished
  end.

Definition main (text : string) : run := report (parse (Plex.open text)).

End Runner.


(** ** [parser.py]: the engine that only recognizes *)

Module Recognizer.

Record state := State {
  la : option string;
  val : string;
  scanner : Plex.scanner
}.

Abbreviation proc := (M state).

Definition la_is (s : state) (token : string) : bool :=
  match la s with
  | Some k => String.eqb k token
  | None => false
  end.

Definition la_none (s : state) : bool :=
  match la s with
  | Some _ => false
  | None => true
  end.

Definition la_in (s : state) (tokens : list string) : bool :=
  existsb (la_is s) tokens.

Definition init : state := State None "" (Plex.Scanner [] (Plex.EndOfFile 1 0) 1 0).

Definition next_token : proc (option string * string) := fun s =>
  match Plex.read (scanner s) with
  | inl (p, sc) => Ok p (State (la s) (val s) sc)
  | inr sc => Raise PlexError (State (la s) (val s) sc)
  end.

Definition set_lookahead (p : option string * string) : proc unit := fun s =>
  Ok tt (State (fst p) (snd p) (scanner s)).

Definition create_scanner (sc : Plex.scanner) : proc unit :=
  (fun s => Ok tt (State (la s) (val s) sc)) ;;
  p ← next_token; set_lookahead p.

Definition position (s : state) : nat * nat := Plex.position (scanner s).

Definition match_ (token : string) : proc unit := fun s =>
  if la_is s token then
    (p ← next_token;
     set_lookahead p) s
  else
    raise (ParseError ("found " +:+ str_la (la s) +:+ " instead of " +:+ token)) s.

Fixpoint expr (n : nat) : proc unit :=
  match n with
  | O => too_deep
  | S n' => fun s =>
      if la_in s ["id"; "binary"; "("] then
        (term n' ;;
         term_tail n') s
      else raise (ParseError "in expr: id, binary or '(' expected") s
  end
with term (n : nat) : proc unit :=
  match n with
  | O => too_deep
  | S n' => fun s =>
      if la_in s ["id"; "binary"; "("] then
        (factor n' ;;
         factor_tail n') s
      else raise (ParseError "in term: id, binary or '(' expected") s
  end
with term_tail (n : nat) : proc unit :=
  match n with
  | O => too_deep
  | S n' => fun s =>
      if la_is s "xor" then
        (match_ "xor" ;;
         term n' ;;
         term_tail n') s
      else if la_none s || la_in s [")"; "id"; "print"] then ret tt s
      else raise (ParseError "in term_tail: xor expected") s
  end
with factor (n : nat) : proc unit :=
  match n with
  | O => too_deep
  | S n' => fun s =>
      if la_in s ["id"; "binary"; "("] then
        (operand n' ;;
         operand_tail n') s
      else raise (ParseError "in factor: id, binary or '(' expected") s
  end
with factor_tail (n : nat) : proc unit :=
  match n with
  | O => too_deep
  | S n' => fun s =>
      if la_is s "or" then
        (match_ "or" ;;
         factor n' ;;
         factor_tail n') s
      else if la_none s || la_in s [")"; "xor"; "id"; "print"] then ret tt s
      else raise (ParseError "in factor_tail: or expected") s
  end
with operand (n : nat) : proc unit :=
  match n with
  | O => too_deep
  | S n' => fun s =>
      if la_is s "id" then match_ "id" s
      else if la_is s "binary" then match_ "binary" s
      else if la_is s "(" then
        (match_ "(" ;;
         expr n' ;;
         match_ ")") s
      else raise (ParseError "in operand: id, binary or '(' expected") s
  end
with operand_tail (n : nat) : proc unit :=
  match n with
  | O => too_deep
  | S n' => fun s =>
      if la_is s "and" then
        (match_ "and" ;;
         operand n' ;;
         operand_tail n') s
      else if la_none s || la_in s [")"; "xor"; "or"; "id"; "print"] then ret tt s
      else raise (ParseError "in operand_tail: or or '?' expected") s
  end.

Definition stmt (n : nat) : proc unit :=
  match n with
  | O => too_deep
  | S n' => fun s =>
      if la_is s "id" then
        (match_ "id" ;;
         match_ "=" ;;
         expr n') s
      else if la_is s "print" then
        (match_ "print" ;;
         expr n') s
      else raise (ParseError "in stmt: id or print expected") s
  end.

Fixpoint stmt_list (n : nat) : proc unit :=
  match n with
  | O => too_deep
  | S n' => fun s =>
      if la_is s "id" || la_is s "print" then
        (stmt n' ;; stmt_list n') s
      else if la_none s then ret tt s
      else raise (ParseError "in stmt_list: id or print expected") s
  end.

Definition parse (sc : Plex.scanner) : result state unit :=
  (create_scanner sc ;; stmt_list (depth_for (length (Plex.pending sc)))) init.

(** The main part: the handlers, then [print('Done!')]. *)
Definition report (r : result state unit) : run :=
  match r with
  | Ok _ s => Finished ["Done!"]
  | Raise PlexError s => Finished [scanner_error (position s); "Done!"]
  | Raise (ParseError perr) s => Finished [parser_error perr (position s); "Done!"]
  | Raise e s => Crashed [] e
  | TooDeep => Unfinished
  end.

Definition main (text : string) : run := report (parse (Plex.open text)).

End Recognizer.

(** ** Reference semantics: derivation trees of the grammar, evaluated over
       unsigned integers of unbounded width *)

Module Reference.

(** One tree per production of the grammar in the docstring of the programs. *)
Inductive expr_t :=
| Expr (t : term_t) (xs : term_tail_t)
with term_tail_t :=
| NoXor
| Xor (t : term_t) (xs : term_tail_t)
with term_t :=
| Term (f : factor_t) (fs : factor_tail_t)
with factor_tail_t :=
| NoOr
| Or (f : factor_t) (fs : factor_tail_t)
with factor_t :=
| Factor (o : operand_t) (os : operand_tail_t)
with operand_tail_t :=
| NoAnd
| And (o : operand_t) (os : operand_tail_t)
with operand_t :=
| Paren (e : expr_t)
| Id (name : string)
| Binary (digits : string).

Inductive stmt_t :=
| Assign (name : string) (e : expr_t)
| Print (e : expr_t).

(** The token kinds and lexemes a tree is read from. *)
Fixpoint expr_tokens (e : expr_t) : list (string * string) :=
  match e with
  | Expr t xs => term_tokens t ++ term_tail_tokens xs
  end
with term_tail_tokens (xs : term_tail_t) : list (string * string) :=
  match xs with
  | NoXor => []
  | Xor t xs' => ("xor", "xor") :: term_tokens t ++ term_tail_tokens xs'
  end
with term_tokens (t : term_t) : list (string * string) :=
  match t with
  | Term f fs => factor_tokens f ++ factor_tail_tokens fs
  end
with factor_tail_tokens (fs : factor_tail_t) : list (string * string) :=
  match fs with
  | NoOr => []
  | Or f fs' => ("or", "or") :: factor_tokens f ++ factor_tail_tokens fs'
  end
with factor_tokens (f : factor_t) : list (string * string) :=
  match f with
  | Factor o os => operand_tokens o ++ operand_tail_tokens os
  end
with operand_tail_tokens (os : operand_tail_t) : list (string * string) :=
  match os with
  | NoAnd => []
  | And o os' => ("and", "and") :: operand_tokens o ++ operand_tail_tokens os'
  end
with operand_tokens (o : operand_t) : list (string * string) :=
  match o with
  | Paren e => ("(", "(") :: expr_tokens e ++ [(")", ")")]
  | Id name => [("id", name)]
  | Binary digits => [("binary", digits)]
  end.

Definition stmt_tokens (c : stmt_t) : list (string * string) :=
  match c with
  | Assign name e => ("id", name) :: ("=", "=") :: expr_tokens e
  | Print e => ("print", "print") :: expr_tokens e
  end.

Definition program_tokens (p : list stmt_t) : list (string * string) :=
  concat (map stmt_tokens p).

(** The unsigned integer a digit string denotes in base 2. *)
Fixpoint binary_value (acc : N) (digits : string) : N :=
  match digits with
  | EmptyString => acc
  | String c digits' =>
      binary_value (if Ascii.eqb c "1" then N.succ_double acc else N.double acc) digits'
  end.

(** The value of a tree; [None] when it reads an identifier that has no
    value. Each tail folds to the left into the value before it. *)
Fixpoint eval_expr (env : gmap string N) (e : expr_t) : option N :=
  match e with
  | Expr t xs => a ← eval_term env t; eval_term_tail env a xs
  end
with eval_term_tail (env : gmap string N) (a : N) (xs : term_tail_t) : option N :=
  match xs with
  | NoXor => Some a
  | Xor t xs' => b ← eval_term env t; eval_term_tail env (N.lxor a b) xs'
  end
with eval_term (env : gmap string N) (t : term_t) : option N :=
  match t with
  | Term f fs => a ← eval_factor env f; eval_factor_tail env a fs
  end
with eval_factor_tail (env : gmap string N) (a : N) (fs : factor_tail_t) : option N :=
  match fs with
  | NoOr => Some a
  | Or f fs' => b ← eval_factor env f; eval_factor_tail env (N.lor a b) fs'
  end
with eval_factor (env : gmap string N) (f : factor_t) : option N :=
  match f with
  | Factor o os => a ← eval_operand env o; eval_operand_tail env a os
  end
with eval_operand_tail (env : gmap string N) (a : N) (os : operand_tail_t) : option N :=
  match os with
  | NoAnd => Some a
  | And o os' => b ← eval_operand env o; eval_operand_tail env (N.land a b) os'
  end
with eval_operand (env : gmap string N) (o : operand_t) : option N :=
  match o with
  | Paren e => eval_expr env e
  | Id name => env !! name
  | Binary digits => Some (binary_value 0 digits)
  end.

(** The values a program prints, in order. *)
Fixpoint exec (env : gmap string N) (p : list stmt_t) : option (list N) :=
  match p with
  | [] => Some []
  | Assign name e :: p' => v ← eval_expr env e; exec (<[name := v]> env) p'
  | Print e :: p' => v ← eval_expr env e; vs ← exec env p'; Some (v :: vs)
  end.

(** Unsigned binary text with the fewest digits. *)
Definition render (v : N) : string :=
  match v with
  | N0 => "0"
  | Npos p => bits p
  end.

(** One or more of the characters 0 and 1. *)
Fixpoint all_bits (digits : string) : bool :=
  match digits with
  | EmptyString => true
  | String c digits' => Plex.is_bit c && all_bits digits'
  end.

Definition binary_literal (digits : string) : bool :=
  match digits with
  | EmptyString => false
  | String _ _ => all_bits digits
  end.

(** Every identifier an expression reads is among [known], and every literal
    is a binary literal. *)
Fixpoint expr_closed (known : gset string) (e : expr_t) : bool :=
  match e with
  | Expr t xs => term_closed known t && term_tail_closed known xs
  end
with term_tail_closed (known : gset string) (xs : term_tail_t) : bool :=
  match xs with
  | NoXor => true
  | Xor t xs' => term_closed known t && term_tail_closed known xs'
  end
with term_closed (known : gset string) (t : term_t) : bool :=
  match t with
  | Term f fs => factor_closed known f && factor_tail_closed known fs
  end
with factor_tail_closed (known : gset string) (fs : factor_tail_t) : bool :=
  match fs with
  | NoOr => true
  | Or f fs' => factor_closed known f && factor_tail_closed known fs'
  end
with factor_closed (known : gset string) (f : factor_t) : bool :=
  match f with
  | Factor o os => operand_closed known o && operand_tail_closed known os
  end
with operand_tail_closed (known : gset string) (os : operand_tail_t) : bool :=
  match os with
  | NoAnd => true
  | And o os' => operand_closed known o && operand_tail_closed known os'
  end
with operand_closed (known : gset string) (o : operand_t) : bool :=
  match o with
  | Paren e => expr_closed known e
  | Id name => bool_decide (name ∈ known)
  | Binary digits => binary_literal digits
  end.

(** A program is well formed when every identifier it reads was assigned by
    an earlier statement. *)
Fixpoint well_formed (known : gset string) (p : list stmt_t) : bool :=
  match p with
  | [] => true
  | Assign name e :: p' => expr_closed known e && well_formed ({[name]} ∪ known) p'
  | Print e :: p' => expr_closed known e && well_formed known p'
  end.

End Reference.

(** ** Notions used to state the properties *)

(** What holds of the outcome of a procedure: [Q] of a value returned and the
    state it leaves, [E] of an exception raised and the state at the raise. *)
Definition post {S A} (r : result S A) (Q : A -> S -> Prop) (E : exn -> S -> Prop) : Prop :=
  match r with
  | Ok a s => Q a s
  | Raise e s => E e s
  | TooDeep => True
  end.

(** A tuple built by a tail procedure: integers, then the [None] of [(None,)]. *)
Definition sentinel (b : list (option Z)) (vs : list Z) : Prop :=
  b = map Some vs ++ [None].

(** The messages of the [ParseError]s raised by the nonterminal procedures
    themselves: the procedure, then what it expected. *)
Definition procedure_message (msg : string) : Prop :=
  exists procedure expected,
    In procedure ["stmt_list"; "stmt"; "expr"; "term"; "term_tail"; "factor";
                  "factor_tail"; "operand"; "operand_tail"]
    /\ msg = "in " +:+ procedure +:+ ": " +:+ expected +:+ " expected".

(** The message of the [ParseError] raised by [match]. *)
Definition match_message (found : option string) (expected : string) : string :=
  "found " +:+ str_la found +:+ " instead of " +:+ expected.

(** The tokens a state has not consumed: the lookahead and what the scanner
    has not read. *)
Definition remaining (s : Runner.state) : nat :=
  match Runner.la s with Some _ => 1 | None => 0 end + length (Plex.pending (Runner.scanner s)).

(** The part of a [Runner] object that a [Recognizer] object has too. *)
Definition erase (s : Runner.state) : Recognizer.state :=
  Recognizer.State (Runner.la s) (Runner.val s) (Runner.scanner s).

(** Two states with the same symbol table and the same lines printed. *)
Definition same_store (s s' : Runner.state) : Prop :=
  Runner.st s' = Runner.st s /\ Runner.out s' = Runner.out s.

(** The exceptions the expression procedures raise, with the state at the
    raise: the scanner's, an undefined identifier, or a [ParseError] whose
    message is that of [match] for the lookahead at the raise or that of a
    nonterminal procedure. *)
Definition engine_exn (e : exn) (s' : Runner.state) : Prop :=
  e = PlexError
  \/ (exists var, e = Runner.undefined var)
  \/ (exists msg, e = ParseError msg
        /\ (procedure_message msg
            \/ exists token, msg = match_message (Runner.la s') token)).

(** The outcome of an expression procedure: the symbol table and the lines
    printed are as before, a tail returns integers closed by [None], and an
    exception is one of [engine_exn]. *)
Definition value_post (s : Runner.state) (r : result Runner.state Z) : Prop :=
  post r (fun _ s' => same_store s s') (fun e s' => same_store s s' /\ engine_exn e s').

Definition tail_post (s : Runner.state) (r : result Runner.state (list (option Z))) : Prop :=
  post r (fun b s' => same_store s s' /\ exists vs, sentinel b vs)
         (fun e s' => same_store s s' /\ engine_exn e s').

(** What a statement that ends normally has done: an assignment binds its
    identifier and prints nothing, a print adds one line and binds nothing. *)
Definition stmt_done (s s' : Runner.state) : Prop :=
  (Runner.la s = Some "id" /\ Runner.out s' = Runner.out s
   /\ exists v, Runner.st s' = <[Runner.val s := v]> (Runner.st s))
  \/ (Runner.la s = Some "print" /\ Runner.st s' = Runner.st s
      /\ exists v, Runner.out s' = Runner.out s ++ [format_b v]).

(** Lines are only ever added at the end of the output. *)
Definition extends (s s' : Runner.state) : Prop :=
  exists more, Runner.out s' = Runner.out s ++ more.

(** A procedure that ends within the depth given, and ends, when it returns,
    in a state that satisfies [Q]. *)
Definition finishes {S A} (r : result S A) (Q : S -> Prop) : Prop :=
  match r with
  | Ok _ s => Q s
  | Raise _ _ => True
  | TooDeep => False
  end.

(** With depth [r + 7 * remaining s] a procedure ends, having consumed a
    token ([consumes]) or perhaps none ([keeps]). *)
Definition consumes {A} (r : nat) (X : nat -> M Runner.state A) (s : Runner.state) : Prop :=
  forall n, r + 7 * remaining s <= n ->
    finishes (X n s) (fun s' => remaining s' < remaining s).

Definition keeps {A} (r : nat) (X : nat -> M Runner.state A) (s : Runner.state) : Prop :=
  forall n, r + 7 * remaining s <= n ->
    finishes (X n s) (fun s' => remaining s' <= remaining s).

(** The kinds and lexemes a state has still to consume, lookahead first. *)
Definition upcoming (s : Runner.state) : list (string * string) :=
  match Runner.la s with
  | Some k => (k, Runner.val s)
              :: map (fun t => (Plex.tk_la t, Plex.tk_val t)) (Plex.pending (Runner.scanner s))
  | None => []
  end.

(** The input of the scanner ends without a lexical error. *)
Definition ends_well (sc : Plex.scanner) : Prop :=
  exists line col, Plex.finish sc = Plex.EndOfFile line col.

(** The symbol table holds the values of the reference environment. *)
Definition agrees (env : gmap string N) (s : Runner.state) : Prop :=
  Runner.st s = Z.of_N <$> env.

(** The kind of the first token of a list, [None] for none. *)
Definition first_kind (ks : list (string * string)) : option string :=
  match ks with
  | [] => None
  | (k, _) :: _ => Some k
  end.

(** End of input, or one of the kinds listed. *)
Definition in_follow (kinds : list string) (k : option string) : Prop :=
  match k with
  | None => True
  | Some t => In t kinds
  end.

(** A step of the engine that reads tokens only: table, output and the end
    of the input are as before. *)
Definition reads_only (s s' : Runner.state) : Prop :=
  Runner.st s' = Runner.st s /\ Runner.out s' = Runner.out s
  /\ Plex.finish (Runner.scanner s') = Plex.finish (Runner.scanner s).

Section TreeProperties.
Import Reference.
Variable env : gmap string N.

(** A value procedure run on the tokens of a tree returns the value of the
    tree and stops at the token after it. *)
Definition value_correct (X : nat -> M Runner.state Z) (tokens : list (string * string))
    (v : option N) (follow : list string) : Prop :=
  forall n s rest w,
    upcoming s = tokens ++ rest -> ends_well (Runner.scanner s) -> agrees env s ->
    in_follow follow (first_kind rest) ->
    v = Some w -> X n s <> TooDeep ->
    exists s', X n s = Ok (Z.of_N w) s' /\ upcoming s' = rest /\ reads_only s s'.

(** A tail procedure run on the tokens of a tail returns the values to fold,
    closed by [None]. *)
Definition tail_correct (X : nat -> M Runner.state (list (option Z)))
    (tokens : list (string * string)) (op : Z -> Z -> Z) (v : N -> option N)
    (follow : list string) : Prop :=
  forall n s rest a w,
    upcoming s = tokens ++ rest -> ends_well (Runner.scanner s) -> agrees env s ->
    in_follow follow (first_kind rest) ->
    v a = Some w -> X n s <> TooDeep ->
    exists s' vs, X n s = Ok (map Some vs ++ [None]) s'
      /\ fold_left op vs (Z.of_N a) = Z.of_N w
      /\ upcoming s' = rest /\ reads_only s s'.

End TreeProperties.

(** The tokens of an operand, and so of a factor, a term and an expression,
    start with a token of their FIRST set. *)
Definition starts (ks : list (string * string)) : Prop :=
  exists k v tl, ks = (k, v) :: tl /\ In k ["id"; "binary"; "("].

(** The kinds and lexemes of the tokens a scanner will deliver. *)
Definition lexemes (sc : Plex.scanner) : list (string * string) :=
  map (fun t => (Plex.tk_la t, Plex.tk_val t)) (Plex.pending sc).

(** Every identifier of [known] has a value in [env]. *)
Definition covers (known : gset string) (env : gmap string N) : Prop :=
  forall name, name ∈ known -> is_Some (env !! name).

(** The outcome [r'] of the recognizer matches the outcome [r] of the
    evaluating engine: same return or same kind of exception, in the same
    state of lookahead and scanner. Nothing is said where the evaluating
    engine stops on a [RuntimeError]. *)
Definition simulates {A B} (r : result Runner.state A) (r' : result Recognizer.state B) : Prop :=
  match r with
  | Ok _ s => exists b, r' = Ok b (erase s)
  | Raise PlexError s => r' = Raise PlexError (erase s)
  | Raise (ParseError _) s => exists msg, r' = Raise (ParseError msg) (erase s)
  | Raise (RuntimeError _) _ => True
  | Raise TypeError _ => True
  | TooDeep => r' = TooDeep
  end.

(** A run that ends, normally or by an exception, in state [s']. *)
Definition ends_in {S A} (r : result S A) (s' : S) : Prop :=
  match r with
  | Ok _ s => s = s'
  | Raise _ s => s = s'
  | TooDeep => False
  end.

(** The state a run ends in; the state given for a run cut short. *)
Definition end_state {S A} (r : result S A) (otherwise : S) : S :=
  match r with
  | Ok _ s => s
  | Raise _ s => s
  | TooDeep => otherwise
  end.


(** A digit string without its leading zeros; ["0"] when nothing is left. *)
Fixpoint strip_zeros (digits : string) : string :=
  match digits with
  | EmptyString => EmptyString
  | String c digits' => if Ascii.eqb c "0" then strip_zeros digits' else digits
  end.

Definition minimal (digits : string) : string :=
  match strip_zeros digits with
  | EmptyString => "0"
  | String c t => String c t
  end.

(** A parser object with symbol table [table] and no line printed, created
    on [text], with its first lookahead. *)
Definition started (text : string) (table : gmap string Z) : Runner.state :=
  end_state
    (Runner.create_scanner (Plex.open text) (Runner.State None "" (Plex.open "") table []))
    Runner.init.


(** A token whose kind is [binary] carries a binary literal: the domain on
    which [int2] stands for [int(text, 2)]. *)
Definition literal_token (t : Plex.token) : Prop :=
  Plex.tk_la t = "binary" -> Reference.binary_literal (Plex.tk_val t) = true.

Definition literal_mode (m : Plex.mode) : Prop :=
  match m with
  | Plex.InBinary _ w => Reference.binary_literal w = true
  | _ => True
  end.

(** ** Notions used for the recognizer and the scanner *)

(** The tokens a recognizer object has not consumed. *)
Definition unread (s : Recognizer.state) : nat :=
  match Recognizer.la s with Some _ => 1 | None => 0 end
  + length (Plex.pending (Recognizer.scanner s)).

(** A run of the recognizer that ends within the depth given, by a return in
    a state that satisfies [Q], by the scanner's error or by a [ParseError]. *)
Definition settles {A} (r : result Recognizer.state A) (Q : Recognizer.state -> Prop) : Prop :=
  match r with
  | Ok _ s => Q s
  | Raise PlexError _ => True
  | Raise (ParseError _) _ => True
  | Raise _ _ => False
  | TooDeep => False
  end.

Definition advances {A} (r : nat) (X : nat -> M Recognizer.state A) (s : Recognizer.state) : Prop :=
  forall n, r + 7 * unread s <= n -> settles (X n s) (fun s' => unread s' < unread s).

Definition stays {A} (r : nat) (X : nat -> M Recognizer.state A) (s : Recognizer.state) : Prop :=
  forall n, r + 7 * unread s <= n -> settles (X n s) (fun s' => unread s' <= unread s).

(** The kinds and lexemes a recognizer object has still to consume. *)
Definition ahead (s : Recognizer.state) : list (string * string) :=
  match Recognizer.la s with
  | Some k => (k, Recognizer.val s)
              :: map (fun t => (Plex.tk_la t, Plex.tk_val t))
                     (Plex.pending (Recognizer.scanner s))
  | None => []
  end.

(** A token as [plex.TEXT] and the two named actions of the lexicon make
    them: its kind is [id] or [binary], or its kind is its text. *)
Definition plain (kv : string * string) : Prop :=
  fst kv = "id" \/ fst kv = "binary" \/ snd kv = fst kv.

Definition plain_token (t : Plex.token) : Prop :=
  plain (Plex.tk_la t, Plex.tk_val t).

(** A procedure of the recognizer run on [tokens] followed by a token of
    [follow] returns and stops at the token after them. *)
Definition accepts_tokens (X : nat -> M Recognizer.state unit)
    (tokens : list (string * string)) (follow : list string) : Prop :=
  forall n s rest,
    ahead s = tokens ++ rest -> ends_well (Recognizer.scanner s) ->
    in_follow follow (first_kind rest) ->
    X n s <> TooDeep ->
    exists s', X n s = Ok tt s' /\ ahead s' = rest
               /\ Plex.finish (Recognizer.scanner s') = Plex.finish (Recognizer.scanner s).

(** Letters and digits only. *)
Fixpoint alphanumeric (w : string) : bool :=
  match w with
  | EmptyString => true
  | String c w' => (Plex.is_letter c || Plex.is_digit c) && alphanumeric w'
  end.

(** A letter, then letters and digits: what the pattern [id] matches. *)
Definition word (w : string) : bool :=
  match w with
  | EmptyString => false
  | String c w' => Plex.is_letter c && alphanumeric w'
  end.

(** The words that the lexicon takes for an operator or for the keyword. *)
Definition reserved (w : string) : bool :=
  String.eqb w "and" || String.eqb w "or" || String.eqb w "xor"
  || String.eqb (Plex.lowercase w) "print".

(** The tokens the lexicon can produce, as kind and lexeme: a binary
    literal; an identifier, a word that is not reserved; a reserved word, an
    equals sign or a parenthesis, whose kind is the lexeme. *)
Definition lexical (kv : string * string) : Prop :=
  (fst kv = "binary" /\ Reference.binary_literal (snd kv) = true)
  \/ (fst kv = "id" /\ word (snd kv) = true /\ reserved (snd kv) = false)
  \/ (fst kv = snd kv /\ word (snd kv) = true /\ reserved (snd kv) = true)
  \/ (fst kv = snd kv /\ In (snd kv) ["="; "("; ")"]).

Definition lexical_token (t : Plex.token) : Prop :=
  lexical (Plex.tk_la t, Plex.tk_val t).

(** The text collected so far in a mode of the scan fits the mode. *)
Definition lexical_mode (m : Plex.mode) : Prop :=
  match m with
  | Plex.InBinary _ w => Reference.binary_literal w = true
  | Plex.InWord _ w => word w = true
  | _ => True
  end.

(** What a scan shows when positions are left out: kinds and lexemes, and
    whether the input ends without a lexical error. *)
Definition look (r : list Plex.token * Plex.ending) : list (string * string) * bool :=
  (map (fun t => (Plex.tk_la t, Plex.tk_val t)) (fst r),
   match snd r with
   | Plex.EndOfFile _ _ => true
   | Plex.Unrecognized _ _ => false
   end).

(** Two modes of the scan that differ in positions only. *)
Definition same_mode (m m' : Plex.mode) : Prop :=
  match m, m' with
  | Plex.Idle, Plex.Idle => True
  | Plex.InBinary _ w, Plex.InBinary _ w' => w = w'
  | Plex.InWord _ w, Plex.InWord _ w' => w = w'
  | Plex.InComment _ _, Plex.InComment _ _ => True
  | _, _ => False
  end.

(** No closing brace: the text can be the inside of a comment. *)
Fixpoint brace_free (body : string) : bool :=
  match body with
  | EmptyString => true
  | String c body' => negb (Ascii.eqb c "}") && brace_free body'
  end.

(** The lexemes written one after the other, a space after each. *)
Fixpoint spell (ks : list (string * string)) : string :=
  match ks with
  | [] => EmptyString
  | (_, v) :: ks' => v +:+ String " " (spell ks')
  end.

(** The token that ends when a character that cannot continue it is read. *)
Definition flush (m : Plex.mode) (line : nat) (r : list Plex.token * Plex.ending)
    : list Plex.token * Plex.ending :=
  match m with
  | Plex.InBinary c0 w => Plex.emit (Plex.Token "binary" w line c0) r
  | Plex.InWord c0 w => Plex.emit (Plex.word_token w line c0) r
  | _ => r
  end.

(** A scanner with every position set to zero. *)
Definition unplace_token (t : Plex.token) : Plex.token :=
  Plex.Token (Plex.tk_la t) (Plex.tk_val t) 0 0.

Definition unplace_ending (e : Plex.ending) : Plex.ending :=
  match e with
  | Plex.EndOfFile _ _ => Plex.EndOfFile 0 0
  | Plex.Unrecognized _ _ => Plex.Unrecognized 0 0
  end.

Definition unplace (sc : Plex.scanner) : Plex.scanner :=
  Plex.Scanner (map unplace_token (Plex.pending sc)) (unplace_ending (Plex.finish sc)) 0 0.

Definition unplaced (s : Runner.state) : Runner.state :=
  Runner.State (Runner.la s) (Runner.val s) (unplace (Runner.scanner s))
    (Runner.st s) (Runner.out s).

(** An outcome with the state it carries changed by [g]. *)
Definition map_state {S A} (g : S -> S) (r : result S A) : result S A :=
  match r with
  | Ok a s => Ok a (g s)
  | Raise e s => Raise e (g s)
  | TooDeep => TooDeep
  end.

(** A procedure that does the same whatever the positions are. *)
Definition placeless {A} (m : M Runner.state A) : Prop :=
  forall s, m (unplaced s) = map_state unplaced (m s).

(** Inside a comment after [text], having started inside one or not. *)
Fixpoint in_comment (inside : bool) (text : string) : bool :=
  match text with
  | EmptyString => inside
  | String c text' =>
      in_comment (if inside then negb (Ascii.eqb c "}") else Ascii.eqb c "{") text'
  end.

Definition comment_mode (m : Plex.mode) : bool :=
  match m with
  | Plex.InComment _ _ => true
  | _ => false
  end.

Section SoundProcedures.
Import Reference.
Variable env : gmap string N.

(** A value procedure that returns has read the tokens of a tree and
    returns the value of the tree. *)
Definition value_sound {T} (X : M Runner.state Z) (tokens_of : T -> list (string * string))
    (eval : T -> option N) : Prop :=
  forall s v s',
    agrees env s -> Forall plain (upcoming s) -> X s = Ok v s' ->
    exists e w, upcoming s = tokens_of e ++ upcoming s' /\ eval e = Some w /\ v = Z.of_N w.

(** A tail procedure that returns has read the tokens of a tail and returns
    the values that the tail folds into the value before it. *)
Definition tail_sound {T} (X : M Runner.state (list (option Z)))
    (tokens_of : T -> list (string * string)) (op : Z -> Z -> Z)
    (eval : N -> T -> option N) : Prop :=
  forall s b s',
    agrees env s -> Forall plain (upcoming s) -> X s = Ok b s' ->
    exists xs vs, upcoming s = tokens_of xs ++ upcoming s'
      /\ b = map Some vs ++ [None]
      /\ forall a, exists w, eval a xs = Some w /\ fold_left op vs (Z.of_N a) = Z.of_N w.

End SoundProcedures.

(** The parser object is at a definite place of the token list of scanner
    [sc]: either its lookahead is a token of the list, all tokens before it
    are consumed, the scanner holds the tokens after it, and the position is
    the start of that token; or the lookahead is the end of the input, no
    token is left, and the position is the end of the input. *)
Definition located (sc : Plex.scanner) (s : Runner.state) : Prop :=
  Plex.finish (Runner.scanner s) = Plex.finish sc
  /\ match Runner.la s with
     | Some k =>
         exists before tok,
           Plex.pending sc = before ++ tok :: Plex.pending (Runner.scanner s)
           /\ k = Plex.tk_la tok /\ Runner.val s = Plex.tk_val tok
           /\ Runner.position s = (Plex.tk_line tok, Plex.tk_col tok)
     | None =>
         Plex.pending (Runner.scanner s) = []
         /\ exists line col, Plex.finish sc = Plex.EndOfFile line col
                             /\ Runner.position s = (line, col)
     end.

(** Where an exception leaves the parser object: the scanner's error at the
    place the scanner could not read, any other at a definite place of the
    token list. *)
Definition raised_at (sc : Plex.scanner) (e : exn) (s : Runner.state) : Prop :=
  match e with
  | PlexError =>
      exists line col, Plex.finish sc = Plex.Unrecognized line col
                       /\ Runner.position s = (line, col)
  | _ => located sc s
  end.

(** Two outcomes of [parse] that differ at most in positions: both return,
    or both raise the same exception, with the same lines printed, the same
    symbol table and the same lookahead. *)
Definition same_outcome (r r' : result Runner.state unit) : Prop :=
  match r, r' with
  | Ok _ s, Ok _ s' =>
      Runner.out s = Runner.out s' /\ Runner.st s = Runner.st s'
  | Raise e s, Raise e' s' =>
      e = e' /\ Runner.out s = Runner.out s' /\ Runner.st s = Runner.st s'
      /\ Runner.la s = Runner.la s' /\ Runner.val s = Runner.val s'
  | TooDeep, TooDeep => True
  | _, _ => False
  end.

(** A line that is a binary numeral: one or more of the characters 0 and 1,
    with no leading zero unless it is ["0"] itself, and so no sign. *)
Definition numeral (line : string) : Prop :=
  Reference.binary_literal line = true /\ minimal line = line.

(** The message of [parser.py] where [runner.py] has message [msg]: the two
    programs word the error of [operand_tail] differently. *)
Definition recognizer_message (msg : string) : string :=
  if String.eqb msg "in operand_tail: or expected"
  then "in operand_tail: or or '?' expected"
  else msg.

(** The outcome [r'] of the recognizer mirrors the outcome [r] of the
    evaluating engine: as [simulates], and a [ParseError] carries the message
    that [recognizer_message] gives. *)
Definition mirrors {A B} (r : result Runner.state A) (r' : result Recognizer.state B) : Prop :=
  match r with
  | Ok _ s => exists b, r' = Ok b (erase s)
  | Raise PlexError s => r' = Raise PlexError (erase s)
  | Raise (ParseError msg) s => r' = Raise (ParseError (recognizer_message msg)) (erase s)
  | Raise (RuntimeError _) _ => True
  | Raise TypeError _ => True
  | TooDeep => r' = TooDeep
  end.

(** ** Notions used for the messages of syntax errors *)





(** [performed p n s m s']: from state [s], with depth [n] left,
    [stmt_list] has run the statements of [p], one call of [stmt] for each,
    in order; each call returned, having consumed exactly the tokens of its
    statement; [stmt_list] is then in state [s'] with depth [m] left. *)
Inductive performed : list Reference.stmt_t -> nat -> Runner.state -> nat -> Runner.state -> Prop :=
| performed_none n s : performed [] n s n s
| performed_next c p n s s1 m s' :
    Runner.la_is s "id" || Runner.la_is s "print" = true ->
    Runner.stmt n s = Ok tt s1 ->
    upcoming s = Reference.stmt_tokens c ++ upcoming s1 ->
    performed p n s1 m s' ->
    performed (c :: p) (S n) s m s'.

(** * Properties *)

(** ** Rules for outcomes *)

Section Outcomes.
Context {S A B : Type}.

Lemma post_bind (m : M S A) (f : A -> M S B) (s : S) Q' E' Q E :
  post (m s) Q' E' ->
  (forall e s', E' e s' -> E e s') ->
  (forall a s', Q' a s' -> post (f a s') Q E) ->
  post ((m ≫= f) s) Q E.
Proof.
  unfold mbind, M_bind. destruct (m s); simpl; auto.
Qed.

Lemma post_weaken (r : result S A) (Q Q' : A -> S -> Prop) (E E' : exn -> S -> Prop) :
  post r Q E ->
  (forall a s, Q a s -> Q' a s) ->
  (forall e s, E e s -> E' e s) ->
  post r Q' E'.
Proof.
  destruct r; simpl; auto.
Qed.

Lemma bind_ok (m : M S A) (f : A -> M S B) s a s' :
  m s = Ok a s' -> (m ≫= f) s = f a s'.
Proof.
  intros H. unfold mbind, M_bind. now rewrite H.
Qed.


Lemma bind_too_deep (m : M S A) (f : A -> M S B) s :
  m s = TooDeep -> (m ≫= f) s = TooDeep.
Proof.
  intros H. unfold mbind, M_bind. now rewrite H.
Qed.

End Outcomes.

Lemma post_eq {S A} (r : result S A) Q E :
  post r Q E <->
  (forall a s, r = Ok a s -> Q a s) /\ (forall e s, r = Raise e s -> E e s).
Proof.
  destruct r; simpl; split.
  - intros H. split; intros ? ? [=]; subst; auto.
  - intros [H _]. auto.
  - intros H. split; intros ? ? [=]; subst; auto.
  - intros [_ H]. auto.
  - split; intros ? ? [=].
  - auto.
Qed.

Lemma same_store_refl s : same_store s s.
Proof. split; reflexivity. Qed.

Lemma same_store_trans s1 s2 s3 :
  same_store s1 s2 -> same_store s2 s3 -> same_store s1 s3.
Proof. intros [? ?] [? ?]. split; congruence. Qed.

Create HintDb engine.

#[local] Hint Resolve same_store_refl same_store_trans : engine.

(** ** The evaluating engine *)

Module RunnerFacts.
Import Runner.

Lemma la_is_true s token : la_is s token = true <-> la s = Some token.
Proof.
  unfold la_is. destruct (la s) as [k|].
  - rewrite String.eqb_eq. split; congruence.
  - split; discriminate.
Qed.

Lemma la_none_true s : la_none s = true <-> la s = None.
Proof.
  unfold la_none. destruct (la s); split; congruence.
Qed.

(** [next_token] touches only the scanner. *)
Lemma next_token_post s :
  post (next_token s)
    (fun p s' => same_store s s' /\ la s' = la s /\ val s' = val s
                 /\ Plex.read (scanner s) = inl (p, scanner s'))
    (fun e s' => same_store s s' /\ la s' = la s /\ val s' = val s /\ e = PlexError
                 /\ Plex.read (scanner s) = inr (scanner s')).
Proof.
  unfold next_token. destruct (Plex.read (scanner s)) as [[p sc]|sc]; simpl;
    repeat split; auto.
Qed.

(** [match]: a token returned was the lookahead; a [ParseError] leaves the
    object as it was and names what was found and what was expected; the
    only other failure is the scanner's. *)
Lemma match_post token s :
  post (match_ token s)
    (fun a s' => same_store s s' /\ la s = Some token
                 /\ evaluate s = Ok a s
                 /\ Plex.read (scanner s) = inl ((la s', val s'), scanner s'))
    (fun e s' => same_store s s'
                 /\ ((e = PlexError /\ la s = Some token)
                     \/ (e = ParseError (match_message (la s) token) /\ s' = s
                         /\ la s <> Some token))).
Proof.
  unfold match_. destruct (la_is s token) eqn:Hla.
  - apply la_is_true in Hla.
    assert (Hev : exists a, evaluate s = Ok a s).
    { unfold evaluate. repeat destruct (la_is s _); eauto. }
    destruct Hev as [a Hev].
    rewrite (bind_ok _ _ _ _ _ Hev).
    eapply post_bind; [apply next_token_post| |].
    + intros e s1 (Hs & _ & _ & -> & _). split; auto.
    + intros p s1 (Hs & Hl & Hv & Hr). simpl.
      repeat split; try apply Hs; auto.
      destruct p; exact Hr.
  - simpl. split; [apply same_store_refl|]. right. repeat split.
    intros H. apply la_is_true in H. congruence.
Qed.

Lemma fold_op_sentinel op vs a s :
  fold_op op a (map Some vs) s = Ok (fold_left op vs a) s.
Proof.
  revert a. induction vs as [|v vs IH]; intros a; simpl; auto.
Qed.

Lemma but_last_sentinel b vs : sentinel b vs -> but_last b = map Some vs.
Proof.
  unfold sentinel, but_last. intros ->. apply removelast_last.
Qed.


Lemma evaluate_id s :
  la s = Some "id" ->
  evaluate s = Ok (match st s !! val s with Some z => PyInt z | None => PyNone end) s.
Proof.
  intros H. unfold evaluate, la_is. rewrite H. reflexivity.
Qed.

Lemma evaluate_binary s :
  la s = Some "binary" -> evaluate s = Ok (PyInt (int2 (val s))) s.
Proof.
  intros H. unfold evaluate, la_is. rewrite H. reflexivity.
Qed.

Lemma procedure_message_intro procedure expected :
  In procedure ["stmt_list"; "stmt"; "expr"; "term"; "term_tail"; "factor";
                "factor_tail"; "operand"; "operand_tail"] ->
  procedure_message ("in " +:+ procedure +:+ ": " +:+ expected +:+ " expected").
Proof.
  intros H. exists procedure, expected. auto.
Qed.

Lemma raised_by_procedure procedure expected s :
  In procedure ["stmt_list"; "stmt"; "expr"; "term"; "term_tail"; "factor";
                "factor_tail"; "operand"; "operand_tail"] ->
  engine_exn (ParseError ("in " +:+ procedure +:+ ": " +:+ expected +:+ " expected")) s.
Proof.
  intros H. right. right. eexists. split; [reflexivity|].
  left. now apply procedure_message_intro.
Qed.

Lemma raised_by_match token s s' e :
  same_store s s'
  /\ ((e = PlexError /\ la s = Some token)
      \/ (e = ParseError (match_message (la s) token) /\ s' = s /\ la s <> Some token)) ->
  engine_exn e s'.
Proof.
  intros [_ [[-> _]|(-> & -> & _)]].
  - now left.
  - right. right. eexists. split; [reflexivity|]. right. eauto.
Qed.

Ltac raise_here :=
  simpl; split; [apply same_store_refl|];
  match goal with
  | |- engine_exn (ParseError ?m) _ =>
      first [ apply (raised_by_procedure "expr" "id, binary or '('")
            | apply (raised_by_procedure "term" "id, binary or '('")
            | apply (raised_by_procedure "factor" "id, binary or '('")
            | apply (raised_by_procedure "operand" "id, binary or '('")
            | apply (raised_by_procedure "term_tail" "xor")
            | apply (raised_by_procedure "factor_tail" "or")
            | apply (raised_by_procedure "operand_tail" "or")
            | apply (raised_by_procedure "stmt" "id or print")
            | apply (raised_by_procedure "stmt_list" "id or print") ];
      simpl; tauto
  end.

Tactic Notation "after_match" "as" simple_intropattern(p) :=
  eapply post_bind; [apply match_post | | ];
  [ let Hm := fresh in
    intros ? ? Hm; split;
    [destruct Hm; eauto using same_store_trans | apply (raised_by_match _ _ _ _ Hm)]
  | cbv beta; intros ? ? p ].

Tactic Notation "after_call" constr(IH) "as" simple_intropattern(p) :=
  eapply post_bind; [apply IH | | ];
  [ intros ? ? [? ?]; split; [eauto using same_store_trans | assumption]
  | cbv beta; intros ? ? p ].

Lemma fold_post op a b vs s0 s :
  same_store s0 s -> sentinel b vs ->
  value_post s0 (fold_op op a (but_last b) s).
Proof.
  intros Hs Hb. rewrite (but_last_sentinel _ _ Hb), fold_op_sentinel. exact Hs.
Qed.

Lemma cons_sentinel a b vs : sentinel b vs -> sentinel (Some a :: b) (a :: vs).
Proof.
  unfold sentinel. intros ->. reflexivity.
Qed.

Lemma engine_post n :
  forall s,
    value_post s (expr n s) /\ value_post s (term n s) /\ tail_post s (term_tail n s)
    /\ value_post s (factor n s) /\ tail_post s (factor_tail n s)
    /\ value_post s (operand n s) /\ tail_post s (operand_tail n s).
Proof.
  induction n as [|n IH]; intros s.
  { repeat split. }
  assert (IHe := fun s => proj1 (IH s)).
  assert (IHt := fun s => proj1 (proj2 (IH s))).
  assert (IHtt := fun s => proj1 (proj2 (proj2 (IH s)))).
  assert (IHf := fun s => proj1 (proj2 (proj2 (proj2 (IH s))))).
  assert (IHft := fun s => proj1 (proj2 (proj2 (proj2 (proj2 (IH s)))))).
  assert (IHo := fun s => proj1 (proj2 (proj2 (proj2 (proj2 (proj2 (IH s))))))).
  assert (IHot := fun s => proj2 (proj2 (proj2 (proj2 (proj2 (proj2 (IH s))))))).
  clear IH. unfold value_post, tail_post in *.
  repeat split_and.
  - (* expr *)
    cbn [expr]. destruct (la_in s _); [|raise_here].
    after_call IHt as Ha. after_call IHtt as [Hb [vs Hvs]].
    eapply fold_post; eauto using same_store_trans.
  - (* term *)
    cbn [term]. destruct (la_in s _); [|raise_here].
    after_call IHf as Ha. after_call IHft as [Hb [vs Hvs]].
    eapply fold_post; eauto using same_store_trans.
  - (* term_tail *)
    cbn [term_tail]. destruct (la_is s "xor").
    + after_match as [Hm _]. after_call IHt as Ha. after_call IHtt as [Hb [vs Hvs]].
      simpl. split; [eauto using same_store_trans|].
      eexists. apply cons_sentinel, Hvs.
    + destruct (_ || _); [|raise_here].
      simpl. split; [apply same_store_refl|]. exists []. reflexivity.
  - (* factor *)
    cbn [factor]. destruct (la_in s _); [|raise_here].
    after_call IHo as Ha. after_call IHot as [Hb [vs Hvs]].
    eapply fold_post; eauto using same_store_trans.
  - (* factor_tail *)
    cbn [factor_tail]. destruct (la_is s "or").
    + after_match as [Hm _]. after_call IHf as Ha. after_call IHft as [Hb [vs Hvs]].
      simpl. split; [eauto using same_store_trans|].
      eexists. apply cons_sentinel, Hvs.
    + destruct (_ || _); [|raise_here].
      simpl. split; [apply same_store_refl|]. exists []. reflexivity.
  - (* operand *)
    cbn [operand]. destruct (la_is s "id") eqn:Hid.
    { after_match as (Hm & Hla & Hev & _). rewrite evaluate_id in Hev by assumption.
      injection Hev as <-. destruct (st s !! val s); simpl; [assumption|].
      split; [assumption|]. right. left. eauto. }
    destruct (la_is s "binary") eqn:Hbin.
    { after_match as (Hm & Hla & Hev & _). rewrite evaluate_binary in Hev by assumption.
      injection Hev as <-. simpl. assumption. }
    destruct (la_is s "("); [|raise_here].
    after_match as [Hm _]. after_call IHe as Ha.
    after_match as [Hc _]. simpl. eauto using same_store_trans.
  - (* operand_tail *)
    cbn [operand_tail]. destruct (la_is s "and").
    + after_match as [Hm _]. after_call IHo as Ha. after_call IHot as [Hb [vs Hvs]].
      simpl. split; [eauto using same_store_trans|].
      eexists. apply cons_sentinel, Hvs.
    + destruct (_ || _); [|raise_here].
      simpl. split; [apply same_store_refl|]. exists []. reflexivity.
Qed.


Lemma expr_post n s : value_post s (expr n s).
Proof. apply engine_post. Qed.

Lemma stmt_post n s :
  post (stmt n s) (fun _ s' => stmt_done s s')
                  (fun e s' => same_store s s' /\ engine_exn e s').
Proof.
  destruct n as [|n]; [exact I|].
  unfold stmt. destruct (la_is s "id") eqn:Hid.
  - apply la_is_true in Hid.
    after_match as [Hm _]. after_match as [He _].
    after_call (expr_post n) as Hv. simpl. left.
    destruct Hm as [Hm1 Hm2], He as [He1 He2], Hv as [Hv1 Hv2].
    split; [assumption|]. cbn [st out]. split; [congruence|]. eexists. f_equal. congruence.
  - destruct (la_is s "print") eqn:Hpr; [|raise_here].
    apply la_is_true in Hpr.
    after_match as [Hm _]. after_call (expr_post n) as Hv. simpl. right.
    destruct Hm as [Hm1 Hm2], Hv as [Hv1 Hv2].
    split; [assumption|]. cbn [st out]. split; [congruence|]. eexists. f_equal. congruence.
Qed.

Lemma extends_refl s : extends s s.
Proof. exists []. now rewrite app_nil_r. Qed.

Lemma extends_trans s1 s2 s3 : extends s1 s2 -> extends s2 s3 -> extends s1 s3.
Proof.
  intros [m1 H1] [m2 H2]. exists (m1 ++ m2). rewrite H2, H1. now rewrite app_assoc.
Qed.

Lemma same_store_extends s s' : same_store s s' -> extends s s'.
Proof. intros [_ H]. exists []. now rewrite app_nil_r. Qed.

Lemma stmt_done_extends s s' : stmt_done s s' -> extends s s'.
Proof.
  intros [(_ & H & _)|(_ & _ & v & H)].
  - exists []. now rewrite app_nil_r.
  - eexists. exact H.
Qed.

Lemma stmt_list_post n :
  forall s,
    post (stmt_list n s) (fun _ s' => la s' = None /\ extends s s')
                         (fun e s' => extends s s' /\ engine_exn e s').
Proof.
  induction n as [|n IH]; intros s; [exact I|].
  cbn [stmt_list]. destruct (_ || _).
  - eapply post_bind; [apply stmt_post| |]; cbv beta.
    + intros e s' [H1 H2]. split; [now apply same_store_extends|assumption].
    + intros _ s1 Hd. apply stmt_done_extends in Hd.
      eapply post_weaken; [apply IH| |]; cbv beta.
      * intros _ s' [? ?]. eauto using extends_trans.
      * intros e s' [? ?]. eauto using extends_trans.
  - destruct (la_none s) eqn:Hn.
    + apply la_none_true in Hn. simpl. split; [assumption|apply extends_refl].
    + simpl. split; [apply extends_refl|].
      apply (raised_by_procedure "stmt_list" "id or print"). simpl. tauto.
Qed.

End RunnerFacts.

(** ** The scanner hands [int2] binary literals only *)

Module PlexFacts.
Import Plex.

Lemma all_bits_snoc w c :
  Reference.all_bits (snoc w c) = Reference.all_bits w && is_bit c.
Proof.
  unfold snoc. induction w as [|d w IH]; simpl.
  - now rewrite andb_true_r.
  - change (Reference.all_bits (w +:+ String c "")) with (Reference.all_bits (snoc w c)) in *.
    unfold snoc in *. rewrite IH. now rewrite andb_assoc.
Qed.

Lemma binary_literal_snoc w c :
  Reference.binary_literal w = true -> is_bit c = true ->
  Reference.binary_literal (snoc w c) = true.
Proof.
  destruct w as [|d w]; [discriminate|]. intros Hw Hc.
  change (Reference.all_bits (snoc (String d w) c) = true).
  rewrite all_bits_snoc. unfold Reference.binary_literal in Hw. now rewrite Hw, Hc.
Qed.

Lemma word_token_literal w line col : literal_token (word_token w line col).
Proof.
  unfold literal_token, word_token.
  destruct (_ || _) eqn:Hop; simpl.
  - intros ->. discriminate.
  - destruct (String.eqb (lowercase w) "print") eqn:Hkw; simpl.
    + intros ->. discriminate.
    + discriminate.
Qed.

Lemma start_token_literal c line col :
  match start_token c line col with
  | Enter m => literal_mode m
  | Emit t => literal_token t
  | _ => True
  end.
Proof.
  unfold start_token. destruct (is_bit c) eqn:Hb; simpl.
  - now rewrite Hb.
  - destruct (is_letter c); simpl; [exact I|].
    destruct (_ || _) eqn:Hp; simpl.
    + unfold literal_token. simpl. intros H. discriminate H.
    + destruct (is_space c); simpl; [exact I|].
      destruct (Ascii.eqb c "{"); exact I.
Qed.

Lemma scan_literals text :
  forall m line col, literal_mode m -> Forall literal_token (fst (scan m line col text)).
Proof.
  induction text as [|c text IH]; intros m line col Hm.
  - destruct m; simpl; repeat constructor.
    + intros _. exact Hm.
    + apply word_token_literal.
  - cbn [scan].
    set (line' := if Ascii.eqb c "010" then S line else line).
    set (col' := if Ascii.eqb c "010" then 0 else S col).
    assert (Hfresh : Forall literal_token
                       (fst match start_token c line col with
                            | Enter m' => scan m' line' col' text
                            | Emit t => emit t (scan Idle line' col' text)
                            | Skip => scan Idle line' col' text
                            | Bad => ([], Unrecognized line col)
                            end)).
    { pose proof (start_token_literal c line col) as Hs.
      destruct (start_token c line col); simpl.
      - now apply IH.
      - constructor; [exact Hs|]. now apply IH.
      - now apply IH.
      - constructor. }
    destruct m as [|c0 w|c0 w|l0 c0].
    + exact Hfresh.
    + destruct (is_bit c) eqn:Hb.
      * apply IH. simpl in *. now apply binary_literal_snoc.
      * simpl. constructor; [|exact Hfresh]. intros _. exact Hm.
    + destruct (_ || _).
      * now apply IH.
      * simpl. constructor; [apply word_token_literal|exact Hfresh].
    + destruct (Ascii.eqb c "}"); now apply IH.
Qed.

(** Every [binary] token of a text is one or more of the characters 0 and 1. *)
Lemma open_literals text : Forall literal_token (pending (open text)).
Proof.
  unfold open. simpl. now apply scan_literals.
Qed.

End PlexFacts.

(** ** The tokens of the lexicon *)

Module Lexicon.
Import Plex.

Lemma alphanumeric_snoc w c :
  alphanumeric (snoc w c) = alphanumeric w && (is_letter c || is_digit c).
Proof.
  unfold snoc. induction w as [|d w IH].
  - simpl. now rewrite andb_true_r.
  - change (alphanumeric (String d w +:+ String c ""))
      with ((is_letter d || is_digit d) && alphanumeric (w +:+ String c "")).
    rewrite IH. simpl. now rewrite andb_assoc.
Qed.

Lemma word_snoc w c :
  word w = true -> is_letter c || is_digit c = true -> word (snoc w c) = true.
Proof.
  destruct w as [|d w]; [discriminate|]. intros Hw Hc.
  change (is_letter d && alphanumeric (snoc w c) = true).
  rewrite alphanumeric_snoc, Hc, andb_true_r. exact Hw.
Qed.

Lemma word_token_lexical w line col : word w = true -> lexical_token (word_token w line col).
Proof.
  intros Hw. unfold lexical_token, lexical, word_token.
  destruct (String.eqb w "and" || String.eqb w "or" || String.eqb w "xor") eqn:Hop; simpl.
  - right. right. left. unfold reserved. rewrite Hop. auto.
  - destruct (String.eqb (lowercase w) "print") eqn:Hkw; simpl.
    + right. right. left. unfold reserved. rewrite Hop, Hkw. auto.
    + right. left. unfold reserved. rewrite Hop, Hkw. auto.
Qed.

Lemma start_token_lexical c line col :
  match start_token c line col with
  | Enter m => lexical_mode m
  | Emit t => lexical_token t
  | _ => True
  end.
Proof.
  unfold start_token. destruct (is_bit c) eqn:Hb; simpl.
  - now rewrite Hb.
  - destruct (is_letter c) eqn:Hl; simpl; [now rewrite Hl|].
    destruct (Ascii.eqb c "=" || Ascii.eqb c "(" || Ascii.eqb c ")") eqn:Hp; simpl.
    + unfold lexical_token, lexical. simpl. right. right. right. split; [reflexivity|].
      apply orb_prop in Hp as [Hp|Hp]; [apply orb_prop in Hp as [Hp|Hp]|];
        apply Ascii.eqb_eq in Hp; subst; simpl; tauto.
    + destruct (is_space c); simpl; [exact I|].
      destruct (Ascii.eqb c "{"); exact I.
Qed.

Lemma scan_lexical text :
  forall m line col, lexical_mode m -> Forall lexical_token (fst (scan m line col text)).
Proof.
  induction text as [|c text IH]; intros m line col Hm.
  - destruct m; simpl.
    + constructor.
    + constructor; [|constructor].
      unfold lexical_token, lexical. simpl. left. split; [reflexivity|exact Hm].
    + constructor; [|constructor]. now apply word_token_lexical.
    + constructor.
  - cbn [scan].
    set (line' := if Ascii.eqb c "010" then S line else line).
    set (col' := if Ascii.eqb c "010" then 0 else S col).
    assert (Hfresh : Forall lexical_token
                       (fst match start_token c line col with
                            | Enter m' => scan m' line' col' text
                            | Emit t => emit t (scan Idle line' col' text)
                            | Skip => scan Idle line' col' text
                            | Bad => ([], Unrecognized line col)
                            end)).
    { pose proof (start_token_lexical c line col) as Hs.
      destruct (start_token c line col); simpl.
      - now apply IH.
      - constructor; [exact Hs|]. now apply IH.
      - now apply IH.
      - constructor. }
    destruct m as [|c0 w|c0 w|l0 c0].
    + exact Hfresh.
    + destruct (is_bit c) eqn:Hb.
      * apply IH. simpl in *. now apply PlexFacts.binary_literal_snoc.
      * simpl. constructor; [|exact Hfresh].
        unfold lexical_token, lexical. simpl. left. split; [reflexivity|exact Hm].
    + destruct (is_letter c || is_digit c) eqn:Hc.
      * apply IH. simpl in *. now apply word_snoc.
      * simpl. constructor; [now apply word_token_lexical|exact Hfresh].
    + destruct (Ascii.eqb c "}"); now apply IH.
Qed.

Lemma lexical_plain kv : lexical kv -> plain kv.
Proof.
  unfold lexical, plain. intros [[H _]|[[H _]|[[H _]|[H _]]]]; auto.
Qed.


(** *** Positions, spaces and comments *)

Lemma look_emit t r :
  look (emit t r) = ((tk_la t, tk_val t) :: fst (look r), snd (look r)).
Proof. reflexivity. Qed.

Lemma look_emit_eq t t' r r' :
  (tk_la t, tk_val t) = (tk_la t', tk_val t') -> look r = look r' ->
  look (emit t r) = look (emit t' r').
Proof.
  intros Ht Hr. rewrite !look_emit, Ht, Hr. reflexivity.
Qed.

Lemma word_token_kv w line col line' col' :
  (tk_la (word_token w line col), tk_val (word_token w line col))
  = (tk_la (word_token w line' col'), tk_val (word_token w line' col')).
Proof.
  unfold word_token. destruct (_ || _); [reflexivity|].
  destruct (String.eqb _ _); reflexivity.
Qed.

(** The kinds and lexemes of a scan, and how it ends, do not depend on the
    position where it starts. *)
Lemma look_positions text :
  forall m m' line col line' col',
    same_mode m m' ->
    look (scan m line col text) = look (scan m' line' col' text).
Proof.
  induction text as [|c text IH]; intros m m' line col line' col' Hm.
  - destruct m, m'; simpl in Hm; try contradiction; subst; try reflexivity.
    unfold look. simpl. f_equal. f_equal. apply word_token_kv.
  - cbn [scan].
    assert (Hfresh :
      look match start_token c line col with
           | Enter m0 => scan m0 (if Ascii.eqb c "010" then S line else line)
                           (if Ascii.eqb c "010" then 0 else S col) text
           | Emit t => emit t (scan Idle (if Ascii.eqb c "010" then S line else line)
                                 (if Ascii.eqb c "010" then 0 else S col) text)
           | Skip => scan Idle (if Ascii.eqb c "010" then S line else line)
                       (if Ascii.eqb c "010" then 0 else S col) text
           | Bad => ([], Unrecognized line col)
           end
      = look match start_token c line' col' with
             | Enter m0 => scan m0 (if Ascii.eqb c "010" then S line' else line')
                             (if Ascii.eqb c "010" then 0 else S col') text
             | Emit t => emit t (scan Idle (if Ascii.eqb c "010" then S line' else line')
                                   (if Ascii.eqb c "010" then 0 else S col') text)
             | Skip => scan Idle (if Ascii.eqb c "010" then S line' else line')
                         (if Ascii.eqb c "010" then 0 else S col') text
             | Bad => ([], Unrecognized line' col')
             end).
    { unfold start_token. destruct (is_bit c); [now apply IH|].
      destruct (is_letter c); [now apply IH|].
      destruct (_ || _); [apply look_emit_eq; [reflexivity|now apply IH]|].
      destruct (is_space c); [now apply IH|].
      destruct (Ascii.eqb c "{"); [now apply IH|reflexivity]. }
    destruct m, m'; simpl in Hm; try contradiction; subst.
    + exact Hfresh.
    + destruct (is_bit c); [now apply IH|].
      apply look_emit_eq; [reflexivity|exact Hfresh].
    + destruct (is_letter c || is_digit c); [now apply IH|].
      apply look_emit_eq; [apply word_token_kv|exact Hfresh].
    + destruct (Ascii.eqb c "}"); now apply IH.
Qed.

Lemma scan_comment_body body :
  forall line col line0 col0 rest,
    brace_free body = true ->
    look (scan (InComment line0 col0) line col (body +:+ String "}" rest))
    = look (scan Idle line col rest).
Proof.
  induction body as [|c body IH]; intros line col line0 col0 rest Hb.
  - cbn [scan String.append]. simpl. now apply look_positions.
  - simpl in Hb. apply andb_prop in Hb as [Hc Hb].
    change (String c body +:+ String "}" rest) with (String c (body +:+ String "}" rest)).
    cbn [scan]. destruct (Ascii.eqb c "}"); [discriminate|].
    rewrite IH by assumption. now apply look_positions.
Qed.

Lemma open_lexical text : Forall lexical_token (pending (open text)).
Proof. apply scan_lexical. exact I. Qed.

Lemma open_plain text : Forall plain_token (pending (open text)).
Proof.
  pose proof (open_lexical text) as H.
  induction H as [|t ts Ht _ IH]; constructor; [|exact IH].
  now apply lexical_plain.
Qed.

Lemma lexemes_lexical text : Forall lexical (lexemes (open text)).
Proof.
  unfold lexemes. pose proof (open_lexical text) as H.
  induction H as [|t ts Ht _ IH]; simpl; constructor; [exact Ht|exact IH].
Qed.

End Lexicon.

(** ** The engine always ends *)

Lemma finishes_bind {S A B} (m : M S A) (f : A -> M S B) (s : S) (Q' Q : S -> Prop) :
  finishes (m s) Q' ->
  (forall a s', Q' s' -> finishes (f a s') Q) ->
  finishes ((m ≫= f) s) Q.
Proof.
  unfold mbind, M_bind. destruct (m s); simpl; auto.
Qed.

Lemma finishes_weaken {S A} (r : result S A) (Q' Q : S -> Prop) :
  finishes r Q' -> (forall s, Q' s -> Q s) -> finishes r Q.
Proof.
  destruct r; simpl; auto.
Qed.

Module RunnerTotal.
Import Runner RunnerFacts.

Lemma next_token_remaining s :
  finishes (next_token s)
    (fun s' => la s' = la s
               /\ length (Plex.pending (scanner s')) = pred (length (Plex.pending (scanner s)))
               /\ Plex.read (scanner s) = inl ((match Plex.pending (scanner s) with
                                               | t :: _ => Some (Plex.tk_la t)
                                               | [] => None
                                               end,
                                               match Plex.pending (scanner s) with
                                               | t :: _ => Plex.tk_val t
                                               | [] => ""
                                               end), scanner s')).
Proof.
  unfold next_token, Plex.read.
  destruct (Plex.pending (scanner s)) as [|t r]; simpl.
  - destruct (Plex.finish (scanner s)); simpl; auto.
  - auto.
Qed.

Lemma match_finishes token s :
  finishes (match_ token s) (fun s' => S (remaining s') = remaining s).
Proof.
  unfold match_. destruct (la_is s token) eqn:Hla; [|exact I].
  apply la_is_true in Hla.
  assert (Hev : exists a, evaluate s = Ok a s).
  { unfold evaluate. repeat destruct (la_is s _); eauto. }
  destruct Hev as [a Hev]. rewrite (bind_ok _ _ _ _ _ Hev).
  unfold mbind, M_bind, next_token, Plex.read, remaining. rewrite Hla.
  destruct (Plex.pending (scanner s)) as [|t r]; simpl.
  - destruct (Plex.finish (scanner s)); simpl; auto.
  - reflexivity.
Qed.

Lemma fold_op_finishes op bs : forall a s, finishes (fold_op op a bs s) (fun s' => s' = s).
Proof.
  induction bs as [|[b|] bs IH]; intros a s; simpl; auto.
Qed.

Ltac through H :=
  eapply finishes_bind; [eapply H; lia | cbv beta; intros ? ? ?].

Ltac fold_end :=
  eapply finishes_weaken; [apply fold_op_finishes | cbv beta; intros ? ->; lia].

Lemma engine_total k :
  forall s, remaining s < k ->
    consumes 4 expr s /\ consumes 3 term s /\ keeps 1 term_tail s
    /\ consumes 2 factor s /\ keeps 1 factor_tail s
    /\ consumes 1 operand s /\ keeps 1 operand_tail s.
Proof.
  induction k as [|k IH]; [intros s Hs; lia|].
  assert (IHe : forall s, remaining s < k -> consumes 4 expr s) by (intros; now apply IH).
  assert (IHt : forall s, remaining s < k -> consumes 3 term s) by (intros; now apply IH).
  assert (IHtt : forall s, remaining s < k -> keeps 1 term_tail s) by (intros; now apply IH).
  assert (IHf : forall s, remaining s < k -> consumes 2 factor s) by (intros; now apply IH).
  assert (IHft : forall s, remaining s < k -> keeps 1 factor_tail s) by (intros; now apply IH).
  assert (IHo : forall s, remaining s < k -> consumes 1 operand s) by (intros; now apply IH).
  assert (IHot : forall s, remaining s < k -> keeps 1 operand_tail s) by (intros; now apply IH).
  clear IH.
  assert (Ho : forall s, remaining s < S k -> consumes 1 operand s).
  { intros s Hs [|n] Hn; [lia|]. cbn [operand].
    destruct (la_is s "id").
    { through match_finishes. destruct a; simpl; auto; lia. }
    destruct (la_is s "binary").
    { through match_finishes. destruct a; simpl; auto; lia. }
    destruct (la_is s "("); [|exact I].
    through match_finishes. through IHe. through match_finishes.
    simpl. lia. }
  assert (Hot : forall s, remaining s < S k -> keeps 1 operand_tail s).
  { intros s Hs [|n] Hn; [lia|]. cbn [operand_tail].
    destruct (la_is s "and").
    - through match_finishes. through IHo. through IHot. simpl. lia.
    - destruct (_ || _); simpl; auto. }
  assert (Hf : forall s, remaining s < S k -> consumes 2 factor s).
  { intros s Hs [|n] Hn; [lia|]. cbn [factor].
    destruct (la_in s _); [|exact I].
    through Ho. through IHot. fold_end. }
  assert (Hft : forall s, remaining s < S k -> keeps 1 factor_tail s).
  { intros s Hs [|n] Hn; [lia|]. cbn [factor_tail].
    destruct (la_is s "or").
    - through match_finishes. through IHf. through IHft. simpl. lia.
    - destruct (_ || _); simpl; auto. }
  assert (Ht : forall s, remaining s < S k -> consumes 3 term s).
  { intros s Hs [|n] Hn; [lia|]. cbn [term].
    destruct (la_in s _); [|exact I].
    through Hf. through IHft. fold_end. }
  assert (Htt : forall s, remaining s < S k -> keeps 1 term_tail s).
  { intros s Hs [|n] Hn; [lia|]. cbn [term_tail].
    destruct (la_is s "xor").
    - through match_finishes. through IHt. through IHtt. simpl. lia.
    - destruct (_ || _); simpl; auto. }
  intros s Hs. repeat split_and; auto.
  intros [|n] Hn; [lia|]. cbn [expr].
  destruct (la_in s _); [|exact I].
  through Ht. through IHtt. fold_end.
Qed.


Lemma expr_total s : consumes 4 expr s.
Proof.
  apply (engine_total (S (remaining s))). lia.
Qed.

Lemma stmt_total s : consumes 5 stmt s.
Proof.
  intros [|n] Hn; [lia|]. unfold stmt.
  destruct (la_is s "id").
  - through match_finishes. through match_finishes. through expr_total.
    simpl. unfold remaining in *. simpl. lia.
  - destruct (la_is s "print"); [|exact I].
    through match_finishes. through expr_total.
    simpl. unfold remaining in *. simpl. lia.
Qed.

Lemma stmt_list_total n :
  forall s, 6 + 7 * remaining s <= n -> finishes (stmt_list n s) (fun _ => True).
Proof.
  induction n as [|n IH]; intros s Hn; [lia|].
  cbn [stmt_list]. destruct (_ || _).
  - through stmt_total. apply IH. lia.
  - destruct (la_none s); exact I.
Qed.

Lemma create_scanner_post sc :
  match create_scanner sc init with
  | Ok _ s => remaining s = length (Plex.pending sc) /\ st s = ∅ /\ out s = []
              /\ Plex.read sc = inl ((la s, val s), scanner s)
  | Raise e s => e = PlexError /\ st s = ∅ /\ out s = []
                 /\ Plex.read sc = inr (scanner s)
  | TooDeep => False
  end.
Proof.
  unfold create_scanner, mbind, M_bind, next_token, Plex.read, remaining, init. simpl.
  destruct (Plex.pending sc) as [|t r]; simpl.
  - destruct (Plex.finish sc); simpl; auto.
  - auto.
Qed.

(** [parse] never needs a deeper call stack than it allows. *)
Lemma parse_total sc : parse sc <> TooDeep.
Proof.
  unfold parse. pose proof (create_scanner_post sc) as H.
  unfold mbind, M_bind. destruct (create_scanner sc init) as [[] s|e s|]; [|discriminate|tauto].
  destruct H as [H _].
  pose proof (stmt_list_total (depth_for (length (Plex.pending sc))) s) as Ht.
  unfold depth_for in *. rewrite H in Ht.
  destruct (stmt_list _ s); try discriminate. intros _. apply Ht. lia.
Qed.

End RunnerTotal.

(** ** The engine computes the reference value *)

Scheme expr_t_mut := Induction for Reference.expr_t Sort Prop
with term_tail_t_mut := Induction for Reference.term_tail_t Sort Prop
with term_t_mut := Induction for Reference.term_t Sort Prop
with factor_tail_t_mut := Induction for Reference.factor_tail_t Sort Prop
with factor_t_mut := Induction for Reference.factor_t Sort Prop
with operand_tail_t_mut := Induction for Reference.operand_tail_t Sort Prop
with operand_t_mut := Induction for Reference.operand_t Sort Prop.

Combined Scheme tree_mutind from expr_t_mut, term_tail_t_mut, term_t_mut,
  factor_tail_t_mut, factor_t_mut, operand_tail_t_mut, operand_t_mut.

Module RunnerCorrect.
Import Runner RunnerFacts Reference.

Lemma la_first s : la s = first_kind (upcoming s).
Proof.
  unfold upcoming. destruct (la s); reflexivity.
Qed.

Lemma reads_only_refl s : reads_only s s.
Proof. repeat split. Qed.

Lemma reads_only_trans s1 s2 s3 : reads_only s1 s2 -> reads_only s2 s3 -> reads_only s1 s3.
Proof.
  intros (? & ? & ?) (? & ? & ?). repeat split; congruence.
Qed.

Lemma reads_only_ends s s' :
  reads_only s s' -> ends_well (scanner s) -> ends_well (scanner s').
Proof.
  intros (_ & _ & H) (l & c & E). exists l, c. congruence.
Qed.

Lemma reads_only_agrees env s s' : reads_only s s' -> agrees env s -> agrees env s'.
Proof.
  unfold agrees. intros (H & _) E. congruence.
Qed.

Lemma match_upcoming token v rest s :
  upcoming s = (token, v) :: rest -> ends_well (scanner s) ->
  exists a s', match_ token s = Ok a s' /\ evaluate s = Ok a s
               /\ la s = Some token /\ val s = v
               /\ upcoming s' = rest /\ reads_only s s'.
Proof.
  intros Hup (l & c & Hend). unfold upcoming in Hup.
  destruct (la s) as [k|] eqn:Hla; [|discriminate].
  injection Hup as -> Hv Hrest.
  assert (Hev : exists a, evaluate s = Ok a s).
  { unfold evaluate. repeat destruct (la_is s _); eauto. }
  destruct Hev as [a Hev]. exists a.
  unfold match_, la_is. rewrite Hla, String.eqb_refl, (bind_ok _ _ _ _ _ Hev).
  unfold mbind, M_bind, next_token, Plex.read.
  destruct (Plex.pending (scanner s)) as [|t r] eqn:Hp.
  - rewrite Hend. eexists. split; [reflexivity|]. subst rest.
    repeat split; auto.
  - eexists. split; [reflexivity|]. subst rest.
    repeat split; auto.
Qed.

Lemma follow_accepts s kinds :
  in_follow kinds (la s) -> la_none s || la_in s kinds = true.
Proof.
  unfold in_follow, la_none, la_in. destruct (la s) as [t|] eqn:Hla; [|reflexivity].
  intros Hin. simpl. apply existsb_exists. exists t. split; [assumption|].
  unfold la_is. rewrite Hla. apply String.eqb_refl.
Qed.

Lemma follow_rejects s kinds t :
  in_follow kinds (la s) -> ~ In t kinds -> la_is s t = false.
Proof.
  unfold in_follow, la_is. destruct (la s) as [t'|]; [|reflexivity].
  intros Hin Hnot. destruct (String.eqb_spec t' t); [subst; contradiction|reflexivity].
Qed.

Lemma starts_app ks more : starts ks -> starts (ks ++ more).
Proof.
  intros (k & v & tl & -> & H). exists k, v, (tl ++ more). auto.
Qed.

Lemma operand_starts o : starts (operand_tokens o).
Proof.
  destruct o; simpl; do 3 eexists; (split; [reflexivity|simpl; tauto]).
Qed.

Lemma factor_starts f : starts (factor_tokens f).
Proof. destruct f. simpl. apply starts_app, operand_starts. Qed.

Lemma term_starts t : starts (term_tokens t).
Proof. destruct t. simpl. apply starts_app, factor_starts. Qed.

Lemma expr_starts e : starts (expr_tokens e).
Proof. destruct e. simpl. apply starts_app, term_starts. Qed.

Lemma starts_la_in s ks rest :
  upcoming s = ks ++ rest -> starts ks -> la_in s ["id"; "binary"; "("] = true.
Proof.
  intros Hup (k & v & tl & -> & Hin). rewrite <- app_comm_cons in Hup.
  pose proof (la_first s) as Hla. rewrite Hup in Hla. simpl in Hla.
  unfold la_in. apply existsb_exists. exists k. split; [assumption|].
  unfold la_is. rewrite Hla. apply String.eqb_refl.
Qed.

Lemma int2_from_value a digits :
  int2_from (Z.of_N a) digits = Z.of_N (binary_value a digits).
Proof.
  revert a. induction digits as [|c digits IH]; intros a; simpl; [reflexivity|].
  rewrite <- IH. f_equal. unfold bit_value.
  destruct (Ascii.eqb c "1"); destruct a; reflexivity.
Qed.

Lemma int2_value digits : int2 digits = Z.of_N (binary_value 0 digits).
Proof. apply (int2_from_value 0). Qed.

Lemma format_render v : format_b (Z.of_N v) = render v.
Proof. destruct v; reflexivity. Qed.


Lemma in_follow_incl kinds kinds' k :
  incl kinds kinds' -> in_follow kinds k -> in_follow kinds' k.
Proof.
  unfold in_follow. destruct k; auto.
Qed.

Lemma bind_not_too_deep {S A B} (m : M S A) (f : A -> M S B) s :
  (m ≫= f) s <> TooDeep -> m s <> TooDeep.
Proof.
  intros H E. apply H. now apply bind_too_deep.
Qed.

Lemma option_bind_some {A B} (o : option A) (f : A -> option B) w :
  o ≫= f = Some w -> exists a, o = Some a /\ f a = Some w.
Proof.
  destruct o as [a|]; simpl; [eauto|discriminate].
Qed.

Lemma la_of_upcoming s k v rest : upcoming s = (k, v) :: rest -> la s = Some k.
Proof.
  intros H. rewrite la_first, H. reflexivity.
Qed.

Lemma la_is_upcoming s k v rest t :
  upcoming s = (k, v) :: rest -> la_is s t = String.eqb k t.
Proof.
  intros H. unfold la_is. now rewrite (la_of_upcoming _ _ _ _ H).
Qed.

Lemma follow_of_rest s rest kinds :
  upcoming s = rest -> in_follow kinds (first_kind rest) -> in_follow kinds (la s).
Proof.
  intros <-. now rewrite la_first.
Qed.

Ltac in_list := simpl; intuition discriminate.

Ltac incl_list :=
  let x := fresh in intros x; simpl; intuition.

Section Trees.
Variable env : gmap string N.

Lemma trees_correct :
  (forall e, value_correct env expr (expr_tokens e) (eval_expr env e) [")"; "id"; "print"])
  /\ (forall xs, tail_correct env term_tail (term_tail_tokens xs) Z.lxor
                   (fun a => eval_term_tail env a xs) [")"; "id"; "print"])
  /\ (forall t, value_correct env term (term_tokens t) (eval_term env t)
                  [")"; "xor"; "id"; "print"])
  /\ (forall fs, tail_correct env factor_tail (factor_tail_tokens fs) Z.lor
                   (fun a => eval_factor_tail env a fs) [")"; "xor"; "id"; "print"])
  /\ (forall f, value_correct env factor (factor_tokens f) (eval_factor env f)
                  [")"; "xor"; "or"; "id"; "print"])
  /\ (forall os, tail_correct env operand_tail (operand_tail_tokens os) Z.land
                   (fun a => eval_operand_tail env a os) [")"; "xor"; "or"; "id"; "print"])
  /\ (forall o, value_correct env operand (operand_tokens o) (eval_operand env o)
                  [")"; "and"; "xor"; "or"; "id"; "print"]).
Proof.
  apply tree_mutind.
  - (* Expr *)
    intros t IHt xs IHxs [|n] s rest w Hup Hend Hag Hfol Hev Hnd; [contradiction|].
    cbn [expr] in *. simpl in Hup, Hev.
    rewrite (starts_la_in s _ rest Hup) in * by apply (expr_starts (Expr t xs)).
    rewrite <- app_assoc in Hup.
    apply option_bind_some in Hev as (a & Ha & Hw).
    destruct (IHt n s _ a Hup Hend Hag) as (s1 & E1 & Hup1 & Hr1);
      [destruct xs; simpl; [eapply in_follow_incl; [|exact Hfol]; incl_list|tauto]
      |assumption|now apply bind_not_too_deep in Hnd|].
    rewrite (bind_ok _ _ _ _ _ E1) in *.
    destruct (IHxs n s1 rest a w Hup1) as (s2 & vs & E2 & Hfold & Hup2 & Hr2);
      eauto using reads_only_ends, reads_only_agrees, bind_not_too_deep.
    rewrite (bind_ok _ _ _ _ _ E2).
    rewrite (but_last_sentinel _ vs eq_refl), fold_op_sentinel, Hfold.
    eauto using reads_only_trans.
  - (* NoXor *)
    intros [|n] s rest a w Hup Hend Hag Hfol Hev Hnd; [contradiction|].
    cbn [term_tail] in *. simpl in Hup, Hev. injection Hev as <-.
    pose proof (follow_of_rest _ _ _ Hup Hfol) as Hla.
    rewrite (follow_rejects s _ "xor" Hla) by in_list.
    rewrite (follow_accepts s _ Hla).
    exists s, []. simpl. auto using reads_only_refl.
  - (* Xor *)
    intros t IHt xs IHxs [|n] s rest a w Hup Hend Hag Hfol Hev Hnd; [contradiction|].
    cbn [term_tail] in *. simpl in Hup, Hev.
    rewrite (la_is_upcoming _ _ _ _ "xor" Hup) in *. simpl in Hnd |- *.
    apply option_bind_some in Hev as (b & Hb & Hw).
    destruct (match_upcoming _ _ _ _ Hup Hend) as (x & s0 & E0 & _ & _ & _ & Hup0 & Hr0).
    rewrite (bind_ok _ _ _ _ _ E0) in *.
    rewrite <- app_assoc in Hup0.
    destruct (IHt n s0 _ b Hup0) as (s1 & E1 & Hup1 & Hr1);
      [eauto using reads_only_ends|eauto using reads_only_agrees
      |destruct xs; simpl; [eapply in_follow_incl; [|exact Hfol]; incl_list|tauto]
      |assumption|now apply bind_not_too_deep in Hnd|].
    rewrite (bind_ok _ _ _ _ _ E1) in *.
    destruct (IHxs n s1 rest (N.lxor a b) w Hup1) as (s2 & vs & E2 & Hfold & Hup2 & Hr2);
      eauto 6 using reads_only_ends, reads_only_agrees, reads_only_trans, bind_not_too_deep.
    rewrite (bind_ok _ _ _ _ _ E2).
    exists s2, (Z.of_N b :: vs). simpl. rewrite <- N2Z.inj_lxor, Hfold.
    eauto 6 using reads_only_trans.
  - (* Term *)
    intros f IHf fs IHfs [|n] s rest w Hup Hend Hag Hfol Hev Hnd; [contradiction|].
    cbn [term] in *. simpl in Hup, Hev.
    rewrite (starts_la_in s _ rest Hup) in * by apply (term_starts (Term f fs)).
    rewrite <- app_assoc in Hup.
    apply option_bind_some in Hev as (a & Ha & Hw).
    destruct (IHf n s _ a Hup Hend Hag) as (s1 & E1 & Hup1 & Hr1);
      [destruct fs; simpl; [eapply in_follow_incl; [|exact Hfol]; incl_list|tauto]
      |assumption|now apply bind_not_too_deep in Hnd|].
    rewrite (bind_ok _ _ _ _ _ E1) in *.
    destruct (IHfs n s1 rest a w Hup1) as (s2 & vs & E2 & Hfold & Hup2 & Hr2);
      eauto using reads_only_ends, reads_only_agrees, bind_not_too_deep.
    rewrite (bind_ok _ _ _ _ _ E2).
    rewrite (but_last_sentinel _ vs eq_refl), fold_op_sentinel, Hfold.
    eauto using reads_only_trans.
  - (* NoOr *)
    intros [|n] s rest a w Hup Hend Hag Hfol Hev Hnd; [contradiction|].
    cbn [factor_tail] in *. simpl in Hup, Hev. injection Hev as <-.
    pose proof (follow_of_rest _ _ _ Hup Hfol) as Hla.
    rewrite (follow_rejects s _ "or" Hla) by in_list.
    rewrite (follow_accepts s _ Hla).
    exists s, []. simpl. auto using reads_only_refl.
  - (* Or *)
    intros f IHf fs IHfs [|n] s rest a w Hup Hend Hag Hfol Hev Hnd; [contradiction|].
    cbn [factor_tail] in *. simpl in Hup, Hev.
    rewrite (la_is_upcoming _ _ _ _ "or" Hup) in *. simpl in Hnd |- *.
    apply option_bind_some in Hev as (b & Hb & Hw).
    destruct (match_upcoming _ _ _ _ Hup Hend) as (x & s0 & E0 & _ & _ & _ & Hup0 & Hr0).
    rewrite (bind_ok _ _ _ _ _ E0) in *.
    rewrite <- app_assoc in Hup0.
    destruct (IHf n s0 _ b Hup0) as (s1 & E1 & Hup1 & Hr1);
      [eauto using reads_only_ends|eauto using reads_only_agrees
      |destruct fs; simpl; [eapply in_follow_incl; [|exact Hfol]; incl_list|tauto]
      |assumption|now apply bind_not_too_deep in Hnd|].
    rewrite (bind_ok _ _ _ _ _ E1) in *.
    destruct (IHfs n s1 rest (N.lor a b) w Hup1) as (s2 & vs & E2 & Hfold & Hup2 & Hr2);
      eauto 6 using reads_only_ends, reads_only_agrees, reads_only_trans, bind_not_too_deep.
    rewrite (bind_ok _ _ _ _ _ E2).
    exists s2, (Z.of_N b :: vs). simpl. rewrite <- N2Z.inj_lor, Hfold.
    eauto 6 using reads_only_trans.
  - (* Factor *)
    intros o IHo os IHos [|n] s rest w Hup Hend Hag Hfol Hev Hnd; [contradiction|].
    cbn [factor] in *. simpl in Hup, Hev.
    rewrite (starts_la_in s _ rest Hup) in * by apply (factor_starts (Factor o os)).
    rewrite <- app_assoc in Hup.
    apply option_bind_some in Hev as (a & Ha & Hw).
    destruct (IHo n s _ a Hup Hend Hag) as (s1 & E1 & Hup1 & Hr1);
      [destruct os; simpl; [eapply in_follow_incl; [|exact Hfol]; incl_list|tauto]
      |assumption|now apply bind_not_too_deep in Hnd|].
    rewrite (bind_ok _ _ _ _ _ E1) in *.
    destruct (IHos n s1 rest a w Hup1) as (s2 & vs & E2 & Hfold & Hup2 & Hr2);
      eauto using reads_only_ends, reads_only_agrees, bind_not_too_deep.
    rewrite (bind_ok _ _ _ _ _ E2).
    rewrite (but_last_sentinel _ vs eq_refl), fold_op_sentinel, Hfold.
    eauto using reads_only_trans.
  - (* NoAnd *)
    intros [|n] s rest a w Hup Hend Hag Hfol Hev Hnd; [contradiction|].
    cbn [operand_tail] in *. simpl in Hup, Hev. injection Hev as <-.
    pose proof (follow_of_rest _ _ _ Hup Hfol) as Hla.
    rewrite (follow_rejects s _ "and" Hla) by in_list.
    rewrite (follow_accepts s _ Hla).
    exists s, []. simpl. auto using reads_only_refl.
  - (* And *)
    intros o IHo os IHos [|n] s rest a w Hup Hend Hag Hfol Hev Hnd; [contradiction|].
    cbn [operand_tail] in *. simpl in Hup, Hev.
    rewrite (la_is_upcoming _ _ _ _ "and" Hup) in *. simpl in Hnd |- *.
    apply option_bind_some in Hev as (b & Hb & Hw).
    destruct (match_upcoming _ _ _ _ Hup Hend) as (x & s0 & E0 & _ & _ & _ & Hup0 & Hr0).
    rewrite (bind_ok _ _ _ _ _ E0) in *.
    rewrite <- app_assoc in Hup0.
    destruct (IHo n s0 _ b Hup0) as (s1 & E1 & Hup1 & Hr1);
      [eauto using reads_only_ends|eauto using reads_only_agrees
      |destruct os; simpl; [eapply in_follow_incl; [|exact Hfol]; incl_list|tauto]
      |assumption|now apply bind_not_too_deep in Hnd|].
    rewrite (bind_ok _ _ _ _ _ E1) in *.
    destruct (IHos n s1 rest (N.land a b) w Hup1) as (s2 & vs & E2 & Hfold & Hup2 & Hr2);
      eauto 6 using reads_only_ends, reads_only_agrees, reads_only_trans, bind_not_too_deep.
    rewrite (bind_ok _ _ _ _ _ E2).
    exists s2, (Z.of_N b :: vs). simpl. rewrite <- N2Z.inj_land, Hfold.
    eauto 6 using reads_only_trans.
  - (* Paren *)
    intros e IHe [|n] s rest w Hup Hend Hag Hfol Hev Hnd; [contradiction|].
    cbn [operand] in *. simpl in Hup, Hev.
    rewrite !(la_is_upcoming _ _ _ _ _ Hup) in *. simpl in Hnd |- *.
    destruct (match_upcoming _ _ _ _ Hup Hend) as (x & s0 & E0 & _ & _ & _ & Hup0 & Hr0).
    rewrite (bind_ok _ _ _ _ _ E0) in *.
    rewrite <- app_assoc in Hup0.
    destruct (IHe n s0 _ w Hup0) as (s1 & E1 & Hup1 & Hr1);
      [eauto using reads_only_ends|eauto using reads_only_agrees
      |simpl; tauto|assumption|now apply bind_not_too_deep in Hnd|].
    rewrite (bind_ok _ _ _ _ _ E1) in *.
    destruct (match_upcoming _ _ _ _ Hup1) as (y & s2 & E2 & _ & _ & _ & Hup2 & Hr2);
      [eauto using reads_only_ends, reads_only_trans|].
    rewrite (bind_ok _ _ _ _ _ E2).
    exists s2. eauto 6 using reads_only_trans.
  - (* Id *)
    intros name [|n] s rest w Hup Hend Hag Hfol Hev Hnd; [contradiction|].
    cbn [operand] in *. simpl in Hup, Hev.
    rewrite !(la_is_upcoming _ _ _ _ _ Hup) in *. simpl in Hnd |- *.
    destruct (match_upcoming _ _ _ _ Hup Hend) as (x & s0 & E0 & Hx & Hla & Hval & Hup0 & Hr0).
    rewrite (bind_ok _ _ _ _ _ E0).
    rewrite (evaluate_id _ Hla) in Hx. injection Hx as <-.
    unfold agrees in Hag. rewrite Hag, lookup_fmap, Hval, Hev. simpl.
    exists s0. auto.
  - (* Binary *)
    intros digits [|n] s rest w Hup Hend Hag Hfol Hev Hnd; [contradiction|].
    cbn [operand] in *. simpl in Hup, Hev.
    rewrite !(la_is_upcoming _ _ _ _ _ Hup) in *. simpl in Hnd |- *.
    destruct (match_upcoming _ _ _ _ Hup Hend) as (x & s0 & E0 & Hx & Hla & Hval & Hup0 & Hr0).
    rewrite (bind_ok _ _ _ _ _ E0).
    rewrite (evaluate_binary _ Hla) in Hx. injection Hx as <-.
    injection Hev as <-. rewrite Hval, int2_value. simpl.
    exists s0. auto.
Qed.

End Trees.


Lemma expr_correct env e :
  value_correct env expr (expr_tokens e) (eval_expr env e) [")"; "id"; "print"].
Proof. apply trees_correct. Qed.

Lemma program_first p : in_follow [")"; "id"; "print"] (first_kind (program_tokens p)).
Proof.
  destruct p as [|[name e|e] p]; simpl; tauto.
Qed.

Lemma assign_correct env name e n s rest v :
  upcoming s = ("id", name) :: ("=", "=") :: expr_tokens e ++ rest ->
  in_follow [")"; "id"; "print"] (first_kind rest) ->
  ends_well (scanner s) -> agrees env s ->
  eval_expr env e = Some v -> stmt n s <> TooDeep ->
  exists s', stmt n s = Ok tt s' /\ upcoming s' = rest /\ ends_well (scanner s')
             /\ agrees (<[name := v]> env) s' /\ out s' = out s.
Proof.
  intros Hup Hfol Hend Hag Hv Hnd. destruct n as [|n]; [contradiction|].
  unfold stmt in *. rewrite !(la_is_upcoming _ _ _ _ _ Hup) in *. simpl in Hnd |- *.
  destruct (match_upcoming _ _ _ _ Hup Hend) as (x & s0 & E0 & _ & _ & Hval & Hup0 & Hr0).
  rewrite (bind_ok _ _ _ _ _ E0) in *.
  destruct (match_upcoming _ _ _ _ Hup0) as (y & s1 & E1 & _ & _ & _ & Hup1 & Hr1);
    [eauto using reads_only_ends|].
  rewrite (bind_ok _ _ _ _ _ E1) in *.
  destruct (expr_correct env e n s1 _ v Hup1) as (s2 & E2 & Hup2 & Hr2);
    [eauto using reads_only_ends, reads_only_trans
    |eauto using reads_only_agrees, reads_only_trans
    |assumption|assumption|now apply bind_not_too_deep in Hnd|].
  rewrite (bind_ok _ _ _ _ _ E2) in *. simpl.
  eexists. split; [reflexivity|].
  assert (Hr : reads_only s s2) by eauto using reads_only_trans.
  destruct Hr as (Hst & Hout & Hfin).
  repeat split.
  - exact Hup2.
  - destruct Hend as (l & c & Hend). exists l, c. simpl. congruence.
  - unfold agrees in *. simpl. rewrite fmap_insert, Hval, Hst, Hag. reflexivity.
  - exact Hout.
Qed.

Lemma print_correct env e n s rest v :
  upcoming s = ("print", "print") :: expr_tokens e ++ rest ->
  in_follow [")"; "id"; "print"] (first_kind rest) ->
  ends_well (scanner s) -> agrees env s ->
  eval_expr env e = Some v -> stmt n s <> TooDeep ->
  exists s', stmt n s = Ok tt s' /\ upcoming s' = rest /\ ends_well (scanner s')
             /\ agrees env s' /\ out s' = out s ++ [render v].
Proof.
  intros Hup Hfol Hend Hag Hv Hnd. destruct n as [|n]; [contradiction|].
  unfold stmt in *. rewrite !(la_is_upcoming _ _ _ _ _ Hup) in *. simpl in Hnd |- *.
  destruct (match_upcoming _ _ _ _ Hup Hend) as (x & s0 & E0 & _ & _ & Hval & Hup0 & Hr0).
  rewrite (bind_ok _ _ _ _ _ E0) in *.
  destruct (expr_correct env e n s0 _ v Hup0) as (s2 & E2 & Hup2 & Hr2);
    [eauto using reads_only_ends, reads_only_trans
    |eauto using reads_only_agrees, reads_only_trans
    |assumption|assumption|now apply bind_not_too_deep in Hnd|].
  rewrite (bind_ok _ _ _ _ _ E2) in *. simpl.
  eexists. split; [reflexivity|].
  assert (Hr : reads_only s s2) by eauto using reads_only_trans.
  destruct Hr as (Hst & Hout & Hfin).
  repeat split.
  - exact Hup2.
  - destruct Hend as (l & c & Hend). exists l, c. simpl. congruence.
  - unfold agrees in *. simpl. congruence.
  - simpl. rewrite format_render, Hout. reflexivity.
Qed.

Lemma program_correct p :
  forall env n s vs,
    upcoming s = program_tokens p -> ends_well (scanner s) -> agrees env s ->
    exec env p = Some vs -> stmt_list n s <> TooDeep ->
    exists s', stmt_list n s = Ok tt s' /\ out s' = out s ++ map render vs.
Proof.
  induction p as [|c p IH]; intros env [|n] s vs Hup Hend Hag Hex Hnd; try contradiction.
  - simpl in Hex. injection Hex as <-. cbn [stmt_list].
    assert (Hla : la s = None) by (rewrite la_first, Hup; reflexivity).
    unfold la_is, la_none. rewrite Hla. simpl. exists s. now rewrite app_nil_r.
  - unfold program_tokens in Hup. simpl in Hup. fold (program_tokens p) in Hup.
    cbn [stmt_list] in *. destruct c as [name e|e]; simpl in Hup, Hex.
    + rewrite !(la_is_upcoming _ _ _ _ _ Hup) in *. simpl in Hnd |- *.
      apply option_bind_some in Hex as (v & Hv & Hex).
      destruct (assign_correct env name e n s _ v Hup (program_first p) Hend Hag Hv)
        as (s1 & E1 & Hup1 & Hend1 & Hag1 & Hout1);
        [now apply bind_not_too_deep in Hnd|].
      rewrite (bind_ok _ _ _ _ _ E1) in *.
      destruct (IH _ n s1 vs Hup1 Hend1 Hag1 Hex Hnd) as (s' & E' & Hout).
      exists s'. split; [assumption|]. congruence.
    + rewrite !(la_is_upcoming _ _ _ _ _ Hup) in *. simpl in Hnd |- *.
      apply option_bind_some in Hex as (v & Hv & Hex).
      apply option_bind_some in Hex as (vs' & Hex & Hvs). injection Hvs as <-.
      destruct (print_correct env e n s _ v Hup (program_first p) Hend Hag Hv)
        as (s1 & E1 & Hup1 & Hend1 & Hag1 & Hout1);
        [now apply bind_not_too_deep in Hnd|].
      rewrite (bind_ok _ _ _ _ _ E1) in *.
      destruct (IH _ n s1 vs' Hup1 Hend1 Hag1 Hex Hnd) as (s' & E' & Hout).
      exists s'. split; [assumption|]. rewrite Hout, Hout1, <- app_assoc. reflexivity.
Qed.


(** A well-formed program has a reference value. *)
Lemma closed_evaluates known env :
  covers known env ->
  (forall e, expr_closed known e = true -> is_Some (eval_expr env e))
  /\ (forall xs, term_tail_closed known xs = true ->
                 forall a, is_Some (eval_term_tail env a xs))
  /\ (forall t, term_closed known t = true -> is_Some (eval_term env t))
  /\ (forall fs, factor_tail_closed known fs = true ->
                 forall a, is_Some (eval_factor_tail env a fs))
  /\ (forall f, factor_closed known f = true -> is_Some (eval_factor env f))
  /\ (forall os, operand_tail_closed known os = true ->
                 forall a, is_Some (eval_operand_tail env a os))
  /\ (forall o, operand_closed known o = true -> is_Some (eval_operand env o)).
Proof.
  intros Hcov. apply tree_mutind; simpl.
  - intros t IHt xs IHxs [Ht Hxs]%andb_prop.
    destruct (IHt Ht) as [a ->]. simpl. apply IHxs, Hxs.
  - eauto.
  - intros t IHt xs IHxs [Ht Hxs]%andb_prop a.
    destruct (IHt Ht) as [b ->]. simpl. apply IHxs, Hxs.
  - intros f IHf fs IHfs [Hf Hfs]%andb_prop.
    destruct (IHf Hf) as [a ->]. simpl. apply IHfs, Hfs.
  - eauto.
  - intros f IHf fs IHfs [Hf Hfs]%andb_prop a.
    destruct (IHf Hf) as [b ->]. simpl. apply IHfs, Hfs.
  - intros o IHo os IHos [Ho Hos]%andb_prop.
    destruct (IHo Ho) as [a ->]. simpl. apply IHos, Hos.
  - eauto.
  - intros o IHo os IHos [Ho Hos]%andb_prop a.
    destruct (IHo Ho) as [b ->]. simpl. apply IHos, Hos.
  - auto.
  - intros name Hin. apply bool_decide_eq_true in Hin. auto.
  - eauto.
Qed.

Lemma well_formed_executes p :
  forall known env, covers known env -> well_formed known p = true ->
    is_Some (exec env p).
Proof.
  induction p as [|[name e|e] p IH]; intros known env Hcov Hwf; simpl in *.
  - eauto.
  - apply andb_prop in Hwf as [He Hp].
    destruct (proj1 (closed_evaluates known env Hcov) e He) as [v ->]. simpl.
    apply (IH ({[name]} ∪ known)); [|assumption].
    intros x Hx. destruct (decide (x = name)) as [->|Hne].
    + rewrite lookup_insert_eq. eauto.
    + rewrite lookup_insert_ne by congruence. apply Hcov.
      apply elem_of_union in Hx as [Hx%elem_of_singleton|Hx]; [contradiction|assumption].
  - apply andb_prop in Hwf as [He Hp].
    destruct (proj1 (closed_evaluates known env Hcov) e He) as [v ->]. simpl.
    destruct (IH known env Hcov Hp) as [vs ->]. simpl. eauto.
Qed.

Lemma created_upcoming sc s :
  Plex.read sc = inl ((la s, val s), scanner s) ->
  upcoming s = lexemes sc /\ Plex.finish (scanner s) = Plex.finish sc.
Proof.
  unfold Plex.read, upcoming, lexemes.
  destruct (Plex.pending sc) as [|t r].
  - destruct (Plex.finish sc); [|discriminate].
    intros H. injection H as Hla Hval Hsc. rewrite <- Hla, <- Hsc. auto.
  - intros H. injection H as Hla Hval Hsc. rewrite <- Hla, <- Hval, <- Hsc. auto.
Qed.


Lemma parse_correct (p : list stmt_t) (sc : Plex.scanner) :
  well_formed ∅ p = true ->
  lexemes sc = program_tokens p ->
  ends_well sc ->
  exists vs s',
    exec ∅ p = Some vs
    /\ parse sc = Ok tt s'
    /\ out s' = map render vs
    /\ report (parse sc) = Finished (map render vs).
Proof.
  intros Hwf Hlex Hend.
  destruct (well_formed_executes p ∅ ∅) as [vs Hvs]; [|assumption|].
  { intros x Hx. apply elem_of_empty in Hx. contradiction. }
  exists vs.
  pose proof (RunnerTotal.parse_total sc) as Hnd.
  pose proof (RunnerTotal.create_scanner_post sc) as Hcs.
  unfold parse in *.
  destruct (create_scanner sc init) as [[] s0|e s0|] eqn:Ecs.
  - destruct Hcs as (_ & Hst & Hout & Hread).
    apply created_upcoming in Hread as [Hup Hfin].
    rewrite (bind_ok _ _ _ _ _ Ecs) in *.
    destruct (program_correct p ∅ (depth_for (length (Plex.pending sc))) s0 vs)
      as (s' & E' & Hout'); try assumption.
    + congruence.
    + destruct Hend as (l & c & Hend). exists l, c. congruence.
    + exists s'. rewrite E'. simpl. rewrite Hout', Hout. auto.
  - exfalso. destruct Hcs as (_ & _ & _ & Hread), Hend as (l & c & Hend).
    unfold Plex.read in Hread. destruct (Plex.pending sc); [|discriminate].
    rewrite Hend in Hread. discriminate.
  - contradiction.
Qed.

Lemma append_empty (t : string) : t +:+ "" = t.
Proof.
  induction t as [|c t IH]; [reflexivity|].
  change (String c (t +:+ "") = String c t). now rewrite IH.
Qed.

Lemma append_cons (t : string) c u : (t +:+ String c "") +:+ u = t +:+ String c u.
Proof.
  induction t as [|d t IH]; [reflexivity|].
  change (String d ((t +:+ String c "") +:+ u) = String d (t +:+ String c u)).
  now rewrite IH.
Qed.

Lemma bits_app p digits :
  all_bits digits = true ->
  exists q, binary_value (Npos p) digits = Npos q /\ bits q = bits p +:+ digits.
Proof.
  revert p. induction digits as [|c digits IH]; intros p Hd; simpl in *.
  - exists p. split; [reflexivity|]. now rewrite append_empty.
  - apply andb_prop in Hd as [Hc Hd]. unfold Plex.is_bit in Hc.
    destruct (Ascii.eqb_spec c "1") as [->|Hne].
    + destruct (IH (p~1)%positive Hd) as (q & -> & Hq). exists q. split; [reflexivity|].
      rewrite Hq. simpl. apply append_cons.
    + destruct (Ascii.eqb_spec c "0") as [->|Hne0]; [|discriminate].
      destruct (IH (p~0)%positive Hd) as (q & -> & Hq). exists q. split; [reflexivity|].
      rewrite Hq. simpl. apply append_cons.
Qed.

(** The text of the value of a binary literal is the literal without its
    leading zeros. *)
Lemma render_binary_value digits :
  binary_literal digits = true -> render (binary_value 0 digits) = minimal digits.
Proof.
  intros Hd. assert (Hb : all_bits digits = true) by (destruct digits; [discriminate|exact Hd]).
  clear Hd. unfold minimal. induction digits as [|c digits IH]; [reflexivity|].
  simpl in *. apply andb_prop in Hb as [Hc Hb]. unfold Plex.is_bit in Hc.
  destruct (Ascii.eqb_spec c "0") as [->|Hne0]; simpl.
  - apply IH, Hb.
  - destruct (Ascii.eqb_spec c "1") as [->|Hne1]; [|discriminate]. simpl.
    destruct (bits_app 1 digits Hb) as (q & -> & Hq). simpl. exact Hq.
Qed.

End RunnerCorrect.

(** ** The two engines accept the same token streams *)

Module Equivalence.

Lemma la_is_erase s t : Recognizer.la_is (erase s) t = Runner.la_is s t.
Proof. reflexivity. Qed.

Lemma la_in_erase s ts : Recognizer.la_in (erase s) ts = Runner.la_in s ts.
Proof. reflexivity. Qed.

Lemma la_none_erase s : Recognizer.la_none (erase s) = Runner.la_none s.
Proof. reflexivity. Qed.

Lemma simulates_bind {A B A' B'} (m : M Runner.state A) (f : A -> M Runner.state B)
    (m' : M Recognizer.state A') (f' : A' -> M Recognizer.state B') s :
  simulates (m s) (m' (erase s)) ->
  (forall a b s1, m s = Ok a s1 -> simulates (f a s1) (f' b (erase s1))) ->
  simulates ((m ≫= f) s) ((m' ≫= f') (erase s)).
Proof.
  unfold mbind, M_bind. intros Hm Hf.
  destruct (m s) as [a s1|[| | |] s1|]; simpl in *.
  - destruct Hm as [b ->]. now apply Hf.
  - now rewrite Hm.
  - destruct Hm as [perr ->]. eauto.
  - exact I.
  - exact I.
  - now rewrite Hm.
Qed.

(** What the evaluating engine does after the last token of a production,
    folding or building a tuple, consumes nothing. *)
Lemma simulates_then {A B B'} (m : M Runner.state A) (f : A -> M Runner.state B)
    (r' : result Recognizer.state B') s :
  simulates (m s) r' ->
  (forall a s1, m s = Ok a s1 -> exists b, f a s1 = Ok b s1) ->
  simulates ((m ≫= f) s) r'.
Proof.
  unfold mbind, M_bind. intros Hm Hf.
  destruct (m s) as [a s1|[| | |] s1|]; simpl in *; auto.
  destruct (Hf a s1 eq_refl) as [b ->]. exact Hm.
Qed.

(** The check that [operand] makes on an identifier returns the value or
    raises the [RuntimeError]. *)
Lemma simulates_check {A B B'} (m : M Runner.state A) (f : A -> M Runner.state B)
    (r' : result Recognizer.state B') s :
  simulates (m s) r' ->
  (forall a s1, m s = Ok a s1 ->
     (exists b, f a s1 = Ok b s1) \/ (exists var, f a s1 = Raise (Runner.undefined var) s1)) ->
  simulates ((m ≫= f) s) r'.
Proof.
  unfold mbind, M_bind. intros Hm Hf.
  destruct (m s) as [a s1|[| | |] s1|]; simpl in *; auto.
  destruct (Hf a s1 eq_refl) as [[b ->]|[var ->]]; [exact Hm|exact I].
Qed.

Lemma match_simulates token s :
  simulates (Runner.match_ token s) (Recognizer.match_ token (erase s)).
Proof.
  unfold Runner.match_, Recognizer.match_. rewrite la_is_erase.
  destruct (Runner.la_is s token).
  - assert (Hev : exists a, Runner.evaluate s = Ok a s).
    { unfold Runner.evaluate. repeat destruct (Runner.la_is s _); eauto. }
    destruct Hev as [a Hev]. rewrite (bind_ok _ _ _ _ _ Hev).
    unfold mbind, M_bind, Runner.next_token, Recognizer.next_token. simpl.
    destruct (Plex.read (Runner.scanner s)) as [[p sc]|sc]; simpl; eauto.
  - simpl. eauto.
Qed.

Lemma fold_returns op a b vs s :
  sentinel b vs -> exists v, Runner.fold_op op a (Runner.but_last b) s = Ok v s.
Proof.
  intros Hb. rewrite (RunnerFacts.but_last_sentinel _ _ Hb), RunnerFacts.fold_op_sentinel.
  eauto.
Qed.

Lemma tail_sentinel n s b s' :
  (Runner.term_tail n s = Ok b s' \/ Runner.factor_tail n s = Ok b s'
   \/ Runner.operand_tail n s = Ok b s') ->
  exists vs, sentinel b vs.
Proof.
  pose proof (RunnerFacts.engine_post n s) as (_ & _ & Htt & _ & Hft & _ & Hot).
  unfold tail_post in *.
  intros [H|[H|H]]; rewrite H in *; simpl in *; tauto.
Qed.

Ltac sim_match := apply simulates_bind; [apply match_simulates | intros ? ? ? _].
Ltac sim_call IH := apply simulates_bind; [apply IH | intros ? ? ? ?].
Ltac sim_fold IH :=
  apply simulates_then; [apply IH |];
  let H := fresh in
  intros ? ? H; destruct (tail_sentinel _ _ _ _ ltac:(eauto)) as [? ?];
  eapply fold_returns; eassumption.
Ltac sim_cons IH :=
  apply simulates_then; [apply IH | intros ? ? _; eexists; reflexivity].

Lemma engine_simulates n :
  forall s,
    simulates (Runner.expr n s) (Recognizer.expr n (erase s))
    /\ simulates (Runner.term n s) (Recognizer.term n (erase s))
    /\ simulates (Runner.term_tail n s) (Recognizer.term_tail n (erase s))
    /\ simulates (Runner.factor n s) (Recognizer.factor n (erase s))
    /\ simulates (Runner.factor_tail n s) (Recognizer.factor_tail n (erase s))
    /\ simulates (Runner.operand n s) (Recognizer.operand n (erase s))
    /\ simulates (Runner.operand_tail n s) (Recognizer.operand_tail n (erase s)).
Proof.
  induction n as [|n IH]; intros s.
  { repeat split. }
  assert (IHe := fun s => proj1 (IH s)).
  assert (IHt := fun s => proj1 (proj2 (IH s))).
  assert (IHtt := fun s => proj1 (proj2 (proj2 (IH s)))).
  assert (IHf := fun s => proj1 (proj2 (proj2 (proj2 (IH s))))).
  assert (IHft := fun s => proj1 (proj2 (proj2 (proj2 (proj2 (IH s)))))).
  assert (IHo := fun s => proj1 (proj2 (proj2 (proj2 (proj2 (proj2 (IH s))))))).
  assert (IHot := fun s => proj2 (proj2 (proj2 (proj2 (proj2 (proj2 (IH s))))))).
  clear IH.
  repeat split_and.
  - cbn [Runner.expr Recognizer.expr]. rewrite la_in_erase.
    destruct (Runner.la_in s _); [|simpl; eauto].
    sim_call IHt. sim_fold IHtt.
  - cbn [Runner.term Recognizer.term]. rewrite la_in_erase.
    destruct (Runner.la_in s _); [|simpl; eauto].
    sim_call IHf. sim_fold IHft.
  - cbn [Runner.term_tail Recognizer.term_tail]. rewrite la_is_erase, la_none_erase, la_in_erase.
    destruct (Runner.la_is s "xor").
    + sim_match. sim_call IHt. sim_cons IHtt.
    + destruct (_ || _); simpl; eauto.
  - cbn [Runner.factor Recognizer.factor]. rewrite la_in_erase.
    destruct (Runner.la_in s _); [|simpl; eauto].
    sim_call IHo. sim_fold IHot.
  - cbn [Runner.factor_tail Recognizer.factor_tail]. rewrite la_is_erase, la_none_erase, la_in_erase.
    destruct (Runner.la_is s "or").
    + sim_match. sim_call IHf. sim_cons IHft.
    + destruct (_ || _); simpl; eauto.
  - cbn [Runner.operand Recognizer.operand]. rewrite !la_is_erase.
    destruct (Runner.la_is s "id") eqn:Hid.
    { apply simulates_check; [apply match_simulates|].
      intros a s1 Hm. pose proof (RunnerFacts.match_post "id" s) as Hp.
      rewrite Hm in Hp. simpl in Hp. destruct Hp as (_ & Hla & Hev & _).
      rewrite (RunnerFacts.evaluate_id _ Hla) in Hev. injection Hev as <-.
      destruct (Runner.st s !! Runner.val s); simpl; eauto. }
    destruct (Runner.la_is s "binary") eqn:Hbin.
    { apply simulates_then; [apply match_simulates|].
      intros a s1 Hm. pose proof (RunnerFacts.match_post "binary" s) as Hp.
      rewrite Hm in Hp. simpl in Hp. destruct Hp as (_ & Hla & Hev & _).
      rewrite (RunnerFacts.evaluate_binary _ Hla) in Hev. injection Hev as <-.
      simpl. eauto. }
    destruct (Runner.la_is s "("); [|simpl; eauto].
    sim_match. sim_call IHe.
    apply simulates_then; [apply match_simulates|].
    intros ? ? _. eexists. reflexivity.
  - cbn [Runner.operand_tail Recognizer.operand_tail]. rewrite la_is_erase, la_none_erase, la_in_erase.
    destruct (Runner.la_is s "and").
    + sim_match. sim_call IHo. sim_cons IHot.
    + destruct (_ || _); simpl; eauto.
Qed.


(** What [stmt] does with the value, storing or printing it, is not seen by
    the recognizer. *)
Lemma simulates_effect {A B B'} (m : M Runner.state A) (f : A -> M Runner.state B)
    (r' : result Recognizer.state B') s :
  simulates (m s) r' ->
  (forall a s1, m s = Ok a s1 -> exists b s2, f a s1 = Ok b s2 /\ erase s2 = erase s1) ->
  simulates ((m ≫= f) s) r'.
Proof.
  unfold mbind, M_bind. intros Hm Hf.
  destruct (m s) as [a s1|[| | |] s1|]; simpl in *; auto.
  destruct (Hf a s1 eq_refl) as (b & s2 & -> & Hs). simpl. now rewrite Hs.
Qed.

Lemma expr_simulates n s : simulates (Runner.expr n s) (Recognizer.expr n (erase s)).
Proof. apply engine_simulates. Qed.

Lemma stmt_simulates n s : simulates (Runner.stmt n s) (Recognizer.stmt n (erase s)).
Proof.
  destruct n as [|n]; [reflexivity|].
  unfold Runner.stmt, Recognizer.stmt. rewrite !la_is_erase.
  destruct (Runner.la_is s "id").
  - sim_match. sim_match.
    apply simulates_effect; [apply expr_simulates|].
    intros ? ? _. do 2 eexists. split; reflexivity.
  - destruct (Runner.la_is s "print"); [|simpl; eauto].
    sim_match.
    apply simulates_effect; [apply expr_simulates|].
    intros ? ? _. do 2 eexists. split; reflexivity.
Qed.

Lemma stmt_list_simulates n :
  forall s, simulates (Runner.stmt_list n s) (Recognizer.stmt_list n (erase s)).
Proof.
  induction n as [|n IH]; intros s; [reflexivity|].
  cbn [Runner.stmt_list Recognizer.stmt_list]. rewrite !la_is_erase, la_none_erase.
  destruct (_ || _).
  - apply simulates_bind; [apply stmt_simulates|]. intros. apply IH.
  - destruct (Runner.la_none s); simpl; eauto.
Qed.

Lemma parse_simulates sc : simulates (Runner.parse sc) (Recognizer.parse sc).
Proof.
  unfold Runner.parse, Recognizer.parse.
  change Recognizer.init with (erase Runner.init).
  apply simulates_bind; [|intros; apply stmt_list_simulates].
  unfold Runner.create_scanner, Recognizer.create_scanner, mbind, M_bind,
    Runner.next_token, Recognizer.next_token. simpl.
  destruct (Plex.read sc) as [[p sc']|sc']; simpl; eauto.
Qed.

End Equivalence.

Lemma parse_post sc :
  post (Runner.parse sc) (fun _ s' => Runner.la s' = None)
                         (fun e s' => engine_exn e s').
Proof.
  unfold Runner.parse. pose proof (RunnerTotal.create_scanner_post sc) as Hcs.
  unfold mbind, M_bind.
  destruct (Runner.create_scanner sc Runner.init) as [[] s0|e s0|]; [| |exact I].
  - eapply post_weaken; [apply RunnerFacts.stmt_list_post| |]; cbv beta; tauto.
  - simpl. left. tauto.
Qed.

(** ** The recognizer: it always ends, and what it accepts *)

Module RecognizerFacts.
Import Recognizer.

Lemma settles_bind {A B} (m : M state A) (f : A -> M state B) (s : state) (Q' Q : state -> Prop) :
  settles (m s) Q' ->
  (forall a s', Q' s' -> settles (f a s') Q) ->
  settles ((m ≫= f) s) Q.
Proof.
  unfold mbind, M_bind. destruct (m s) as [a s'|[| | |] s'|]; simpl; auto.
Qed.

Lemma match_settles token s :
  settles (match_ token s) (fun s' => S (unread s') = unread s).
Proof.
  unfold match_. destruct (la_is s token) eqn:Hla; [|exact I].
  unfold la_is in Hla. destruct (la s) as [k|] eqn:Hk; [|discriminate].
  unfold mbind, M_bind, next_token, Plex.read, unread. rewrite Hk.
  destruct (Plex.pending (scanner s)) as [|t r]; simpl.
  - destruct (Plex.finish (scanner s)); simpl; auto.
  - reflexivity.
Qed.

Ltac through H :=
  eapply settles_bind; [eapply H; lia | cbv beta; intros ? ? ?].

Ltac last_call H :=
  let Hs := fresh in
  pose proof H as Hs; unfold advances, stays in Hs;
  match goal with
  | |- settles (?X ?n ?s) _ =>
      specialize (Hs s); first [specialize (Hs ltac:(lia) n ltac:(lia)) | specialize (Hs n ltac:(lia))];
      destruct (X n s) as [? ?|[| | |] ?|]; simpl in *; auto; lia
  end.

Lemma engine_settles k :
  forall s, unread s < k ->
    advances 4 expr s /\ advances 3 term s /\ stays 1 term_tail s
    /\ advances 2 factor s /\ stays 1 factor_tail s
    /\ advances 1 operand s /\ stays 1 operand_tail s.
Proof.
  induction k as [|k IH]; [intros s Hs; lia|].
  assert (IHe : forall s, unread s < k -> advances 4 expr s) by (intros; now apply IH).
  assert (IHt : forall s, unread s < k -> advances 3 term s) by (intros; now apply IH).
  assert (IHtt : forall s, unread s < k -> stays 1 term_tail s) by (intros; now apply IH).
  assert (IHf : forall s, unread s < k -> advances 2 factor s) by (intros; now apply IH).
  assert (IHft : forall s, unread s < k -> stays 1 factor_tail s) by (intros; now apply IH).
  assert (IHo : forall s, unread s < k -> advances 1 operand s) by (intros; now apply IH).
  assert (IHot : forall s, unread s < k -> stays 1 operand_tail s) by (intros; now apply IH).
  clear IH.
  assert (Ho : forall s, unread s < S k -> advances 1 operand s).
  { intros s Hs [|n] Hn; [lia|]. cbn [operand].
    destruct (la_is s "id").
    { pose proof (match_settles "id" s) as H.
      destruct (match_ "id" s) as [? ?|[| | |] ?|]; simpl in *; auto; lia. }
    destruct (la_is s "binary").
    { pose proof (match_settles "binary" s) as H.
      destruct (match_ "binary" s) as [? ?|[| | |] ?|]; simpl in *; auto; lia. }
    destruct (la_is s "("); [|exact I].
    through match_settles. through IHe.
    pose proof (match_settles ")" s'0) as H1.
    destruct (match_ ")" s'0) as [? ?|[| | |] ?|]; simpl in *; auto; lia. }
  assert (Hot : forall s, unread s < S k -> stays 1 operand_tail s).
  { intros s Hs [|n] Hn; [lia|]. cbn [operand_tail].
    destruct (la_is s "and").
    - through match_settles. through IHo. last_call IHot.
    - destruct (_ || _); simpl; auto. }
  assert (Hf : forall s, unread s < S k -> advances 2 factor s).
  { intros s Hs [|n] Hn; [lia|]. cbn [factor].
    destruct (la_in s _); [|exact I].
    through Ho. last_call IHot. }
  assert (Hft : forall s, unread s < S k -> stays 1 factor_tail s).
  { intros s Hs [|n] Hn; [lia|]. cbn [factor_tail].
    destruct (la_is s "or").
    - through match_settles. through IHf. last_call IHft.
    - destruct (_ || _); simpl; auto. }
  assert (Ht : forall s, unread s < S k -> advances 3 term s).
  { intros s Hs [|n] Hn; [lia|]. cbn [term].
    destruct (la_in s _); [|exact I].
    through Hf. last_call IHft. }
  assert (Htt : forall s, unread s < S k -> stays 1 term_tail s).
  { intros s Hs [|n] Hn; [lia|]. cbn [term_tail].
    destruct (la_is s "xor").
    - through match_settles. through IHt. last_call IHtt.
    - destruct (_ || _); simpl; auto. }
  intros s Hs. repeat split_and; auto.
  intros [|n] Hn; [lia|]. cbn [expr].
  destruct (la_in s _); [|exact I].
  through Ht. last_call IHtt.
Qed.


Lemma expr_settles s : advances 4 expr s.
Proof.
  apply (engine_settles (S (unread s))). lia.
Qed.

Lemma stmt_settles s : advances 5 stmt s.
Proof.
  intros [|n] Hn; [lia|]. unfold stmt.
  destruct (la_is s "id").
  - through match_settles. through match_settles.
    pose proof (expr_settles s'0 n) as H1.
    destruct (expr n s'0) as [? ?|[| | |] ?|]; simpl in *; auto; try (apply H1; lia).
    assert (unread s0 < unread s'0) by (apply H1; lia). lia.
  - destruct (la_is s "print"); [|exact I].
    through match_settles.
    pose proof (expr_settles s' n) as H1.
    destruct (expr n s') as [? ?|[| | |] ?|]; simpl in *; auto; try (apply H1; lia).
    assert (unread s0 < unread s') by (apply H1; lia). lia.
Qed.

Lemma stmt_list_settles n :
  forall s, 6 + 7 * unread s <= n -> settles (stmt_list n s) (fun s' => la s' = None).
Proof.
  induction n as [|n IH]; intros s Hn; [lia|].
  cbn [stmt_list]. destruct (_ || _).
  - through stmt_settles. apply IH. lia.
  - unfold la_none. destruct (la s) eqn:E; simpl; auto.
Qed.

(** [parse] of the recognizer ends: it returns at the end of the input, or
    raises the scanner's error or a [ParseError], and nothing else. *)
Lemma parse_settles sc : settles (parse sc) (fun s' => la s' = None).
Proof.
  unfold parse, create_scanner, mbind, M_bind, next_token, Plex.read, init.
  cbn -[stmt_list depth_for].
  destruct (Plex.pending sc) as [|t r] eqn:Hp; cbn -[stmt_list depth_for].
  - destruct (Plex.finish sc); cbn -[stmt_list depth_for]; [|exact I].
    apply stmt_list_settles. unfold unread, depth_for. simpl. lia.
  - apply stmt_list_settles. unfold unread, depth_for. simpl. lia.
Qed.


(** *** What the recognizer accepts is derived by the grammar *)

Lemma bind_ok_inv {S A B} (m : M S A) (f : A -> M S B) s b s' :
  (m ≫= f) s = Ok b s' -> exists a s1, m s = Ok a s1 /\ f a s1 = Ok b s'.
Proof.
  unfold mbind, M_bind. destruct (m s) as [a s1| |]; [eauto|discriminate|discriminate].
Qed.

Lemma la_is_some s token : la_is s token = true -> la s = Some token.
Proof.
  unfold la_is. destruct (la s) as [k|]; [|discriminate].
  intros H. apply String.eqb_eq in H. now subst.
Qed.

Lemma match_ahead token s b s' :
  match_ token s = Ok b s' -> ahead s = (token, val s) :: ahead s'.
Proof.
  unfold match_. destruct (la_is s token) eqn:Hla; [|discriminate].
  apply la_is_some in Hla.
  unfold mbind, M_bind, next_token, Plex.read, set_lookahead, ahead. rewrite Hla.
  destruct (Plex.pending (scanner s)) as [|t r].
  - destruct (Plex.finish (scanner s)); [|discriminate].
    intros [= _ <-]. reflexivity.
  - intros [= _ <-]. reflexivity.
Qed.

Lemma plain_text k v rest :
  Forall plain ((k, v) :: rest) -> k <> "id" -> k <> "binary" -> v = k.
Proof.
  intros H Hid Hbin. apply Forall_cons in H as [[H|[H|H]] _]; simpl in *; congruence.
Qed.

Lemma plain_rest ks rest : Forall plain (ks ++ rest) -> Forall plain rest.
Proof.
  intros H. now apply Forall_app in H as [_ H].
Qed.

Import Reference.

Lemma engine_derives n :
  forall s, Forall plain (ahead s) ->
    (forall b s', expr n s = Ok b s' -> exists e, ahead s = expr_tokens e ++ ahead s')
    /\ (forall b s', term n s = Ok b s' -> exists t, ahead s = term_tokens t ++ ahead s')
    /\ (forall b s', term_tail n s = Ok b s' ->
          exists xs, ahead s = term_tail_tokens xs ++ ahead s')
    /\ (forall b s', factor n s = Ok b s' -> exists f, ahead s = factor_tokens f ++ ahead s')
    /\ (forall b s', factor_tail n s = Ok b s' ->
          exists fs, ahead s = factor_tail_tokens fs ++ ahead s')
    /\ (forall b s', operand n s = Ok b s' ->
          exists o, ahead s = operand_tokens o ++ ahead s')
    /\ (forall b s', operand_tail n s = Ok b s' ->
          exists os, ahead s = operand_tail_tokens os ++ ahead s').
Proof.
  induction n as [|n IH]; intros s Hpl.
  { repeat split; intros; discriminate. }
  assert (IHe := fun s H => proj1 (IH s H)).
  assert (IHt := fun s H => proj1 (proj2 (IH s H))).
  assert (IHtt := fun s H => proj1 (proj2 (proj2 (IH s H)))).
  assert (IHf := fun s H => proj1 (proj2 (proj2 (proj2 (IH s H))))).
  assert (IHft := fun s H => proj1 (proj2 (proj2 (proj2 (proj2 (IH s H)))))).
  assert (IHo := fun s H => proj1 (proj2 (proj2 (proj2 (proj2 (proj2 (IH s H))))))).
  assert (IHot := fun s H => proj2 (proj2 (proj2 (proj2 (proj2 (proj2 (IH s H))))))).
  clear IH.
  repeat split_and; intros b s' H.
  - (* expr *)
    cbn [expr] in H. destruct (la_in s _); [|discriminate].
    apply bind_ok_inv in H as (? & s1 & H1 & H2).
    destruct (IHt _ Hpl _ _ H1) as [t Ht]. rewrite Ht in Hpl.
    destruct (IHtt _ (plain_rest _ _ Hpl) _ _ H2) as [xs Hxs].
    exists (Expr t xs). simpl. now rewrite Ht, Hxs, app_assoc.
  - (* term *)
    cbn [term] in H. destruct (la_in s _); [|discriminate].
    apply bind_ok_inv in H as (? & s1 & H1 & H2).
    destruct (IHf _ Hpl _ _ H1) as [f Hf]. rewrite Hf in Hpl.
    destruct (IHft _ (plain_rest _ _ Hpl) _ _ H2) as [fs Hfs].
    exists (Term f fs). simpl. now rewrite Hf, Hfs, app_assoc.
  - (* term_tail *)
    cbn [term_tail] in H. destruct (la_is s "xor").
    + apply bind_ok_inv in H as (? & s0 & H0 & H).
      apply bind_ok_inv in H as (? & s1 & H1 & H2).
      apply match_ahead in H0. rewrite H0 in Hpl.
      rewrite (plain_text _ _ _ Hpl) in H0 by discriminate.
      apply (plain_rest [_]) in Hpl.
      destruct (IHt _ Hpl _ _ H1) as [t Ht]. rewrite Ht in Hpl.
      destruct (IHtt _ (plain_rest _ _ Hpl) _ _ H2) as [xs Hxs].
      exists (Xor t xs). simpl. now rewrite H0, Ht, Hxs, app_assoc.
    + destruct (_ || _); [|discriminate]. injection H as _ <-. exists NoXor. reflexivity.
  - (* factor *)
    cbn [factor] in H. destruct (la_in s _); [|discriminate].
    apply bind_ok_inv in H as (? & s1 & H1 & H2).
    destruct (IHo _ Hpl _ _ H1) as [o Ho]. rewrite Ho in Hpl.
    destruct (IHot _ (plain_rest _ _ Hpl) _ _ H2) as [os Hos].
    exists (Factor o os). simpl. now rewrite Ho, Hos, app_assoc.
  - (* factor_tail *)
    cbn [factor_tail] in H. destruct (la_is s "or").
    + apply bind_ok_inv in H as (? & s0 & H0 & H).
      apply bind_ok_inv in H as (? & s1 & H1 & H2).
      apply match_ahead in H0. rewrite H0 in Hpl.
      rewrite (plain_text _ _ _ Hpl) in H0 by discriminate.
      apply (plain_rest [_]) in Hpl.
      destruct (IHf _ Hpl _ _ H1) as [f Hf]. rewrite Hf in Hpl.
      destruct (IHft _ (plain_rest _ _ Hpl) _ _ H2) as [fs Hfs].
      exists (Or f fs). simpl. now rewrite H0, Hf, Hfs, app_assoc.
    + destruct (_ || _); [|discriminate]. injection H as _ <-. exists NoOr. reflexivity.
  - (* operand *)
    cbn [operand] in H. destruct (la_is s "id").
    { apply match_ahead in H. exists (Id (val s)). exact H. }
    destruct (la_is s "binary").
    { apply match_ahead in H. exists (Binary (val s)). exact H. }
    destruct (la_is s "("); [|discriminate].
    apply bind_ok_inv in H as (? & s0 & H0 & H).
    apply bind_ok_inv in H as (? & s1 & H1 & H2).
    apply match_ahead in H0. rewrite H0 in Hpl.
    rewrite (plain_text _ _ _ Hpl) in H0 by discriminate.
    apply (plain_rest [_]) in Hpl.
    destruct (IHe _ Hpl _ _ H1) as [e He]. rewrite He in Hpl.
    apply plain_rest in Hpl.
    apply match_ahead in H2. rewrite H2 in Hpl.
    rewrite (plain_text _ _ _ Hpl) in H2 by discriminate.
    exists (Paren e). simpl. rewrite H0, He, H2, <- app_assoc. reflexivity.
  - (* operand_tail *)
    cbn [operand_tail] in H. destruct (la_is s "and").
    + apply bind_ok_inv in H as (? & s0 & H0 & H).
      apply bind_ok_inv in H as (? & s1 & H1 & H2).
      apply match_ahead in H0. rewrite H0 in Hpl.
      rewrite (plain_text _ _ _ Hpl) in H0 by discriminate.
      apply (plain_rest [_]) in Hpl.
      destruct (IHo _ Hpl _ _ H1) as [o Ho]. rewrite Ho in Hpl.
      destruct (IHot _ (plain_rest _ _ Hpl) _ _ H2) as [os Hos].
      exists (And o os). simpl. now rewrite H0, Ho, Hos, app_assoc.
    + destruct (_ || _); [|discriminate]. injection H as _ <-. exists NoAnd. reflexivity.
Qed.


Lemma expr_derives n s b s' :
  Forall plain (ahead s) -> expr n s = Ok b s' ->
  exists e, ahead s = expr_tokens e ++ ahead s'.
Proof.
  intros Hpl. now apply engine_derives.
Qed.

Lemma stmt_derives n s b s' :
  Forall plain (ahead s) -> stmt n s = Ok b s' ->
  exists c, ahead s = stmt_tokens c ++ ahead s'.
Proof.
  intros Hpl H. destruct n as [|n]; [discriminate|]. unfold stmt in H.
  destruct (la_is s "id").
  - apply bind_ok_inv in H as (? & s0 & H0 & H).
    apply bind_ok_inv in H as (? & s1 & H1 & H2).
    apply match_ahead in H0. rewrite H0 in Hpl. apply (plain_rest [_]) in Hpl.
    apply match_ahead in H1. rewrite H1 in Hpl.
    rewrite (plain_text _ _ _ Hpl) in H1 by discriminate.
    apply (plain_rest [_]) in Hpl.
    destruct (expr_derives _ _ _ _ Hpl H2) as [e He].
    exists (Assign (val s) e). simpl. now rewrite H0, H1, He.
  - destruct (la_is s "print"); [|discriminate].
    apply bind_ok_inv in H as (? & s0 & H0 & H1).
    apply match_ahead in H0. rewrite H0 in Hpl.
    rewrite (plain_text _ _ _ Hpl) in H0 by discriminate.
    apply (plain_rest [_]) in Hpl.
    destruct (expr_derives _ _ _ _ Hpl H1) as [e He].
    exists (Print e). simpl. now rewrite H0, He.
Qed.

Lemma stmt_list_derives n :
  forall s b s', Forall plain (ahead s) -> stmt_list n s = Ok b s' ->
    exists p, ahead s = program_tokens p.
Proof.
  induction n as [|n IH]; intros s b s' Hpl H; [discriminate|].
  cbn [stmt_list] in H. destruct (_ || _).
  - apply bind_ok_inv in H as (? & s1 & H1 & H2).
    destruct (stmt_derives _ _ _ _ Hpl H1) as [c Hc]. rewrite Hc in Hpl.
    destruct (IH _ _ _ (plain_rest _ _ Hpl) H2) as [p Hp].
    exists (c :: p). unfold program_tokens in *. simpl. now rewrite Hc, Hp.
  - unfold la_none in H. destruct (la s) eqn:Hla; [discriminate|].
    exists []. unfold ahead. now rewrite Hla.
Qed.

Lemma created_ahead sc b s :
  create_scanner sc init = Ok b s ->
  ahead s = map (fun t => (Plex.tk_la t, Plex.tk_val t)) (Plex.pending sc)
  /\ Plex.finish (scanner s) = Plex.finish sc
  /\ exists line col, Plex.finish sc = Plex.EndOfFile line col \/ Plex.pending sc <> [].
Proof.
  unfold create_scanner, mbind, M_bind, next_token, Plex.read, set_lookahead, init, ahead.
  simpl. destruct (Plex.pending sc) as [|t r].
  - destruct (Plex.finish sc) as [l c|l c]; [|discriminate].
    intros [= _ <-]. simpl. repeat split. exists l, c. now left.
  - intros [= _ <-]. simpl. repeat split. exists 0, 0. now right.
Qed.


(** A property of recognizer objects that every successful [match] keeps is
    kept by every procedure that returns. *)
Section Kept.
Variable I : state -> Prop.
Hypothesis match_keeps : forall token s a s', I s -> match_ token s = Ok a s' -> I s'.

Ltac kept_by IH Hs H :=
  let H1 := fresh "H" in
  let s1 := fresh "s" in
  apply bind_ok_inv in H as (? & s1 & H1 & H);
  first [ apply (match_keeps _ _ _ _ Hs) in H1 | apply (IH _ Hs) in H1 ];
  clear Hs; rename H1 into Hs.

Lemma engine_keeps n :
  forall s, I s ->
    (forall b s', expr n s = Ok b s' -> I s')
    /\ (forall b s', term n s = Ok b s' -> I s')
    /\ (forall b s', term_tail n s = Ok b s' -> I s')
    /\ (forall b s', factor n s = Ok b s' -> I s')
    /\ (forall b s', factor_tail n s = Ok b s' -> I s')
    /\ (forall b s', operand n s = Ok b s' -> I s')
    /\ (forall b s', operand_tail n s = Ok b s' -> I s').
Proof.
  induction n as [|n IH]; intros s Hs.
  { repeat split; intros; discriminate. }
  assert (IHe := fun s H => proj1 (IH s H)).
  assert (IHt := fun s H => proj1 (proj2 (IH s H))).
  assert (IHtt := fun s H => proj1 (proj2 (proj2 (IH s H)))).
  assert (IHf := fun s H => proj1 (proj2 (proj2 (proj2 (IH s H))))).
  assert (IHft := fun s H => proj1 (proj2 (proj2 (proj2 (proj2 (IH s H)))))).
  assert (IHo := fun s H => proj1 (proj2 (proj2 (proj2 (proj2 (proj2 (IH s H))))))).
  assert (IHot := fun s H => proj2 (proj2 (proj2 (proj2 (proj2 (proj2 (IH s H))))))).
  clear IH.
  repeat split_and; intros b s' H.
  - cbn [expr] in H. destruct (la_in s _); [|discriminate].
    kept_by IHt Hs H. exact (IHtt _ Hs _ _ H).
  - cbn [term] in H. destruct (la_in s _); [|discriminate].
    kept_by IHf Hs H. exact (IHft _ Hs _ _ H).
  - cbn [term_tail] in H. destruct (la_is s "xor").
    + kept_by IHt Hs H. kept_by IHt Hs H. exact (IHtt _ Hs _ _ H).
    + destruct (_ || _); [|discriminate]. injection H as _ <-. exact Hs.
  - cbn [factor] in H. destruct (la_in s _); [|discriminate].
    kept_by IHo Hs H. exact (IHot _ Hs _ _ H).
  - cbn [factor_tail] in H. destruct (la_is s "or").
    + kept_by IHf Hs H. kept_by IHf Hs H. exact (IHft _ Hs _ _ H).
    + destruct (_ || _); [|discriminate]. injection H as _ <-. exact Hs.
  - cbn [operand] in H. destruct (la_is s "id"); [exact (match_keeps _ _ _ _ Hs H)|].
    destruct (la_is s "binary"); [exact (match_keeps _ _ _ _ Hs H)|].
    destruct (la_is s "("); [|discriminate].
    kept_by IHe Hs H. kept_by IHe Hs H. exact (match_keeps _ _ _ _ Hs H).
  - cbn [operand_tail] in H. destruct (la_is s "and").
    + kept_by IHo Hs H. kept_by IHo Hs H. exact (IHot _ Hs _ _ H).
    + destruct (_ || _); [|discriminate]. injection H as _ <-. exact Hs.
Qed.

Lemma stmt_keeps n s b s' : I s -> stmt n s = Ok b s' -> I s'.
Proof.
  intros Hs H. destruct n as [|n]; [discriminate|]. unfold stmt in H.
  destruct (la_is s "id").
  - apply bind_ok_inv in H as (? & s0 & H0 & H).
    apply bind_ok_inv in H as (? & s1 & H1 & H2).
    apply (match_keeps _ _ _ _ Hs) in H0. apply (match_keeps _ _ _ _ H0) in H1.
    exact (proj1 (engine_keeps n s1 H1) _ _ H2).
  - destruct (la_is s "print"); [|discriminate].
    apply bind_ok_inv in H as (? & s0 & H0 & H1).
    apply (match_keeps _ _ _ _ Hs) in H0.
    exact (proj1 (engine_keeps n s0 H0) _ _ H1).
Qed.

Lemma stmt_list_keeps n : forall s b s', I s -> stmt_list n s = Ok b s' -> I s'.
Proof.
  induction n as [|n IH]; intros s b s' Hs H; [discriminate|].
  cbn [stmt_list] in H. destruct (_ || _).
  - apply bind_ok_inv in H as (? & s1 & H1 & H2).
    apply (stmt_keeps _ _ _ _ Hs) in H1. exact (IH _ _ _ H1 H2).
  - destruct (la_none s); [|discriminate]. injection H as _ <-. exact Hs.
Qed.

End Kept.

Lemma next_token_end s p s' :
  next_token s = Ok p s' ->
  Plex.finish (scanner s') = Plex.finish (scanner s)
  /\ (fst p = None -> ends_well (scanner s)).
Proof.
  unfold next_token, Plex.read.
  destruct (Plex.pending (scanner s)) as [|t r].
  - destruct (Plex.finish (scanner s)) as [l c|l c] eqn:Hf; [|discriminate].
    intros [= <- <-]. split; [reflexivity|]. intros _. exists l, c. exact Hf.
  - intros [= <- <-]. split; [reflexivity|]. discriminate.
Qed.

Lemma match_keeps_end sc token s a s' :
  (Plex.finish (scanner s) = Plex.finish sc /\ (la s = None -> ends_well sc)) ->
  match_ token s = Ok a s' ->
  Plex.finish (scanner s') = Plex.finish sc /\ (la s' = None -> ends_well sc).
Proof.
  intros [Hf _]. unfold match_. destruct (la_is s token); [|discriminate].
  intros H. apply bind_ok_inv in H as (p & s1 & H1 & H2).
  apply next_token_end in H1 as [Hf1 Hend].
  unfold set_lookahead in H2. injection H2 as _ <-. simpl.
  split; [congruence|]. intros Hn. destruct (Hend Hn) as (l & c & E).
  exists l, c. congruence.
Qed.

Lemma created_end sc b s :
  create_scanner sc init = Ok b s ->
  Plex.finish (scanner s) = Plex.finish sc /\ (la s = None -> ends_well sc).
Proof.
  unfold create_scanner. intros H.
  apply bind_ok_inv in H as ([] & s0 & H0 & H). injection H0 as <-.
  apply bind_ok_inv in H as (p & s1 & H1 & H2).
  apply next_token_end in H1 as [Hf1 Hend].
  unfold set_lookahead in H2. injection H2 as _ <-. simpl in *.
  split; [exact Hf1|exact Hend].
Qed.

(** A stream the recognizer accepts ends without a lexical error and is the
    token list of a program of the grammar. *)
Lemma parse_derives sc b s' :
  Forall plain_token (Plex.pending sc) -> parse sc = Ok b s' ->
  ends_well sc /\ exists p, lexemes sc = program_tokens p.
Proof.
  intros Hpl H. pose proof (parse_settles sc) as Hset. rewrite H in Hset. simpl in Hset.
  unfold parse in H. apply bind_ok_inv in H as (? & s0 & H0 & H1).
  pose proof (created_ahead _ _ _ H0) as (Hah & _).
  assert (Hpl0 : Forall plain (ahead s0)).
  { rewrite Hah. apply Forall_map. exact Hpl. }
  split.
  - apply (stmt_list_keeps _ (match_keeps_end sc) _ _ _ _ (created_end _ _ _ H0) H1).
    exact Hset.
  - destruct (stmt_list_derives _ _ _ _ Hpl0 H1) as [p Hp].
    exists p. unfold lexemes. congruence.
Qed.


(** *** What the grammar derives, the recognizer accepts *)

Lemma la_ahead s : la s = first_kind (ahead s).
Proof.
  unfold ahead. destruct (la s); reflexivity.
Qed.

Lemma la_is_ahead s k v rest t : ahead s = (k, v) :: rest -> la_is s t = String.eqb k t.
Proof.
  intros H. unfold la_is. rewrite la_ahead, H. reflexivity.
Qed.

Lemma match_reads token v rest s :
  ahead s = (token, v) :: rest -> ends_well (scanner s) ->
  exists s', match_ token s = Ok tt s' /\ ahead s' = rest
             /\ Plex.finish (scanner s') = Plex.finish (scanner s).
Proof.
  intros Hup (l & c & Hend). unfold match_. rewrite (la_is_ahead _ _ _ _ _ Hup), String.eqb_refl.
  unfold ahead in Hup. destruct (la s) as [k|]; [|discriminate].
  injection Hup as _ _ Hrest.
  unfold mbind, M_bind, next_token, Plex.read, set_lookahead.
  destruct (Plex.pending (scanner s)) as [|t r].
  - rewrite Hend. eexists. split; [reflexivity|]. subst rest. split; reflexivity.
  - eexists. split; [reflexivity|]. subst rest. split; reflexivity.
Qed.

Lemma follow_taken s kinds :
  in_follow kinds (la s) -> la_none s || la_in s kinds = true.
Proof.
  unfold in_follow, la_none, la_in. destruct (la s) as [t|] eqn:Hla; [|reflexivity].
  intros Hin. simpl. apply existsb_exists. exists t. split; [assumption|].
  unfold la_is. rewrite Hla. apply String.eqb_refl.
Qed.

Lemma follow_not s kinds t : in_follow kinds (la s) -> ~ In t kinds -> la_is s t = false.
Proof.
  unfold in_follow, la_is. destruct (la s) as [t'|]; [|reflexivity].
  intros Hin Hnot. destruct (String.eqb_spec t' t); [subst; contradiction|reflexivity].
Qed.

Lemma first_la_in s ks rest :
  ahead s = ks ++ rest -> starts ks -> la_in s ["id"; "binary"; "("] = true.
Proof.
  intros Hup (k & v & tl & -> & Hin). rewrite <- app_comm_cons in Hup.
  pose proof (la_ahead s) as Hla. rewrite Hup in Hla. simpl in Hla.
  unfold la_in. apply existsb_exists. exists k. split; [assumption|].
  unfold la_is. rewrite Hla. apply String.eqb_refl.
Qed.

Lemma follow_here s rest kinds :
  ahead s = rest -> in_follow kinds (first_kind rest) -> in_follow kinds (la s).
Proof.
  intros <-. now rewrite la_ahead.
Qed.

Lemma ends_kept s s' :
  Plex.finish (scanner s') = Plex.finish (scanner s) -> ends_well (scanner s) ->
  ends_well (scanner s').
Proof.
  intros H (l & c & E). exists l, c. congruence.
Qed.

Ltac in_list := simpl; intuition discriminate.

Ltac incl_list :=
  let x := fresh in intros x; simpl; intuition.

Lemma trees_accepted :
  (forall e, accepts_tokens expr (expr_tokens e) [")"; "id"; "print"])
  /\ (forall xs, accepts_tokens term_tail (term_tail_tokens xs) [")"; "id"; "print"])
  /\ (forall t, accepts_tokens term (term_tokens t) [")"; "xor"; "id"; "print"])
  /\ (forall fs, accepts_tokens factor_tail (factor_tail_tokens fs) [")"; "xor"; "id"; "print"])
  /\ (forall f, accepts_tokens factor (factor_tokens f) [")"; "xor"; "or"; "id"; "print"])
  /\ (forall os, accepts_tokens operand_tail (operand_tail_tokens os)
                   [")"; "xor"; "or"; "id"; "print"])
  /\ (forall o, accepts_tokens operand (operand_tokens o)
                  [")"; "and"; "xor"; "or"; "id"; "print"]).
Proof.
  apply tree_mutind.
  - (* Expr *)
    intros t IHt xs IHxs [|n] s rest Hup Hend Hfol Hnd; [contradiction|].
    cbn [expr] in *. simpl in Hup.
    rewrite (first_la_in s _ rest Hup) in * by apply (RunnerCorrect.expr_starts (Expr t xs)).
    rewrite <- app_assoc in Hup.
    destruct (IHt n s _ Hup Hend) as (s1 & E1 & Hup1 & Hf1);
      [destruct xs; simpl; [eapply RunnerCorrect.in_follow_incl; [|exact Hfol]; incl_list|tauto]
      |now apply RunnerCorrect.bind_not_too_deep in Hnd|].
    rewrite (bind_ok _ _ _ _ _ E1) in *.
    destruct (IHxs n s1 rest Hup1) as (s2 & E2 & Hup2 & Hf2);
      [eapply ends_kept; eassumption|assumption|assumption|].
    exists s2. split; [assumption|]. split; [assumption|congruence].
  - (* NoXor *)
    intros [|n] s rest Hup Hend Hfol Hnd; [contradiction|].
    cbn [term_tail] in *. simpl in Hup.
    pose proof (follow_here _ _ _ Hup Hfol) as Hla.
    rewrite (follow_not s _ "xor" Hla) by in_list.
    rewrite (follow_taken s _ Hla).
    exists s. auto.
  - (* Xor *)
    intros t IHt xs IHxs [|n] s rest Hup Hend Hfol Hnd; [contradiction|].
    cbn [term_tail] in *. simpl in Hup.
    rewrite (la_is_ahead _ _ _ _ "xor" Hup) in *. simpl in Hnd |- *.
    destruct (match_reads _ _ _ _ Hup Hend) as (s0 & E0 & Hup0 & Hf0).
    rewrite (bind_ok _ _ _ _ _ E0) in *.
    rewrite <- app_assoc in Hup0.
    destruct (IHt n s0 _ Hup0) as (s1 & E1 & Hup1 & Hf1);
      [eapply ends_kept; eassumption
      |destruct xs; simpl; [eapply RunnerCorrect.in_follow_incl; [|exact Hfol]; incl_list|tauto]
      |now apply RunnerCorrect.bind_not_too_deep in Hnd|].
    rewrite (bind_ok _ _ _ _ _ E1) in *.
    assert (Hf01 : Plex.finish (scanner s1) = Plex.finish (scanner s)) by congruence.
    destruct (IHxs n s1 rest Hup1) as (s2 & E2 & Hup2 & Hf2);
      [eapply ends_kept; eassumption|assumption|assumption|].
    exists s2. split; [assumption|]. split; [assumption|congruence].
  - (* Term *)
    intros f IHf fs IHfs [|n] s rest Hup Hend Hfol Hnd; [contradiction|].
    cbn [term] in *. simpl in Hup.
    rewrite (first_la_in s _ rest Hup) in * by apply (RunnerCorrect.term_starts (Term f fs)).
    rewrite <- app_assoc in Hup.
    destruct (IHf n s _ Hup Hend) as (s1 & E1 & Hup1 & Hf1);
      [destruct fs; simpl; [eapply RunnerCorrect.in_follow_incl; [|exact Hfol]; incl_list|tauto]
      |now apply RunnerCorrect.bind_not_too_deep in Hnd|].
    rewrite (bind_ok _ _ _ _ _ E1) in *.
    destruct (IHfs n s1 rest Hup1) as (s2 & E2 & Hup2 & Hf2);
      [eapply ends_kept; eassumption|assumption|assumption|].
    exists s2. split; [assumption|]. split; [assumption|congruence].
  - (* NoOr *)
    intros [|n] s rest Hup Hend Hfol Hnd; [contradiction|].
    cbn [factor_tail] in *. simpl in Hup.
    pose proof (follow_here _ _ _ Hup Hfol) as Hla.
    rewrite (follow_not s _ "or" Hla) by in_list.
    rewrite (follow_taken s _ Hla).
    exists s. auto.
  - (* Or *)
    intros f IHf fs IHfs [|n] s rest Hup Hend Hfol Hnd; [contradiction|].
    cbn [factor_tail] in *. simpl in Hup.
    rewrite (la_is_ahead _ _ _ _ "or" Hup) in *. simpl in Hnd |- *.
    destruct (match_reads _ _ _ _ Hup Hend) as (s0 & E0 & Hup0 & Hf0).
    rewrite (bind_ok _ _ _ _ _ E0) in *.
    rewrite <- app_assoc in Hup0.
    destruct (IHf n s0 _ Hup0) as (s1 & E1 & Hup1 & Hf1);
      [eapply ends_kept; eassumption
      |destruct fs; simpl; [eapply RunnerCorrect.in_follow_incl; [|exact Hfol]; incl_list|tauto]
      |now apply RunnerCorrect.bind_not_too_deep in Hnd|].
    rewrite (bind_ok _ _ _ _ _ E1) in *.
    assert (Hf01 : Plex.finish (scanner s1) = Plex.finish (scanner s)) by congruence.
    destruct (IHfs n s1 rest Hup1) as (s2 & E2 & Hup2 & Hf2);
      [eapply ends_kept; eassumption|assumption|assumption|].
    exists s2. split; [assumption|]. split; [assumption|congruence].
  - (* Factor *)
    intros o IHo os IHos [|n] s rest Hup Hend Hfol Hnd; [contradiction|].
    cbn [factor] in *. simpl in Hup.
    rewrite (first_la_in s _ rest Hup) in * by apply (RunnerCorrect.factor_starts (Factor o os)).
    rewrite <- app_assoc in Hup.
    destruct (IHo n s _ Hup Hend) as (s1 & E1 & Hup1 & Hf1);
      [destruct os; simpl; [eapply RunnerCorrect.in_follow_incl; [|exact Hfol]; incl_list|tauto]
      |now apply RunnerCorrect.bind_not_too_deep in Hnd|].
    rewrite (bind_ok _ _ _ _ _ E1) in *.
    destruct (IHos n s1 rest Hup1) as (s2 & E2 & Hup2 & Hf2);
      [eapply ends_kept; eassumption|assumption|assumption|].
    exists s2. split; [assumption|]. split; [assumption|congruence].
  - (* NoAnd *)
    intros [|n] s rest Hup Hend Hfol Hnd; [contradiction|].
    cbn [operand_tail] in *. simpl in Hup.
    pose proof (follow_here _ _ _ Hup Hfol) as Hla.
    rewrite (follow_not s _ "and" Hla) by in_list.
    rewrite (follow_taken s _ Hla).
    exists s. auto.
  - (* And *)
    intros o IHo os IHos [|n] s rest Hup Hend Hfol Hnd; [contradiction|].
    cbn [operand_tail] in *. simpl in Hup.
    rewrite (la_is_ahead _ _ _ _ "and" Hup) in *. simpl in Hnd |- *.
    destruct (match_reads _ _ _ _ Hup Hend) as (s0 & E0 & Hup0 & Hf0).
    rewrite (bind_ok _ _ _ _ _ E0) in *.
    rewrite <- app_assoc in Hup0.
    destruct (IHo n s0 _ Hup0) as (s1 & E1 & Hup1 & Hf1);
      [eapply ends_kept; eassumption
      |destruct os; simpl; [eapply RunnerCorrect.in_follow_incl; [|exact Hfol]; incl_list|tauto]
      |now apply RunnerCorrect.bind_not_too_deep in Hnd|].
    rewrite (bind_ok _ _ _ _ _ E1) in *.
    assert (Hf01 : Plex.finish (scanner s1) = Plex.finish (scanner s)) by congruence.
    destruct (IHos n s1 rest Hup1) as (s2 & E2 & Hup2 & Hf2);
      [eapply ends_kept; eassumption|assumption|assumption|].
    exists s2. split; [assumption|]. split; [assumption|congruence].
  - (* Paren *)
    intros e IHe [|n] s rest Hup Hend Hfol Hnd; [contradiction|].
    cbn [operand] in *. simpl in Hup.
    rewrite !(la_is_ahead _ _ _ _ _ Hup) in *. simpl in Hnd |- *.
    destruct (match_reads _ _ _ _ Hup Hend) as (s0 & E0 & Hup0 & Hf0).
    rewrite (bind_ok _ _ _ _ _ E0) in *.
    rewrite <- app_assoc in Hup0.
    destruct (IHe n s0 _ Hup0) as (s1 & E1 & Hup1 & Hf1);
      [eapply ends_kept; eassumption|simpl; tauto
      |now apply RunnerCorrect.bind_not_too_deep in Hnd|].
    rewrite (bind_ok _ _ _ _ _ E1) in *.
    assert (Hf01 : Plex.finish (scanner s1) = Plex.finish (scanner s)) by congruence.
    destruct (match_reads _ _ _ _ Hup1) as (s2 & E2 & Hup2 & Hf2);
      [eapply ends_kept; eassumption|].
    exists s2. split; [assumption|]. split; [assumption|congruence].
  - (* Id *)
    intros name [|n] s rest Hup Hend Hfol Hnd; [contradiction|].
    cbn [operand] in *. simpl in Hup.
    rewrite !(la_is_ahead _ _ _ _ _ Hup) in *. simpl.
    exact (match_reads _ _ _ _ Hup Hend).
  - (* Binary *)
    intros digits [|n] s rest Hup Hend Hfol Hnd; [contradiction|].
    cbn [operand] in *. simpl in Hup.
    rewrite !(la_is_ahead _ _ _ _ _ Hup) in *. simpl.
    exact (match_reads _ _ _ _ Hup Hend).
Qed.


Lemma expr_accepted e : accepts_tokens expr (expr_tokens e) [")"; "id"; "print"].
Proof. apply trees_accepted. Qed.

Lemma stmt_accepted c n s rest :
  ahead s = stmt_tokens c ++ rest -> ends_well (scanner s) ->
  in_follow [")"; "id"; "print"] (first_kind rest) ->
  stmt n s <> TooDeep ->
  exists s', stmt n s = Ok tt s' /\ ahead s' = rest
             /\ Plex.finish (scanner s') = Plex.finish (scanner s).
Proof.
  intros Hup Hend Hfol Hnd. destruct n as [|n]; [contradiction|].
  unfold stmt in *. destruct c as [name e|e]; simpl in Hup;
    rewrite !(la_is_ahead _ _ _ _ _ Hup) in *; simpl in Hnd |- *.
  - destruct (match_reads _ _ _ _ Hup Hend) as (s0 & E0 & Hup0 & Hf0).
    rewrite (bind_ok _ _ _ _ _ E0) in *.
    destruct (match_reads _ _ _ _ Hup0) as (s1 & E1 & Hup1 & Hf1);
      [eapply ends_kept; eassumption|].
    rewrite (bind_ok _ _ _ _ _ E1) in *.
    assert (Hf01 : Plex.finish (scanner s1) = Plex.finish (scanner s)) by congruence.
    destruct (expr_accepted e n s1 rest Hup1) as (s2 & E2 & Hup2 & Hf2);
      [eapply ends_kept; eassumption|assumption|assumption|].
    exists s2. split; [assumption|]. split; [assumption|congruence].
  - destruct (match_reads _ _ _ _ Hup Hend) as (s0 & E0 & Hup0 & Hf0).
    rewrite (bind_ok _ _ _ _ _ E0) in *.
    destruct (expr_accepted e n s0 rest Hup0) as (s2 & E2 & Hup2 & Hf2);
      [eapply ends_kept; eassumption|assumption|assumption|].
    exists s2. split; [assumption|]. split; [assumption|congruence].
Qed.

Lemma program_accepted p :
  forall n s, ahead s = program_tokens p -> ends_well (scanner s) ->
    stmt_list n s <> TooDeep -> exists s', stmt_list n s = Ok tt s'.
Proof.
  induction p as [|c p IH]; intros [|n] s Hup Hend Hnd; try contradiction.
  - cbn [stmt_list]. assert (Hla : la s = None) by (rewrite la_ahead, Hup; reflexivity).
    unfold la_is, la_none. rewrite Hla. simpl. eauto.
  - unfold program_tokens in Hup. simpl in Hup. fold (program_tokens p) in Hup.
    cbn [stmt_list] in *.
    assert (Hfirst : la_is s "id" || la_is s "print" = true).
    { destruct c; simpl in Hup; rewrite !(la_is_ahead _ _ _ _ _ Hup); reflexivity. }
    rewrite Hfirst in *.
    destruct (stmt_accepted c n s _ Hup Hend (RunnerCorrect.program_first p))
      as (s1 & E1 & Hup1 & Hf1); [now apply RunnerCorrect.bind_not_too_deep in Hnd|].
    rewrite (bind_ok _ _ _ _ _ E1) in *.
    apply (IH n s1 Hup1); [eapply ends_kept; eassumption|assumption].
Qed.

(** The recognizer accepts the token list of every program of the grammar,
    whatever its identifiers and literals. *)
Lemma parse_accepts p sc :
  lexemes sc = program_tokens p -> ends_well sc -> exists s', parse sc = Ok tt s'.
Proof.
  intros Hlex Hend. pose proof (parse_settles sc) as Hset. unfold parse in *.
  destruct (create_scanner sc init) as [[] s0|e s0|] eqn:Ecs.
  - pose proof (created_ahead _ _ _ Ecs) as (Hah & Hfin & _).
    rewrite (bind_ok _ _ _ _ _ Ecs) in *.
    apply (program_accepted p).
    + unfold lexemes in Hlex. congruence.
    + destruct Hend as (l & c & Hend). exists l, c. congruence.
    + intros E. rewrite E in Hset. exact Hset.
  - exfalso. revert Ecs. destruct Hend as (l & c & Hend).
    unfold create_scanner, mbind, M_bind, next_token, Plex.read, init. simpl.
    destruct (Plex.pending sc); [rewrite Hend|]; discriminate.
  - rewrite (bind_too_deep _ _ _ Ecs) in Hset. contradiction.
Qed.

End RecognizerFacts.

(** ** The messages of the two engines *)

Module Messages.

Lemma mirrors_bind {A B A' B'} (m : M Runner.state A) (f : A -> M Runner.state B)
    (m' : M Recognizer.state A') (f' : A' -> M Recognizer.state B') s :
  mirrors (m s) (m' (erase s)) ->
  (forall a b s1, m s = Ok a s1 -> mirrors (f a s1) (f' b (erase s1))) ->
  mirrors ((m ≫= f) s) ((m' ≫= f') (erase s)).
Proof.
  unfold mbind, M_bind. intros Hm Hf.
  destruct (m s) as [a s1|[| | |] s1|]; simpl in *.
  - destruct Hm as [b ->]. now apply Hf.
  - now rewrite Hm.
  - now rewrite Hm.
  - exact I.
  - exact I.
  - now rewrite Hm.
Qed.

(** What the evaluating engine does after the last token of a production,
    folding or building a tuple, consumes nothing. *)
Lemma mirrors_then {A B B'} (m : M Runner.state A) (f : A -> M Runner.state B)
    (r' : result Recognizer.state B') s :
  mirrors (m s) r' ->
  (forall a s1, m s = Ok a s1 -> exists b, f a s1 = Ok b s1) ->
  mirrors ((m ≫= f) s) r'.
Proof.
  unfold mbind, M_bind. intros Hm Hf.
  destruct (m s) as [a s1|[| | |] s1|]; simpl in *; auto.
  destruct (Hf a s1 eq_refl) as [b ->]. exact Hm.
Qed.

(** The check that [operand] makes on an identifier returns the value or
    raises the [RuntimeError]. *)
Lemma mirrors_check {A B B'} (m : M Runner.state A) (f : A -> M Runner.state B)
    (r' : result Recognizer.state B') s :
  mirrors (m s) r' ->
  (forall a s1, m s = Ok a s1 ->
     (exists b, f a s1 = Ok b s1) \/ (exists var, f a s1 = Raise (Runner.undefined var) s1)) ->
  mirrors ((m ≫= f) s) r'.
Proof.
  unfold mbind, M_bind. intros Hm Hf.
  destruct (m s) as [a s1|[| | |] s1|]; simpl in *; auto.
  destruct (Hf a s1 eq_refl) as [[b ->]|[var ->]]; [exact Hm|exact I].
Qed.

Lemma match_mirrors token s :
  mirrors (Runner.match_ token s) (Recognizer.match_ token (erase s)).
Proof.
  unfold Runner.match_, Recognizer.match_. rewrite Equivalence.la_is_erase.
  destruct (Runner.la_is s token).
  - assert (Hev : exists a, Runner.evaluate s = Ok a s).
    { unfold Runner.evaluate. repeat destruct (Runner.la_is s _); eauto. }
    destruct Hev as [a Hev]. rewrite (bind_ok _ _ _ _ _ Hev).
    unfold mbind, M_bind, Runner.next_token, Recognizer.next_token. simpl.
    destruct (Plex.read (Runner.scanner s)) as [[p sc]|sc]; simpl; eauto.
  - simpl. eauto.
Qed.





Ltac mir_match := apply mirrors_bind; [apply match_mirrors | intros ? ? ? _].
Ltac mir_call IH := apply mirrors_bind; [apply IH | intros ? ? ? ?].
Ltac mir_fold IH :=
  apply mirrors_then; [apply IH |];
  let H := fresh in
  intros ? ? H; destruct (Equivalence.tail_sentinel _ _ _ _ ltac:(eauto)) as [? ?];
  eapply Equivalence.fold_returns; eassumption.
Ltac mir_cons IH :=
  apply mirrors_then; [apply IH | intros ? ? _; eexists; reflexivity].

Lemma engine_mirrors n :
  forall s,
    mirrors (Runner.expr n s) (Recognizer.expr n (erase s))
    /\ mirrors (Runner.term n s) (Recognizer.term n (erase s))
    /\ mirrors (Runner.term_tail n s) (Recognizer.term_tail n (erase s))
    /\ mirrors (Runner.factor n s) (Recognizer.factor n (erase s))
    /\ mirrors (Runner.factor_tail n s) (Recognizer.factor_tail n (erase s))
    /\ mirrors (Runner.operand n s) (Recognizer.operand n (erase s))
    /\ mirrors (Runner.operand_tail n s) (Recognizer.operand_tail n (erase s)).
Proof.
  induction n as [|n IH]; intros s.
  { repeat split. }
  assert (IHe := fun s => proj1 (IH s)).
  assert (IHt := fun s => proj1 (proj2 (IH s))).
  assert (IHtt := fun s => proj1 (proj2 (proj2 (IH s)))).
  assert (IHf := fun s => proj1 (proj2 (proj2 (proj2 (IH s))))).
  assert (IHft := fun s => proj1 (proj2 (proj2 (proj2 (proj2 (IH s)))))).
  assert (IHo := fun s => proj1 (proj2 (proj2 (proj2 (proj2 (proj2 (IH s))))))).
  assert (IHot := fun s => proj2 (proj2 (proj2 (proj2 (proj2 (proj2 (IH s))))))).
  clear IH.
  repeat split_and.
  - cbn [Runner.expr Recognizer.expr]. rewrite Equivalence.la_in_erase.
    destruct (Runner.la_in s _); [|simpl; eauto].
    mir_call IHt. mir_fold IHtt.
  - cbn [Runner.term Recognizer.term]. rewrite Equivalence.la_in_erase.
    destruct (Runner.la_in s _); [|simpl; eauto].
    mir_call IHf. mir_fold IHft.
  - cbn [Runner.term_tail Recognizer.term_tail]. rewrite Equivalence.la_is_erase, Equivalence.la_none_erase, Equivalence.la_in_erase.
    destruct (Runner.la_is s "xor").
    + mir_match. mir_call IHt. mir_cons IHtt.
    + destruct (_ || _); simpl; eauto.
  - cbn [Runner.factor Recognizer.factor]. rewrite Equivalence.la_in_erase.
    destruct (Runner.la_in s _); [|simpl; eauto].
    mir_call IHo. mir_fold IHot.
  - cbn [Runner.factor_tail Recognizer.factor_tail]. rewrite Equivalence.la_is_erase, Equivalence.la_none_erase, Equivalence.la_in_erase.
    destruct (Runner.la_is s "or").
    + mir_match. mir_call IHf. mir_cons IHft.
    + destruct (_ || _); simpl; eauto.
  - cbn [Runner.operand Recognizer.operand]. rewrite !Equivalence.la_is_erase.
    destruct (Runner.la_is s "id") eqn:Hid.
    { apply mirrors_check; [apply match_mirrors|].
      intros a s1 Hm. pose proof (RunnerFacts.match_post "id" s) as Hp.
      rewrite Hm in Hp. simpl in Hp. destruct Hp as (_ & Hla & Hev & _).
      rewrite (RunnerFacts.evaluate_id _ Hla) in Hev. injection Hev as <-.
      destruct (Runner.st s !! Runner.val s); simpl; eauto. }
    destruct (Runner.la_is s "binary") eqn:Hbin.
    { apply mirrors_then; [apply match_mirrors|].
      intros a s1 Hm. pose proof (RunnerFacts.match_post "binary" s) as Hp.
      rewrite Hm in Hp. simpl in Hp. destruct Hp as (_ & Hla & Hev & _).
      rewrite (RunnerFacts.evaluate_binary _ Hla) in Hev. injection Hev as <-.
      simpl. eauto. }
    destruct (Runner.la_is s "("); [|simpl; eauto].
    mir_match. mir_call IHe.
    apply mirrors_then; [apply match_mirrors|].
    intros ? ? _. eexists. reflexivity.
  - cbn [Runner.operand_tail Recognizer.operand_tail]. rewrite Equivalence.la_is_erase, Equivalence.la_none_erase, Equivalence.la_in_erase.
    destruct (Runner.la_is s "and").
    + mir_match. mir_call IHo. mir_cons IHot.
    + destruct (_ || _); simpl; eauto.
Qed.


(** What [stmt] does with the value, storing or printing it, is not seen by
    the recognizer. *)
Lemma mirrors_effect {A B B'} (m : M Runner.state A) (f : A -> M Runner.state B)
    (r' : result Recognizer.state B') s :
  mirrors (m s) r' ->
  (forall a s1, m s = Ok a s1 -> exists b s2, f a s1 = Ok b s2 /\ erase s2 = erase s1) ->
  mirrors ((m ≫= f) s) r'.
Proof.
  unfold mbind, M_bind. intros Hm Hf.
  destruct (m s) as [a s1|[| | |] s1|]; simpl in *; auto.
  destruct (Hf a s1 eq_refl) as (b & s2 & -> & Hs). simpl. now rewrite Hs.
Qed.

Lemma expr_mirrors n s : mirrors (Runner.expr n s) (Recognizer.expr n (erase s)).
Proof. apply engine_mirrors. Qed.

Lemma stmt_mirrors n s : mirrors (Runner.stmt n s) (Recognizer.stmt n (erase s)).
Proof.
  destruct n as [|n]; [reflexivity|].
  unfold Runner.stmt, Recognizer.stmt. rewrite !Equivalence.la_is_erase.
  destruct (Runner.la_is s "id").
  - mir_match. mir_match.
    apply mirrors_effect; [apply expr_mirrors|].
    intros ? ? _. do 2 eexists. split; reflexivity.
  - destruct (Runner.la_is s "print"); [|simpl; eauto].
    mir_match.
    apply mirrors_effect; [apply expr_mirrors|].
    intros ? ? _. do 2 eexists. split; reflexivity.
Qed.

Lemma stmt_list_mirrors n :
  forall s, mirrors (Runner.stmt_list n s) (Recognizer.stmt_list n (erase s)).
Proof.
  induction n as [|n IH]; intros s; [reflexivity|].
  cbn [Runner.stmt_list Recognizer.stmt_list]. rewrite !Equivalence.la_is_erase, Equivalence.la_none_erase.
  destruct (_ || _).
  - apply mirrors_bind; [apply stmt_mirrors|]. intros. apply IH.
  - destruct (Runner.la_none s); simpl; eauto.
Qed.

Lemma parse_mirrors sc : mirrors (Runner.parse sc) (Recognizer.parse sc).
Proof.
  unfold Runner.parse, Recognizer.parse.
  change Recognizer.init with (erase Runner.init).
  apply mirrors_bind; [|intros; apply stmt_list_mirrors].
  unfold Runner.create_scanner, Recognizer.create_scanner, mbind, M_bind,
    Runner.next_token, Recognizer.next_token. simpl.
  destruct (Plex.read sc) as [[p sc']|sc']; simpl; eauto.
Qed.

End Messages.

(** ** Comments, spaces, and spelling tokens out *)

Module Spelling.
Import Plex.

Lemma space_cases c : is_space c = true -> c = " "%char \/ c = "009"%char \/ c = "010"%char.
Proof.
  unfold is_space. intros H.
  apply orb_prop in H as [H|H]; [apply orb_prop in H as [H|H]|];
    apply Ascii.eqb_eq in H; auto.
Qed.

Lemma scan_brace m line col text :
  (forall line0 col0, m <> InComment line0 col0) ->
  scan m line col (String "{" text)
  = flush m line (scan (InComment line col) line (S col) text).
Proof.
  intros Hm. destruct m as [|c0 w|c0 w|l0 c0]; try reflexivity.
  exfalso. now apply (Hm l0 c0).
Qed.

Lemma scan_blank m line col text :
  (forall line0 col0, m <> InComment line0 col0) ->
  scan m line col (String " " text) = flush m line (scan Idle line (S col) text).
Proof.
  intros Hm. destruct m as [|c0 w|c0 w|l0 c0]; try reflexivity.
  exfalso. now apply (Hm l0 c0).
Qed.

Lemma look_flush m line r r' : look r = look r' -> look (flush m line r) = look (flush m line r').
Proof.
  intros H. destruct m; simpl; auto; now apply Lexicon.look_emit_eq.
Qed.

(** A comment scans like a space, wherever it stands outside a comment. *)
Lemma comment_as_space m line col body rest :
  brace_free body = true ->
  (forall line0 col0, m <> InComment line0 col0) ->
  look (scan m line col (String "{" (body +:+ String "}" rest)))
  = look (scan m line col (String " " rest)).
Proof.
  intros Hb Hm. rewrite scan_brace, scan_blank by assumption.
  apply look_flush. rewrite Lexicon.scan_comment_body by assumption.
  now apply Lexicon.look_positions.
Qed.

(** Two spaces, tabs or new lines scan like the first of them alone. *)
Lemma spaces_collapse m line col c1 c2 rest :
  is_space c1 = true -> is_space c2 = true ->
  look (scan m line col (String c1 (String c2 rest)))
  = look (scan m line col (String c1 rest)).
Proof.
  intros H1 H2.
  destruct (space_cases _ H1) as [-> | [-> | ->]],
      (space_cases _ H2) as [-> | [-> | ->]];
    destruct m as [|c0 w|c0 w|l0 c0]; cbn;
    first [ now apply Lexicon.look_positions
          | apply Lexicon.look_emit_eq; [reflexivity|now apply Lexicon.look_positions] ].
Qed.


(** *** Scanning what was spelled out *)

Lemma letter_not_bit c : is_letter c = true -> is_bit c = false.
Proof.
  unfold is_bit. destruct (Ascii.eqb_spec c "0") as [->|_]; [discriminate|].
  destruct (Ascii.eqb_spec c "1") as [->|_]; [discriminate|reflexivity].
Qed.

Lemma scan_bits u :
  forall c0 w line col rest,
    Reference.all_bits u = true ->
    look (scan (InBinary c0 w) line col (u +:+ String " " rest))
    = (("binary", w +:+ u) :: fst (look (scan Idle 1 0 rest)),
       snd (look (scan Idle 1 0 rest))).
Proof.
  induction u as [|d u IH]; intros c0 w line col rest Hu.
  - rewrite RunnerCorrect.append_empty.
    change ("" +:+ String " " rest) with (String " " rest).
    rewrite scan_blank by discriminate. simpl flush. rewrite Lexicon.look_emit.
    now rewrite (Lexicon.look_positions rest Idle Idle line (S col) 1 0 I).
  - simpl in Hu. apply andb_prop in Hu as [Hd Hu].
    change (String d u +:+ String " " rest) with (String d (u +:+ String " " rest)).
    cbn [scan]. rewrite Hd. rewrite IH by assumption.
    unfold snoc. now rewrite RunnerCorrect.append_cons.
Qed.

Lemma scan_letters u :
  forall c0 w line col rest,
    alphanumeric u = true ->
    look (scan (InWord c0 w) line col (u +:+ String " " rest))
    = ((tk_la (word_token (w +:+ u) 0 0), w +:+ u) :: fst (look (scan Idle 1 0 rest)),
       snd (look (scan Idle 1 0 rest))).
Proof.
  induction u as [|d u IH]; intros c0 w line col rest Hu.
  - rewrite RunnerCorrect.append_empty.
    change ("" +:+ String " " rest) with (String " " rest).
    rewrite scan_blank by discriminate. simpl flush. rewrite Lexicon.look_emit.
    rewrite (Lexicon.look_positions rest Idle Idle line (S col) 1 0 I).
    f_equal. f_equal. unfold word_token. destruct (_ || _); [reflexivity|].
    destruct (String.eqb _ _); reflexivity.
  - simpl in Hu. apply andb_prop in Hu as [Hd Hu].
    change (String d u +:+ String " " rest) with (String d (u +:+ String " " rest)).
    cbn [scan]. rewrite Hd. rewrite IH by assumption.
    unfold snoc. now rewrite RunnerCorrect.append_cons.
Qed.

Lemma word_kind_id v : reserved v = false -> tk_la (word_token v 0 0) = "id".
Proof.
  unfold reserved, word_token. intros H. apply orb_false_elim in H as [H1 H2].
  rewrite H1, H2. reflexivity.
Qed.

Lemma word_kind_reserved v : reserved v = true -> tk_la (word_token v 0 0) = v.
Proof.
  unfold reserved, word_token. intros H.
  destruct (String.eqb v "and" || String.eqb v "or" || String.eqb v "xor") eqn:H1;
    [reflexivity|].
  simpl in H. rewrite H. reflexivity.
Qed.

(** One token, spelled out and followed by a space, scans to itself. *)
Lemma scan_spelled k v line col rest :
  lexical (k, v) ->
  look (scan Idle line col (v +:+ String " " rest))
  = ((k, v) :: fst (look (scan Idle 1 0 rest)), snd (look (scan Idle 1 0 rest))).
Proof.
  unfold lexical. simpl. intros [[-> Hv]|[(-> & Hw & Hr)|[(-> & Hw & Hr)|[-> Hin]]]].
  - destruct v as [|d u]; [discriminate|]. simpl in Hv.
    apply andb_prop in Hv as [Hd Hu].
    change (String d u +:+ String " " rest) with (String d (u +:+ String " " rest)).
    cbn [scan]. unfold start_token. rewrite Hd.
    now rewrite scan_bits.
  - destruct v as [|d u]; [discriminate|]. simpl in Hw.
    apply andb_prop in Hw as [Hd Hu].
    change (String d u +:+ String " " rest) with (String d (u +:+ String " " rest)).
    cbn [scan]. unfold start_token. rewrite (letter_not_bit _ Hd), Hd.
    rewrite scan_letters by assumption. change (String d "" +:+ u) with (String d u).
    now rewrite (word_kind_id _ Hr).
  - destruct v as [|d u]; [discriminate|]. simpl in Hw.
    apply andb_prop in Hw as [Hd Hu].
    change (String d u +:+ String " " rest) with (String d (u +:+ String " " rest)).
    cbn [scan]. unfold start_token. rewrite (letter_not_bit _ Hd), Hd.
    rewrite scan_letters by assumption. change (String d "" +:+ u) with (String d u).
    now rewrite (word_kind_reserved _ Hr).
  - simpl in Hin. destruct Hin as [<-|[<-|[<-|[]]]].
    + change (look (emit (Token "=" "=" line col) (scan Idle line (S (S col)) rest))
              = (("=", "=") :: fst (look (scan Idle 1 0 rest)),
                 snd (look (scan Idle 1 0 rest)))).
      rewrite Lexicon.look_emit.
      now rewrite (Lexicon.look_positions rest Idle Idle line (S (S col)) 1 0 I).
    + change (look (emit (Token "(" "(" line col) (scan Idle line (S (S col)) rest))
              = (("(", "(") :: fst (look (scan Idle 1 0 rest)),
                 snd (look (scan Idle 1 0 rest)))).
      rewrite Lexicon.look_emit.
      now rewrite (Lexicon.look_positions rest Idle Idle line (S (S col)) 1 0 I).
    + change (look (emit (Token ")" ")" line col) (scan Idle line (S (S col)) rest))
              = ((")", ")") :: fst (look (scan Idle 1 0 rest)),
                 snd (look (scan Idle 1 0 rest)))).
      rewrite Lexicon.look_emit.
      now rewrite (Lexicon.look_positions rest Idle Idle line (S (S col)) 1 0 I).
Qed.

(** Tokens spelled out with a space after each scan to themselves, and the
    scan ends without a lexical error. *)
Lemma scan_spell ks :
  forall line col, Forall lexical ks -> look (scan Idle line col (spell ks)) = (ks, true).
Proof.
  induction ks as [|[k v] ks IH]; intros line col Hks; [reflexivity|].
  apply Forall_cons in Hks as [Hk Hks]. simpl spell.
  rewrite (scan_spelled k v) by assumption. rewrite IH by assumption. reflexivity.
Qed.

Lemma open_spell ks :
  Forall lexical ks -> lexemes (Plex.open (spell ks)) = ks /\ ends_well (Plex.open (spell ks)).
Proof.
  intros Hks. pose proof (scan_spell ks 1 0 Hks) as H.
  unfold look in H. injection H as H1 H2. unfold lexemes, Plex.open, ends_well. simpl.
  split; [exact H1|].
  destruct (snd (scan Idle 1 0 (spell ks))) as [l c|l c]; [eauto|discriminate].
Qed.


(** *** A comment anywhere in a text *)

Section Prefix.
Variables X1 X2 : string.
Hypothesis same_after :
  forall m line col, comment_mode m = false ->
    look (scan m line col X1) = look (scan m line col X2).

Lemma look_prefix pre :
  forall m line col,
    in_comment (comment_mode m) pre = false ->
    look (scan m line col (pre +:+ X1)) = look (scan m line col (pre +:+ X2)).
Proof.
  induction pre as [|ch pre IH]; intros m line col Hpre.
  - simpl in Hpre. now apply same_after.
  - change (String ch pre +:+ X1) with (String ch (pre +:+ X1)).
    change (String ch pre +:+ X2) with (String ch (pre +:+ X2)).
    cbn [in_comment] in Hpre. cbn [scan].
    set (line' := if Ascii.eqb ch "010" then S line else line).
    set (col' := if Ascii.eqb ch "010" then 0 else S col).
    destruct m as [|c0 w|c0 w|l0 c0]; cbn [comment_mode] in Hpre.
    4: { destruct (Ascii.eqb ch "}"); now apply IH. }
    all: assert (Hfresh :
      look match start_token ch line col with
           | Enter m0 => scan m0 line' col' (pre +:+ X1)
           | Emit t => emit t (scan Idle line' col' (pre +:+ X1))
           | Skip => scan Idle line' col' (pre +:+ X1)
           | Bad => ([], Unrecognized line col)
           end
      = look match start_token ch line col with
             | Enter m0 => scan m0 line' col' (pre +:+ X2)
             | Emit t => emit t (scan Idle line' col' (pre +:+ X2))
             | Skip => scan Idle line' col' (pre +:+ X2)
             | Bad => ([], Unrecognized line col)
             end).
    1,3,5: unfold start_token; destruct (is_bit ch) eqn:Hb;
      [destruct (Ascii.eqb_spec ch "{") as [->|_]; [discriminate|now apply IH]|];
      destruct (is_letter ch) eqn:Hl;
      [destruct (Ascii.eqb_spec ch "{") as [->|_]; [discriminate|now apply IH]|];
      destruct (Ascii.eqb ch "=" || Ascii.eqb ch "(" || Ascii.eqb ch ")") eqn:Hp;
      [destruct (Ascii.eqb_spec ch "{") as [->|_]; [discriminate|];
       apply Lexicon.look_emit_eq; [reflexivity|now apply IH]|];
      destruct (is_space ch) eqn:Hs;
      [destruct (Ascii.eqb_spec ch "{") as [->|_]; [discriminate|now apply IH]|];
      destruct (Ascii.eqb ch "{"); [now apply IH|reflexivity].
    + exact Hfresh.
    + destruct (is_bit ch) eqn:Hb.
      * destruct (Ascii.eqb_spec ch "{") as [->|_]; [discriminate|now apply IH].
      * apply Lexicon.look_emit_eq; [reflexivity|exact Hfresh].
    + destruct (is_letter ch || is_digit ch) eqn:Hb.
      * destruct (Ascii.eqb_spec ch "{") as [->|_]; [discriminate|now apply IH].
      * apply Lexicon.look_emit_eq; [reflexivity|exact Hfresh].
Qed.

End Prefix.

Section AnyPrefix.
Variables Y1 Y2 : string.
Hypothesis same_always :
  forall m line col, look (scan m line col Y1) = look (scan m line col Y2).

Lemma look_any_prefix pre :
  forall m line col,
    look (scan m line col (pre +:+ Y1)) = look (scan m line col (pre +:+ Y2)).
Proof.
  induction pre as [|ch pre IH]; intros m line col; [apply same_always|].
  change (String ch pre +:+ Y1) with (String ch (pre +:+ Y1)).
  change (String ch pre +:+ Y2) with (String ch (pre +:+ Y2)).
  cbn [scan].
  set (line' := if Ascii.eqb ch "010" then S line else line).
  set (col' := if Ascii.eqb ch "010" then 0 else S col).
  assert (Hfresh :
    look match start_token ch line col with
         | Enter m0 => scan m0 line' col' (pre +:+ Y1)
         | Emit t => emit t (scan Idle line' col' (pre +:+ Y1))
         | Skip => scan Idle line' col' (pre +:+ Y1)
         | Bad => ([], Unrecognized line col)
         end
    = look match start_token ch line col with
           | Enter m0 => scan m0 line' col' (pre +:+ Y2)
           | Emit t => emit t (scan Idle line' col' (pre +:+ Y2))
           | Skip => scan Idle line' col' (pre +:+ Y2)
           | Bad => ([], Unrecognized line col)
           end).
  { destruct (start_token ch line col); [apply IH| |apply IH|reflexivity].
    apply Lexicon.look_emit_eq; [reflexivity|apply IH]. }
  destruct m as [|c0 w|c0 w|l0 c0].
  - exact Hfresh.
  - destruct (is_bit ch); [apply IH|].
    apply Lexicon.look_emit_eq; [reflexivity|exact Hfresh].
  - destruct (is_letter ch || is_digit ch); [apply IH|].
    apply Lexicon.look_emit_eq; [reflexivity|exact Hfresh].
  - destruct (Ascii.eqb ch "}"); apply IH.
Qed.

End AnyPrefix.

(** A comment that stands outside a comment, anywhere in a text, can be
    replaced by a space: the tokens and the way the scan ends are the same. *)
Lemma comment_anywhere pre body rest :
  in_comment false pre = false -> brace_free body = true ->
  look (scan Idle 1 0 (pre +:+ String "{" (body +:+ String "}" rest)))
  = look (scan Idle 1 0 (pre +:+ String " " rest)).
Proof.
  intros Hpre Hb. apply look_prefix; [|exact Hpre].
  intros m line col Hm. apply comment_as_space; [exact Hb|].
  intros l0 c0 ->. discriminate.
Qed.

(** Two spaces, tabs or new lines, anywhere in a text, scan like the first
    of them alone. *)
Lemma spaces_anywhere pre c1 c2 rest :
  is_space c1 = true -> is_space c2 = true ->
  look (scan Idle 1 0 (pre +:+ String c1 (String c2 rest)))
  = look (scan Idle 1 0 (pre +:+ String c1 rest)).
Proof.
  intros H1 H2. apply look_any_prefix. intros m line col. now apply spaces_collapse.
Qed.

Lemma look_open text text' :
  look (scan Idle 1 0 text) = look (scan Idle 1 0 text') ->
  lexemes (Plex.open text) = lexemes (Plex.open text')
  /\ (ends_well (Plex.open text) <-> ends_well (Plex.open text')).
Proof.
  unfold look, lexemes, ends_well, Plex.open. simpl. intros [= H1 H2].
  split; [exact H1|].
  destruct (snd (scan Idle 1 0 text)), (snd (scan Idle 1 0 text')); try discriminate;
    split; intros (l & c & H); try discriminate; eauto.
Qed.

(** *** A comment that is not closed *)



End Spelling.

(** ** Positions matter to the error line only *)

Module Placeless.
Import Runner.

Lemma placeless_bind {A B} (m : M state A) (f : A -> M state B) s :
  m (unplaced s) = map_state unplaced (m s) ->
  (forall a s1, f a (unplaced s1) = map_state unplaced (f a s1)) ->
  (m ≫= f) (unplaced s) = map_state unplaced ((m ≫= f) s).
Proof.
  unfold mbind, M_bind. intros -> Hf. destruct (m s); simpl; auto.
Qed.

Lemma next_token_placeless : placeless next_token.
Proof.
  intros s. unfold next_token, Plex.read. simpl.
  destruct (Plex.pending (scanner s)) as [|t r]; simpl; [|reflexivity].
  destruct (Plex.finish (scanner s)); reflexivity.
Qed.

Lemma evaluate_placeless : placeless evaluate.
Proof.
  intros s. unfold evaluate.
  change (la_is (unplaced s) "binary") with (la_is s "binary").
  change (la_is (unplaced s) "id") with (la_is s "id").
  destruct (la_is s "binary"); [reflexivity|]. destruct (la_is s "id"); reflexivity.
Qed.

Lemma match_placeless token : placeless (match_ token).
Proof.
  intros s. unfold match_. change (la_is (unplaced s) token) with (la_is s token).
  destruct (la_is s token); [|reflexivity].
  apply placeless_bind; [apply evaluate_placeless|]. intros a s1.
  apply placeless_bind; [apply next_token_placeless|]. intros p s2. reflexivity.
Qed.

Lemma fold_op_placeless op bs : forall a, placeless (fold_op op a bs).
Proof.
  induction bs as [|[b|] bs IH]; intros a s; simpl; [reflexivity|apply IH|reflexivity].
Qed.

Ltac same_tests s :=
  repeat match goal with
         | |- context [la_is (unplaced s) ?t] =>
             change (la_is (unplaced s) t) with (la_is s t)
         | |- context [la_in (unplaced s) ?t] =>
             change (la_in (unplaced s) t) with (la_in s t)
         | |- context [la_none (unplaced s)] =>
             change (la_none (unplaced s)) with (la_none s)
         end.

Ltac step_with IH :=
  apply placeless_bind;
  [first [apply match_placeless | apply IH] | intros ? ?].

Lemma engine_placeless n :
  placeless (expr n) /\ placeless (term n) /\ placeless (term_tail n)
  /\ placeless (factor n) /\ placeless (factor_tail n)
  /\ placeless (operand n) /\ placeless (operand_tail n).
Proof.
  induction n as [|n (IHe & IHt & IHtt & IHf & IHft & IHo & IHot)].
  { repeat split; intros s; reflexivity. }
  repeat split_and; intros s.
  - cbn [expr]. same_tests s. destruct (la_in s _); [|reflexivity].
    step_with IHt. step_with IHtt. apply fold_op_placeless.
  - cbn [term]. same_tests s. destruct (la_in s _); [|reflexivity].
    step_with IHf. step_with IHft. apply fold_op_placeless.
  - cbn [term_tail]. same_tests s. destruct (la_is s "xor").
    + step_with IHt. step_with IHt. step_with IHtt. reflexivity.
    + destruct (_ || _); reflexivity.
  - cbn [factor]. same_tests s. destruct (la_in s _); [|reflexivity].
    step_with IHo. step_with IHot. apply fold_op_placeless.
  - cbn [factor_tail]. same_tests s. destruct (la_is s "or").
    + step_with IHf. step_with IHf. step_with IHft. reflexivity.
    + destruct (_ || _); reflexivity.
  - cbn [operand]. same_tests s. destruct (la_is s "id").
    { step_with IHe. destruct a; reflexivity. }
    destruct (la_is s "binary").
    { step_with IHe. destruct a; reflexivity. }
    destruct (la_is s "("); [|reflexivity].
    step_with IHe. step_with IHe. step_with IHe. reflexivity.
  - cbn [operand_tail]. same_tests s. destruct (la_is s "and").
    + step_with IHo. step_with IHo. step_with IHot. reflexivity.
    + destruct (_ || _); reflexivity.
Qed.

Lemma stmt_placeless n : placeless (stmt n).
Proof.
  intros s. destruct n as [|n]; [reflexivity|]. unfold stmt. same_tests s.
  pose proof (proj1 (engine_placeless n)) as IHe.
  destruct (la_is s "id").
  - step_with IHe. step_with IHe. step_with IHe. reflexivity.
  - destruct (la_is s "print"); [|reflexivity].
    step_with IHe. step_with IHe. reflexivity.
Qed.

Lemma stmt_list_placeless n : placeless (stmt_list n).
Proof.
  induction n as [|n IH]; intros s; [reflexivity|].
  cbn [stmt_list]. same_tests s. destruct (_ || _).
  - apply placeless_bind; [apply stmt_placeless|]. intros ? ?. apply IH.
  - destruct (la_none s); reflexivity.
Qed.

(** [parse] on a scanner without positions does what it does on the scanner
    itself. *)
Lemma parse_unplace sc : parse (unplace sc) = map_state unplaced (parse sc).
Proof.
  unfold parse.
  assert (Hlen : length (Plex.pending (unplace sc)) = length (Plex.pending sc))
    by (unfold unplace; simpl; apply length_map).
  rewrite Hlen.
  assert (Hcs : create_scanner (unplace sc) init
                = map_state unplaced (create_scanner sc init)).
  { unfold create_scanner, mbind, M_bind, next_token, Plex.read, init. simpl.
    destruct (Plex.pending sc) as [|t r]; simpl; [|reflexivity].
    destruct (Plex.finish sc); reflexivity. }
  unfold mbind, M_bind. rewrite Hcs.
  destruct (create_scanner sc init) as [[] s0|e s0|]; simpl; try reflexivity.
  apply stmt_list_placeless.
Qed.

Lemma unplace_look sc sc' :
  lexemes sc = lexemes sc' ->
  (ends_well sc <-> ends_well sc') ->
  unplace sc = unplace sc'.
Proof.
  intros Hlex Hend. unfold unplace. f_equal.
  - unfold lexemes in Hlex.
    assert (Hm : forall ts, map unplace_token ts
                 = map (fun kv => Plex.Token (fst kv) (snd kv) 0 0)
                     (map (fun t => (Plex.tk_la t, Plex.tk_val t)) ts)).
    { intros ts. rewrite map_map. reflexivity. }
    rewrite !Hm, Hlex. reflexivity.
  - unfold ends_well in Hend.
    destruct (Plex.finish sc) as [l c|l c], (Plex.finish sc') as [l' c'|l' c'];
      try reflexivity; exfalso.
    + destruct (proj1 Hend) as (? & ? & ?); [eauto|discriminate].
    + destruct (proj2 Hend) as (? & ? & ?); [eauto|discriminate].
Qed.

(** [parse] on two scanners that deliver the same kinds and lexemes and end
    alike ends alike. *)
Lemma parse_same sc sc' :
  lexemes sc = lexemes sc' -> (ends_well sc <-> ends_well sc') ->
  same_outcome (parse sc) (parse sc').
Proof.
  intros Hlex Hend. pose proof (parse_unplace sc) as H. pose proof (parse_unplace sc') as H'.
  rewrite (unplace_look _ _ Hlex Hend) in H. rewrite H' in H. clear H'.
  destruct (parse sc) as [[] s|e s|], (parse sc') as [[] s'|e' s'|]; simpl in H;
    try discriminate; simpl; auto.
  - unfold unplaced in H. inversion H. auto.
  - unfold unplaced in H. inversion H. repeat split; congruence.
Qed.

End Placeless.

(** ** What the evaluating engine accepts, and what it then has printed *)

Module RunnerSound.
Import Runner Reference.

Lemma match_ok token s a s' :
  match_ token s = Ok a s' ->
  la s = Some token /\ evaluate s = Ok a s
  /\ upcoming s = (token, val s) :: upcoming s' /\ same_store s s'.
Proof.
  intros H. pose proof (RunnerFacts.match_post token s) as Hp. rewrite H in Hp.
  simpl in Hp. destruct Hp as (Hs & Hla & Hev & Hread).
  apply RunnerCorrect.created_upcoming in Hread as [Hup _].
  repeat split; try assumption; try apply Hs.
  unfold upcoming at 1. rewrite Hla, Hup. reflexivity.
Qed.

Lemma value_ok_store n s v s' :
  (expr n s = Ok v s' \/ term n s = Ok v s' \/ factor n s = Ok v s' \/ operand n s = Ok v s') ->
  same_store s s'.
Proof.
  pose proof (RunnerFacts.engine_post n s) as (He & Ht & _ & Hf & _ & Ho & _).
  unfold value_post in *.
  intros [H|[H|[H|H]]]; rewrite H in *; simpl in *; assumption.
Qed.

Lemma tail_ok_store n s b s' :
  (term_tail n s = Ok b s' \/ factor_tail n s = Ok b s' \/ operand_tail n s = Ok b s') ->
  same_store s s'.
Proof.
  pose proof (RunnerFacts.engine_post n s) as (_ & _ & Htt & _ & Hft & _ & Hot).
  unfold tail_post in *.
  intros [H|[H|H]]; rewrite H in *; simpl in *; tauto.
Qed.

Lemma agrees_store env s s' : same_store s s' -> agrees env s -> agrees env s'.
Proof.
  unfold agrees. intros [H _] E. congruence.
Qed.

Lemma fold_ok op a vs s v s' :
  fold_op op a (but_last (map Some vs ++ [None])) s = Ok v s' ->
  v = fold_left op vs a /\ s' = s.
Proof.
  rewrite (RunnerFacts.but_last_sentinel _ vs eq_refl), RunnerFacts.fold_op_sentinel.
  intros [= <- <-]. auto.
Qed.


Section Sound.
Variable env : gmap string N.

Lemma engine_sound n :
  value_sound env (expr n) expr_tokens (eval_expr env)
  /\ value_sound env (term n) term_tokens (eval_term env)
  /\ tail_sound env (term_tail n) term_tail_tokens Z.lxor (eval_term_tail env)
  /\ value_sound env (factor n) factor_tokens (eval_factor env)
  /\ tail_sound env (factor_tail n) factor_tail_tokens Z.lor (eval_factor_tail env)
  /\ value_sound env (operand n) operand_tokens (eval_operand env)
  /\ tail_sound env (operand_tail n) operand_tail_tokens Z.land (eval_operand_tail env).
Proof.
  induction n as [|n (IHe & IHt & IHtt & IHf & IHft & IHo & IHot)].
  { repeat split; intros s v s' _ _ H; discriminate. }
  repeat split_and.
  - (* expr *)
    intros s v s' Hag Hpl H. cbn [expr] in H. destruct (la_in s _); [|discriminate].
    apply RecognizerFacts.bind_ok_inv in H as (v1 & s1 & H1 & H).
    apply RecognizerFacts.bind_ok_inv in H as (b & s2 & H2 & H).
    destruct (IHt _ _ _ Hag Hpl H1) as (t & w1 & Ht & Hw1 & ->).
    assert (Hag1 : agrees env s1)
      by (eapply agrees_store; [eapply (value_ok_store n s); eauto|assumption]).
    rewrite Ht in Hpl. apply RecognizerFacts.plain_rest in Hpl.
    destruct (IHtt _ _ _ Hag1 Hpl H2) as (xs & vs & Hxs & -> & Hfold).
    apply fold_ok in H as [-> ->].
    destruct (Hfold w1) as (w & Hw & Hv).
    exists (Expr t xs), w. simpl. rewrite Hw1. simpl.
    split; [now rewrite Ht, Hxs, app_assoc|]. split; assumption.
  - (* term *)
    intros s v s' Hag Hpl H. cbn [term] in H. destruct (la_in s _); [|discriminate].
    apply RecognizerFacts.bind_ok_inv in H as (v1 & s1 & H1 & H).
    apply RecognizerFacts.bind_ok_inv in H as (b & s2 & H2 & H).
    destruct (IHf _ _ _ Hag Hpl H1) as (t & w1 & Ht & Hw1 & ->).
    assert (Hag1 : agrees env s1)
      by (eapply agrees_store; [eapply (value_ok_store n s); eauto|assumption]).
    rewrite Ht in Hpl. apply RecognizerFacts.plain_rest in Hpl.
    destruct (IHft _ _ _ Hag1 Hpl H2) as (xs & vs & Hxs & -> & Hfold).
    apply fold_ok in H as [-> ->].
    destruct (Hfold w1) as (w & Hw & Hv).
    exists (Term t xs), w. simpl. rewrite Hw1. simpl.
    split; [now rewrite Ht, Hxs, app_assoc|]. split; assumption.
  - (* term_tail *)
    intros s b s' Hag Hpl H. cbn [term_tail] in H. destruct (la_is s "xor").
    + apply RecognizerFacts.bind_ok_inv in H as (x & s0 & H0 & H).
      apply RecognizerFacts.bind_ok_inv in H as (v1 & s1 & H1 & H).
      apply RecognizerFacts.bind_ok_inv in H as (b1 & s2 & H2 & H).
      injection H as <- <-.
      apply match_ok in H0 as (_ & _ & Hup0 & Hs0).
      rewrite Hup0 in Hpl.
      rewrite (RecognizerFacts.plain_text _ _ _ Hpl) in Hup0 by discriminate.
      apply (RecognizerFacts.plain_rest [_]) in Hpl.
      assert (Hag0 : agrees env s0) by (eapply agrees_store; eassumption).
      destruct (IHt _ _ _ Hag0 Hpl H1) as (t & w1 & Ht & Hw1 & ->).
      assert (Hag1 : agrees env s1)
        by (eapply agrees_store; [eapply (value_ok_store n s0); eauto|assumption]).
      rewrite Ht in Hpl. apply RecognizerFacts.plain_rest in Hpl.
      destruct (IHtt _ _ _ Hag1 Hpl H2) as (xs & vs & Hxs & -> & Hfold).
      exists (Xor t xs), (Z.of_N w1 :: vs).
      split; [simpl; now rewrite Hup0, Ht, Hxs, app_assoc|].
      split; [reflexivity|]. intros a. simpl. rewrite Hw1. simpl.
      destruct (Hfold (N.lxor a w1)) as (w & Hw & Hv). exists w. split; [exact Hw|].
      rewrite <- Hv, N2Z.inj_lxor. reflexivity.
    + destruct (_ || _); [|discriminate]. injection H as <- <-.
      exists NoXor, []. split; [reflexivity|]. split; [reflexivity|].
      intros a. exists a. split; reflexivity.
  - (* factor *)
    intros s v s' Hag Hpl H. cbn [factor] in H. destruct (la_in s _); [|discriminate].
    apply RecognizerFacts.bind_ok_inv in H as (v1 & s1 & H1 & H).
    apply RecognizerFacts.bind_ok_inv in H as (b & s2 & H2 & H).
    destruct (IHo _ _ _ Hag Hpl H1) as (t & w1 & Ht & Hw1 & ->).
    assert (Hag1 : agrees env s1)
      by (eapply agrees_store; [eapply (value_ok_store n s); eauto|assumption]).
    rewrite Ht in Hpl. apply RecognizerFacts.plain_rest in Hpl.
    destruct (IHot _ _ _ Hag1 Hpl H2) as (xs & vs & Hxs & -> & Hfold).
    apply fold_ok in H as [-> ->].
    destruct (Hfold w1) as (w & Hw & Hv).
    exists (Factor t xs), w. simpl. rewrite Hw1. simpl.
    split; [now rewrite Ht, Hxs, app_assoc|]. split; assumption.
  - (* factor_tail *)
    intros s b s' Hag Hpl H. cbn [factor_tail] in H. destruct (la_is s "or").
    + apply RecognizerFacts.bind_ok_inv in H as (x & s0 & H0 & H).
      apply RecognizerFacts.bind_ok_inv in H as (v1 & s1 & H1 & H).
      apply RecognizerFacts.bind_ok_inv in H as (b1 & s2 & H2 & H).
      injection H as <- <-.
      apply match_ok in H0 as (_ & _ & Hup0 & Hs0).
      rewrite Hup0 in Hpl.
      rewrite (RecognizerFacts.plain_text _ _ _ Hpl) in Hup0 by discriminate.
      apply (RecognizerFacts.plain_rest [_]) in Hpl.
      assert (Hag0 : agrees env s0) by (eapply agrees_store; eassumption).
      destruct (IHf _ _ _ Hag0 Hpl H1) as (t & w1 & Ht & Hw1 & ->).
      assert (Hag1 : agrees env s1)
        by (eapply agrees_store; [eapply (value_ok_store n s0); eauto|assumption]).
      rewrite Ht in Hpl. apply RecognizerFacts.plain_rest in Hpl.
      destruct (IHft _ _ _ Hag1 Hpl H2) as (xs & vs & Hxs & -> & Hfold).
      exists (Or t xs), (Z.of_N w1 :: vs).
      split; [simpl; now rewrite Hup0, Ht, Hxs, app_assoc|].
      split; [reflexivity|]. intros a. simpl. rewrite Hw1. simpl.
      destruct (Hfold (N.lor a w1)) as (w & Hw & Hv). exists w. split; [exact Hw|].
      rewrite <- Hv, N2Z.inj_lor. reflexivity.
    + destruct (_ || _); [|discriminate]. injection H as <- <-.
      exists NoOr, []. split; [reflexivity|]. split; [reflexivity|].
      intros a. exists a. split; reflexivity.
  - (* operand *)
    intros s v s' Hag Hpl H. cbn [operand] in H. destruct (la_is s "id").
    { apply RecognizerFacts.bind_ok_inv in H as (a & s1 & H1 & H).
      apply match_ok in H1 as (Hla & Hev & Hup & _).
      rewrite (RunnerFacts.evaluate_id _ Hla) in Hev. injection Hev as <-.
      unfold agrees in Hag. rewrite Hag, lookup_fmap in H.
      destruct (env !! val s) as [w|] eqn:Hw; simpl in H; [|discriminate].
      injection H as <- <-. exists (Id (val s)), w. auto. }
    destruct (la_is s "binary").
    { apply RecognizerFacts.bind_ok_inv in H as (a & s1 & H1 & H).
      apply match_ok in H1 as (Hla & Hev & Hup & _).
      rewrite (RunnerFacts.evaluate_binary _ Hla) in Hev. injection Hev as <-.
      simpl in H. injection H as <- <-.
      exists (Binary (val s)), (binary_value 0 (val s)).
      split; [exact Hup|]. split; [reflexivity|apply RunnerCorrect.int2_value]. }
    destruct (la_is s "("); [|discriminate].
    apply RecognizerFacts.bind_ok_inv in H as (x & s0 & H0 & H).
    apply RecognizerFacts.bind_ok_inv in H as (v1 & s1 & H1 & H).
    apply RecognizerFacts.bind_ok_inv in H as (y & s2 & H2 & H).
    injection H as <- <-.
    apply match_ok in H0 as (_ & _ & Hup0 & Hs0).
    rewrite Hup0 in Hpl.
    rewrite (RecognizerFacts.plain_text _ _ _ Hpl) in Hup0 by discriminate.
    apply (RecognizerFacts.plain_rest [_]) in Hpl.
    assert (Hag0 : agrees env s0) by (eapply agrees_store; eassumption).
    destruct (IHe _ _ _ Hag0 Hpl H1) as (e & w & He & Hw & ->).
    rewrite He in Hpl. apply RecognizerFacts.plain_rest in Hpl.
    apply match_ok in H2 as (_ & _ & Hup2 & _). rewrite Hup2 in Hpl.
    rewrite (RecognizerFacts.plain_text _ _ _ Hpl) in Hup2 by discriminate.
    exists (Paren e), w. simpl.
    split; [rewrite Hup0, He, Hup2, <- app_assoc; reflexivity|]. auto.
  - (* operand_tail *)
    intros s b s' Hag Hpl H. cbn [operand_tail] in H. destruct (la_is s "and").
    + apply RecognizerFacts.bind_ok_inv in H as (x & s0 & H0 & H).
      apply RecognizerFacts.bind_ok_inv in H as (v1 & s1 & H1 & H).
      apply RecognizerFacts.bind_ok_inv in H as (b1 & s2 & H2 & H).
      injection H as <- <-.
      apply match_ok in H0 as (_ & _ & Hup0 & Hs0).
      rewrite Hup0 in Hpl.
      rewrite (RecognizerFacts.plain_text _ _ _ Hpl) in Hup0 by discriminate.
      apply (RecognizerFacts.plain_rest [_]) in Hpl.
      assert (Hag0 : agrees env s0) by (eapply agrees_store; eassumption).
      destruct (IHo _ _ _ Hag0 Hpl H1) as (t & w1 & Ht & Hw1 & ->).
      assert (Hag1 : agrees env s1)
        by (eapply agrees_store; [eapply (value_ok_store n s0); eauto|assumption]).
      rewrite Ht in Hpl. apply RecognizerFacts.plain_rest in Hpl.
      destruct (IHot _ _ _ Hag1 Hpl H2) as (xs & vs & Hxs & -> & Hfold).
      exists (And t xs), (Z.of_N w1 :: vs).
      split; [simpl; now rewrite Hup0, Ht, Hxs, app_assoc|].
      split; [reflexivity|]. intros a. simpl. rewrite Hw1. simpl.
      destruct (Hfold (N.land a w1)) as (w & Hw & Hv). exists w. split; [exact Hw|].
      rewrite <- Hv, N2Z.inj_land. reflexivity.
    + destruct (_ || _); [|discriminate]. injection H as <- <-.
      exists NoAnd, []. split; [reflexivity|]. split; [reflexivity|].
      intros a. exists a. split; reflexivity.
Qed.

End Sound.


Lemma expr_sound env n : value_sound env (expr n) expr_tokens (eval_expr env).
Proof. apply engine_sound. Qed.

Lemma stmt_sound env n s s' :
  agrees env s -> Forall plain (upcoming s) -> stmt n s = Ok tt s' ->
  exists c, upcoming s = stmt_tokens c ++ upcoming s'
    /\ match c with
       | Assign name e =>
           exists w, eval_expr env e = Some w /\ agrees (<[name := w]> env) s'
                     /\ out s' = out s
       | Print e =>
           exists w, eval_expr env e = Some w /\ agrees env s'
                     /\ out s' = out s ++ [render w]
       end.
Proof.
  intros Hag Hpl H. destruct n as [|n]; [discriminate|]. unfold stmt in H.
  destruct (la_is s "id").
  - apply RecognizerFacts.bind_ok_inv in H as (x & s0 & H0 & H).
    apply RecognizerFacts.bind_ok_inv in H as (y & s1 & H1 & H).
    apply RecognizerFacts.bind_ok_inv in H as (v & s2 & H2 & H).
    injection H as <-.
    apply match_ok in H0 as (_ & _ & Hup0 & Hs0). rewrite Hup0 in Hpl.
    apply (RecognizerFacts.plain_rest [_]) in Hpl.
    apply match_ok in H1 as (_ & _ & Hup1 & Hs1). rewrite Hup1 in Hpl.
    rewrite (RecognizerFacts.plain_text _ _ _ Hpl) in Hup1 by discriminate.
    apply (RecognizerFacts.plain_rest [_]) in Hpl.
    assert (Hag1 : agrees env s1) by eauto using agrees_store.
    destruct (expr_sound env n _ _ _ Hag1 Hpl H2) as (e & w & He & Hw & ->).
    assert (Hs2 : same_store s1 s2) by (eapply (value_ok_store n s1); eauto).
    exists (Assign (val s) e). split; [simpl; now rewrite Hup0, Hup1, He|].
    exists w. split; [exact Hw|].
    destruct Hs0 as [Ht0 Ho0], Hs1 as [Ht1 Ho1], Hs2 as [Ht2 Ho2].
    split; [|simpl; congruence].
    unfold agrees in *. simpl. rewrite fmap_insert. f_equal. congruence.
  - destruct (la_is s "print"); [|discriminate].
    apply RecognizerFacts.bind_ok_inv in H as (x & s0 & H0 & H).
    apply RecognizerFacts.bind_ok_inv in H as (v & s2 & H2 & H).
    injection H as <-.
    apply match_ok in H0 as (_ & _ & Hup0 & Hs0). rewrite Hup0 in Hpl.
    rewrite (RecognizerFacts.plain_text _ _ _ Hpl) in Hup0 by discriminate.
    apply (RecognizerFacts.plain_rest [_]) in Hpl.
    assert (Hag0 : agrees env s0) by eauto using agrees_store.
    destruct (expr_sound env n _ _ _ Hag0 Hpl H2) as (e & w & He & Hw & ->).
    assert (Hs2 : same_store s0 s2) by (eapply (value_ok_store n s0); eauto).
    exists (Print e). split; [simpl; now rewrite Hup0, He|].
    exists w. split; [exact Hw|].
    destruct Hs0 as [Ht0 Ho0], Hs2 as [Ht2 Ho2].
    split; [unfold agrees in *; simpl; congruence|].
    simpl. rewrite RunnerCorrect.format_render. congruence.
Qed.

Lemma stmt_list_sound n :
  forall env s s',
    agrees env s -> Forall plain (upcoming s) -> stmt_list n s = Ok tt s' ->
    exists p vs, upcoming s = program_tokens p /\ exec env p = Some vs
                 /\ out s' = out s ++ map render vs.
Proof.
  induction n as [|n IH]; intros env s s' Hag Hpl H; [discriminate|].
  cbn [stmt_list] in H. destruct (_ || _).
  - apply RecognizerFacts.bind_ok_inv in H as ([] & s1 & H1 & H2).
    destruct (stmt_sound _ _ _ _ Hag Hpl H1) as (c & Hc & Hdone).
    rewrite Hc in Hpl. apply RecognizerFacts.plain_rest in Hpl.
    destruct c as [name e|e].
    + destruct Hdone as (w & Hw & Hag1 & Hout).
      destruct (IH _ _ _ Hag1 Hpl H2) as (p & vs & Hp & Hex & Hout').
      exists (Assign name e :: p), vs. unfold program_tokens in *. simpl.
      rewrite Hw. simpl. split; [now rewrite Hc, Hp|]. split; [exact Hex|congruence].
    + destruct Hdone as (w & Hw & Hag1 & Hout).
      destruct (IH _ _ _ Hag1 Hpl H2) as (p & vs & Hp & Hex & Hout').
      exists (Print e :: p), (w :: vs). unfold program_tokens in *. simpl.
      rewrite Hw. simpl. rewrite Hex. simpl.
      split; [now rewrite Hc, Hp|]. split; [reflexivity|].
      rewrite Hout', Hout, <- app_assoc. reflexivity.
  - unfold la_none in H. destruct (la s) eqn:Hla; [discriminate|]. injection H as <-.
    exists [], []. unfold upcoming. rewrite Hla. simpl. now rewrite app_nil_r.
Qed.

(** A stream that the evaluating engine accepts ends without a lexical
    error and is the token list of a program of the grammar; the reference
    evaluator has a value for every print statement of that program, and the
    lines printed are these values. *)
Lemma parse_sound sc s' :
  Forall plain_token (Plex.pending sc) -> parse sc = Ok tt s' ->
  ends_well sc
  /\ exists p vs, lexemes sc = program_tokens p /\ exec ∅ p = Some vs
                  /\ out s' = map render vs.
Proof.
  intros Hpl H. split.
  - pose proof (Equivalence.parse_simulates sc) as Hsim. rewrite H in Hsim.
    destruct Hsim as [b Hb].
    now apply (RecognizerFacts.parse_derives sc b (erase s')).
  - pose proof (RunnerTotal.create_scanner_post sc) as Hcs. unfold parse in H.
    apply RecognizerFacts.bind_ok_inv in H as ([] & s0 & H0 & H1). rewrite H0 in Hcs.
    destruct Hcs as (_ & Hst & Hout & Hread).
    apply RunnerCorrect.created_upcoming in Hread as [Hup _].
    assert (Hag : agrees ∅ s0) by (unfold agrees; rewrite fmap_empty; exact Hst).
    assert (Hpl0 : Forall plain (upcoming s0))
      by (rewrite Hup; unfold lexemes; apply Forall_map; exact Hpl).
    destruct (stmt_list_sound _ ∅ s0 s' Hag Hpl0 H1) as (p & vs & Hp & Hex & Hout').
    exists p, vs. rewrite Hout', Hout. split; [congruence|]. auto.
Qed.


(** *** The lines printed before an exception *)

Lemma bind_raise_inv {S A B} (m : M S A) (f : A -> M S B) s e s' :
  (m ≫= f) s = Raise e s' ->
  m s = Raise e s' \/ exists a s1, m s = Ok a s1 /\ f a s1 = Raise e s'.
Proof.
  unfold mbind, M_bind. destruct (m s) as [a s1|e1 s1|]; intros H;
    [right; eauto|left; injection H as <- <-; reflexivity|discriminate].
Qed.

Lemma stmt_unguarded n s s' :
  la_is s "id" || la_is s "print" = false -> stmt n s <> Ok tt s'.
Proof.
  intros Hg. apply orb_false_elim in Hg as [Hid Hpr].
  destruct n as [|n]; [discriminate|]. unfold stmt. rewrite Hid, Hpr. discriminate.
Qed.

(** When [stmt_list] raises, it has performed the statements of a program
    [p], whose values are the lines added, and the statement after them is
    the one that did not end. *)
Lemma stmt_list_halts n :
  forall env s e s',
    agrees env s -> Forall plain (upcoming s) -> stmt_list n s = Raise e s' ->
    exists p vs m s0,
      performed p n s (S m) s0
      /\ stmt_list (S m) s0 = Raise e s'
      /\ (forall s2, stmt m s0 <> Ok tt s2)
      /\ upcoming s = program_tokens p ++ upcoming s0
      /\ exec env p = Some vs
      /\ out s0 = out s ++ map render vs
      /\ out s' = out s0.
Proof.
  induction n as [|n IH]; intros env s e s' Hag Hpl H; [discriminate|].
  pose proof H as Hlist.
  cbn [stmt_list] in H. destruct (la_is s "id" || la_is s "print") eqn:Hg.
  - apply bind_raise_inv in H as [H|([] & s1 & H1 & H2)].
    + pose proof (RunnerFacts.stmt_post n s) as Hp. rewrite H in Hp. simpl in Hp.
      destruct Hp as [[_ Ho] _]. exists [], [], n, s.
      split_and!; try reflexivity.
      * constructor.
      * exact Hlist.
      * intros s2. rewrite H. discriminate.
      * simpl. now rewrite app_nil_r.
      * exact Ho.
    + destruct (stmt_sound _ _ _ _ Hag Hpl H1) as (c & Hc & Hdone).
      pose proof Hpl as Hpl1. rewrite Hc in Hpl1. apply RecognizerFacts.plain_rest in Hpl1.
      destruct c as [name x|x].
      * destruct Hdone as (w & Hw & Hag1 & Hout).
        destruct (IH _ _ _ _ Hag1 Hpl1 H2)
          as (p & vs & m & s0 & Hperf & Hhalt & Hnot & Hp & Hex & Hout0 & Hout').
        exists (Assign name x :: p), vs, m, s0. split_and!.
        -- now apply (performed_next _ _ _ _ s1).
        -- exact Hhalt.
        -- exact Hnot.
        -- unfold program_tokens in *. simpl. now rewrite Hc, Hp, <- !app_assoc.
        -- simpl. rewrite Hw. simpl. exact Hex.
        -- congruence.
        -- exact Hout'.
      * destruct Hdone as (w & Hw & Hag1 & Hout).
        destruct (IH _ _ _ _ Hag1 Hpl1 H2)
          as (p & vs & m & s0 & Hperf & Hhalt & Hnot & Hp & Hex & Hout0 & Hout').
        exists (Print x :: p), (w :: vs), m, s0. split_and!.
        -- now apply (performed_next _ _ _ _ s1).
        -- exact Hhalt.
        -- exact Hnot.
        -- unfold program_tokens in *. simpl. now rewrite Hc, Hp, <- !app_assoc.
        -- simpl. rewrite Hw. simpl. rewrite Hex. reflexivity.
        -- rewrite Hout0, Hout, <- app_assoc. reflexivity.
        -- exact Hout'.
  - destruct (la_none s); [discriminate|]. injection H as <- <-.
    exists [], [], n, s. split_and!; try reflexivity.
    + constructor.
    + exact Hlist.
    + intros s2. now apply stmt_unguarded.
    + simpl. now rewrite app_nil_r.
Qed.

(** When [parse] raises, either the first read of the scanner failed and
    nothing is printed, or [stmt_list] has performed the statements of a
    program at the head of the tokens, the lines printed are its values, and
    the statement after them is the one that did not end. *)
Lemma parse_halts sc e s' :
  Forall plain_token (Plex.pending sc) -> parse sc = Raise e s' ->
  (create_scanner sc init = Raise e s' /\ out s' = [])
  \/ exists s1 p vs m s0,
       create_scanner sc init = Ok tt s1
       /\ performed p (depth_for (length (Plex.pending sc))) s1 (S m) s0
       /\ stmt_list (S m) s0 = Raise e s'
       /\ (forall s2, stmt m s0 <> Ok tt s2)
       /\ lexemes sc = program_tokens p ++ upcoming s0
       /\ exec ∅ p = Some vs
       /\ out s0 = map render vs
       /\ out s' = map render vs.
Proof.
  intros Hpl H. pose proof (RunnerTotal.create_scanner_post sc) as Hcs. unfold parse in H.
  apply bind_raise_inv in H as [H|([] & s1 & H0 & H1)].
  - left. rewrite H in Hcs. destruct Hcs as (_ & _ & Hout & _). split; [exact H|exact Hout].
  - right. rewrite H0 in Hcs. destruct Hcs as (_ & Hst & Hout & Hread).
    apply RunnerCorrect.created_upcoming in Hread as [Hup _].
    assert (Hag : agrees ∅ s1) by (unfold agrees; rewrite fmap_empty; exact Hst).
    assert (Hpl1 : Forall plain (upcoming s1))
      by (rewrite Hup; unfold lexemes; apply Forall_map; exact Hpl).
    destruct (stmt_list_halts _ ∅ s1 e s' Hag Hpl1 H1)
      as (p & vs & m & s0 & Hperf & Hhalt & Hnot & Hp & Hex & Hout0 & Hout').
    exists s1, p, vs, m, s0. rewrite Hout in Hout0. simpl in Hout0.
    split_and!; try assumption; congruence.
Qed.

(** *** A program that has a reference value is well formed *)

Lemma lexical_binary d : lexical ("binary", d) -> binary_literal d = true.
Proof.
  unfold lexical. simpl. intros [[_ H]|[[H _]|[(H & _ & Hr)|[H Hin]]]].
  - exact H.
  - discriminate.
  - subst d. discriminate.
  - subst d. simpl in Hin. intuition discriminate.
Qed.

Lemma option_bind_is_some {A B} (o : option A) (f : A -> option B) :
  is_Some (o ≫= f) -> exists a, o = Some a /\ is_Some (f a).
Proof.
  destruct o as [a|]; simpl; [eauto|]. intros [? ?]. discriminate.
Qed.

Lemma evaluated_closed env :
  (forall e, Forall lexical (expr_tokens e) -> is_Some (eval_expr env e) ->
             expr_closed (dom env) e = true)
  /\ (forall xs, Forall lexical (term_tail_tokens xs) ->
                 (exists a, is_Some (eval_term_tail env a xs)) ->
                 term_tail_closed (dom env) xs = true)
  /\ (forall t, Forall lexical (term_tokens t) -> is_Some (eval_term env t) ->
                term_closed (dom env) t = true)
  /\ (forall fs, Forall lexical (factor_tail_tokens fs) ->
                 (exists a, is_Some (eval_factor_tail env a fs)) ->
                 factor_tail_closed (dom env) fs = true)
  /\ (forall f, Forall lexical (factor_tokens f) -> is_Some (eval_factor env f) ->
                factor_closed (dom env) f = true)
  /\ (forall os, Forall lexical (operand_tail_tokens os) ->
                 (exists a, is_Some (eval_operand_tail env a os)) ->
                 operand_tail_closed (dom env) os = true)
  /\ (forall o, Forall lexical (operand_tokens o) -> is_Some (eval_operand env o) ->
                operand_closed (dom env) o = true).
Proof.
  apply tree_mutind; simpl.
  - intros t IHt xs IHxs Hlex Hev. apply Forall_app in Hlex as [H1 H2].
    apply option_bind_is_some in Hev as (a & Ha & Hxs).
    rewrite IHt, IHxs; eauto; rewrite ?Ha, ?Hb; eauto.
  - reflexivity.
  - intros t IHt xs IHxs Hlex [a Hev]. apply Forall_cons in Hlex as [_ Hlex].
    apply Forall_app in Hlex as [H1 H2].
    apply option_bind_is_some in Hev as (b & Hb & Hxs).
    rewrite IHt, IHxs; eauto; rewrite ?Ha, ?Hb; eauto.
  - intros f IHf fs IHfs Hlex Hev. apply Forall_app in Hlex as [H1 H2].
    apply option_bind_is_some in Hev as (a & Ha & Hfs).
    rewrite IHf, IHfs; eauto; rewrite ?Ha, ?Hb; eauto.
  - reflexivity.
  - intros f IHf fs IHfs Hlex [a Hev]. apply Forall_cons in Hlex as [_ Hlex].
    apply Forall_app in Hlex as [H1 H2].
    apply option_bind_is_some in Hev as (b & Hb & Hfs).
    rewrite IHf, IHfs; eauto; rewrite ?Ha, ?Hb; eauto.
  - intros o IHo os IHos Hlex Hev. apply Forall_app in Hlex as [H1 H2].
    apply option_bind_is_some in Hev as (a & Ha & Hos).
    rewrite IHo, IHos; eauto; rewrite ?Ha, ?Hb; eauto.
  - reflexivity.
  - intros o IHo os IHos Hlex [a Hev]. apply Forall_cons in Hlex as [_ Hlex].
    apply Forall_app in Hlex as [H1 H2].
    apply option_bind_is_some in Hev as (b & Hb & Hos).
    rewrite IHo, IHos; eauto; rewrite ?Ha, ?Hb; eauto.
  - intros e IHe Hlex Hev. apply Forall_cons in Hlex as [_ Hlex].
    apply Forall_app in Hlex as [H1 _]. auto.
  - intros name _ Hev. apply bool_decide_eq_true. now apply elem_of_dom.
  - intros digits Hlex _. apply Forall_cons in Hlex as [H _]. now apply lexical_binary.
Qed.

Lemma executed_well_formed p :
  forall env vs, Forall lexical (program_tokens p) -> exec env p = Some vs ->
    well_formed (dom env) p = true.
Proof.
  induction p as [|c p IH]; intros env vs Hlex Hex; [reflexivity|].
  unfold program_tokens in Hlex. simpl in Hlex. apply Forall_app in Hlex as [Hc Hp].
  destruct c as [name e|e]; simpl in *.
  - apply Forall_cons in Hc as [_ Hc]. apply Forall_cons in Hc as [_ Hc].
    destruct (eval_expr env e) as [v|] eqn:Hv; [|discriminate]. simpl in Hex.
    rewrite (proj1 (evaluated_closed env) e Hc) by (rewrite Hv; eauto).
    rewrite <- (dom_insert_L env name v). simpl. now apply (IH _ vs).
  - apply Forall_cons in Hc as [_ Hc].
    destruct (eval_expr env e) as [v|] eqn:Hv; [|discriminate]. simpl in Hex.
    rewrite (proj1 (evaluated_closed env) e Hc) by (rewrite Hv; eauto).
    destruct (exec env p) as [vs'|] eqn:Hvs; [|discriminate].
    simpl. now apply (IH _ vs').
Qed.

End RunnerSound.

(** ** The lines printed *)

Module Lines.
Import Runner Reference.

Lemma int2_from_snoc u : forall acc c,
  int2_from acc (u +:+ String c "") = (2 * int2_from acc u + bit_value c)%Z.
Proof.
  induction u as [|d u IH]; intros acc c; [reflexivity|].
  change (String d u +:+ String c "") with (String d (u +:+ String c "")).
  cbn [int2_from]. apply IH.
Qed.

Lemma int2_bits p : int2 (bits p) = Zpos p.
Proof.
  unfold int2. induction p as [p IH|p IH|]; cbn [bits]; [| |reflexivity];
    rewrite int2_from_snoc, IH; reflexivity.
Qed.

Lemma bits_shape p : exists u, bits p = String "1" u /\ all_bits u = true.
Proof.
  induction p as [p (u & Hu & Hb)|p (u & Hu & Hb)|]; cbn [bits].
  - exists (u +:+ "1"). rewrite Hu. split; [reflexivity|].
    change (u +:+ "1") with (Plex.snoc u "1"). now rewrite PlexFacts.all_bits_snoc, Hb.
  - exists (u +:+ "0"). rewrite Hu. split; [reflexivity|].
    change (u +:+ "0") with (Plex.snoc u "0"). now rewrite PlexFacts.all_bits_snoc, Hb.
  - exists "". auto.
Qed.

Lemma format_unsigned z :
  (0 <= z)%Z ->
  int2 (format_b z) = z /\ binary_literal (format_b z) = true
  /\ minimal (format_b z) = format_b z.
Proof.
  intros Hz. destruct z as [|p|p]; [repeat split| |lia].
  cbn [format_b]. split; [apply int2_bits|].
  destruct (bits_shape p) as (u & -> & Hu). split.
  - simpl. exact Hu.
  - reflexivity.
Qed.

(** After any number of statements, whether the run goes on, returns or
    raises, the lines printed are unsigned integers in binary. *)
Lemma stmt_list_lines n :
  forall env s ws,
    agrees env s -> Forall plain (upcoming s) -> out s = map render ws ->
    post (stmt_list n s) (fun _ s' => exists ws', out s' = map render ws')
                         (fun _ s' => exists ws', out s' = map render ws').
Proof.
  induction n as [|n IH]; intros env s ws Hag Hpl Hout; [exact I|].
  cbn [stmt_list]. destruct (_ || _).
  - unfold mbind, M_bind.
    pose proof (RunnerFacts.stmt_post n s) as Hpost.
    destruct (stmt n s) as [[] s1|e s1|] eqn:E; simpl in Hpost |- *; [| |exact I].
    + destruct (RunnerSound.stmt_sound _ _ _ _ Hag Hpl E) as (c & Hc & Hdone).
      rewrite Hc in Hpl. apply RecognizerFacts.plain_rest in Hpl.
      destruct c as [name e|e]; destruct Hdone as (w & _ & Hag1 & Hout1).
      * apply (IH _ _ ws Hag1 Hpl). congruence.
      * apply (IH _ _ (ws ++ [w]) Hag1 Hpl). rewrite map_app, Hout1, Hout. reflexivity.
    + destruct Hpost as [[_ Ho] _]. exists ws. congruence.
  - destruct (la_none s); simpl; eauto.
Qed.

Lemma parse_lines sc :
  Forall plain_token (Plex.pending sc) ->
  post (parse sc) (fun _ s' => exists ws, out s' = map render ws)
                  (fun _ s' => exists ws, out s' = map render ws).
Proof.
  intros Hpl. pose proof (RunnerTotal.create_scanner_post sc) as Hcs. unfold parse.
  unfold mbind, M_bind.
  destruct (create_scanner sc init) as [[] s0|e s0|]; [| |exact I].
  - destruct Hcs as (_ & Hst & Hout & Hread).
    apply RunnerCorrect.created_upcoming in Hread as [Hup _].
    apply (stmt_list_lines _ ∅ s0 []).
    + unfold agrees. rewrite fmap_empty. exact Hst.
    + rewrite Hup. unfold lexemes. apply Forall_map. exact Hpl.
    + exact Hout.
  - simpl. exists []. tauto.
Qed.

Lemma render_numeral w : numeral (render w).
Proof.
  rewrite <- RunnerCorrect.format_render.
  destruct (format_unsigned (Z.of_N w)) as (_ & Hb & Hm); [lia|].
  split; assumption.
Qed.

Lemma rendered_numerals ws : Forall numeral (map render ws).
Proof.
  induction ws as [|w ws IH]; simpl; constructor; [apply render_numeral|exact IH].
Qed.

End Lines.

(** ** Where an error is reported *)

Module Located.
Import Runner.

Lemma fold_op_state op bs : forall a s,
  post (fold_op op a bs s) (fun _ s' => s' = s) (fun e s' => s' = s /\ e = TypeError).
Proof.
  induction bs as [|[b|] bs IH]; intros a s; simpl; auto.
Qed.

Section Kept.
Variable Inv : state -> Prop.
Variable E : exn -> state -> Prop.
Hypothesis match_keeps : forall token s, Inv s -> post (match_ token s) (fun _ s' => Inv s') E.
Hypothesis raise_keeps : forall e s, Inv s -> e <> PlexError -> E e s.

Ltac thru H :=
  eapply post_bind; [apply H; assumption | auto | cbv beta; intros ? ? ?].

Ltac folded :=
  eapply post_weaken; [apply fold_op_state | |]; cbv beta;
  [ intros ? ? ->; assumption
  | intros ? ? [-> ->]; apply raise_keeps; [assumption|discriminate] ].

Ltac raised := simpl; apply raise_keeps; [assumption|discriminate].

Lemma engine_kept n :
  forall s, Inv s ->
    post (expr n s) (fun _ s' => Inv s') E /\ post (term n s) (fun _ s' => Inv s') E
    /\ post (term_tail n s) (fun _ s' => Inv s') E
    /\ post (factor n s) (fun _ s' => Inv s') E
    /\ post (factor_tail n s) (fun _ s' => Inv s') E
    /\ post (operand n s) (fun _ s' => Inv s') E
    /\ post (operand_tail n s) (fun _ s' => Inv s') E.
Proof.
  induction n as [|n IH]; intros s Hs.
  { repeat split. }
  assert (IHe := fun s H => proj1 (IH s H)).
  assert (IHt := fun s H => proj1 (proj2 (IH s H))).
  assert (IHtt := fun s H => proj1 (proj2 (proj2 (IH s H)))).
  assert (IHf := fun s H => proj1 (proj2 (proj2 (proj2 (IH s H))))).
  assert (IHft := fun s H => proj1 (proj2 (proj2 (proj2 (proj2 (IH s H)))))).
  assert (IHo := fun s H => proj1 (proj2 (proj2 (proj2 (proj2 (proj2 (IH s H))))))).
  assert (IHot := fun s H => proj2 (proj2 (proj2 (proj2 (proj2 (proj2 (IH s H))))))).
  clear IH.
  repeat split_and.
  - cbn [expr]. destruct (la_in s _); [|raised]. thru IHt. thru IHtt. folded.
  - cbn [term]. destruct (la_in s _); [|raised]. thru IHf. thru IHft. folded.
  - cbn [term_tail]. destruct (la_is s "xor").
    + thru match_keeps. thru IHt. thru IHtt. assumption.
    + destruct (_ || _); [exact Hs|raised].
  - cbn [factor]. destruct (la_in s _); [|raised]. thru IHo. thru IHot. folded.
  - cbn [factor_tail]. destruct (la_is s "or").
    + thru match_keeps. thru IHf. thru IHft. assumption.
    + destruct (_ || _); [exact Hs|raised].
  - cbn [operand]. destruct (la_is s "id").
    { thru match_keeps. destruct a; simpl; first [assumption | raised]. }
    destruct (la_is s "binary").
    { thru match_keeps. destruct a; simpl; first [assumption | raised]. }
    destruct (la_is s "("); [|raised].
    thru match_keeps. thru IHe. thru match_keeps. assumption.
  - cbn [operand_tail]. destruct (la_is s "and").
    + thru match_keeps. thru IHo. thru IHot. assumption.
    + destruct (_ || _); [exact Hs|raised].
Qed.

Hypothesis view_keeps :
  forall s table lines, Inv s -> Inv (State (la s) (val s) (scanner s) table lines).

Lemma stmt_kept n s : Inv s -> post (stmt n s) (fun _ s' => Inv s') E.
Proof.
  intros Hs. destruct n as [|n]; [exact I|]. unfold stmt.
  assert (He : forall s, Inv s -> post (expr n s) (fun _ s' => Inv s') E)
    by (intros; now apply engine_kept).
  destruct (la_is s "id").
  - thru match_keeps. thru match_keeps. thru He. simpl. now apply view_keeps.
  - destruct (la_is s "print"); [|raised].
    thru match_keeps. thru He. simpl. now apply view_keeps.
Qed.

Lemma stmt_list_kept n : forall s, Inv s -> post (stmt_list n s) (fun _ s' => Inv s') E.
Proof.
  induction n as [|n IH]; intros s Hs; [exact I|].
  cbn [stmt_list]. destruct (_ || _).
  - thru stmt_kept. now apply IH.
  - destruct (la_none s); [exact Hs|raised].
Qed.

End Kept.

Lemma next_token_located sc s :
  Plex.finish (scanner s) = Plex.finish sc ->
  (exists before, Plex.pending sc = before ++ Plex.pending (scanner s)) ->
  post (next_token s)
    (fun p s' => located sc (State (fst p) (snd p) (scanner s') (st s') (out s')))
    (fun e s' => raised_at sc e s').
Proof.
  intros Hf [before Hb]. unfold next_token, Plex.read.
  destruct (Plex.pending (scanner s)) as [|t r] eqn:Hp.
  - destruct (Plex.finish (scanner s)) as [l c|l c] eqn:Hfin;
      unfold located, raised_at, position, Plex.position; simpl.
    + split; [congruence|]. split; [reflexivity|]. exists l, c. split; [congruence|reflexivity].
    + exists l, c. split; [congruence|reflexivity].
  - unfold located, position, Plex.position. simpl. split; [exact Hf|].
    exists before, t. auto.
Qed.

Lemma located_rest sc s :
  located sc s -> la s <> None ->
  exists before, Plex.pending sc = before ++ Plex.pending (scanner s).
Proof.
  intros [_ H] Hla. destruct (la s); [|contradiction].
  destruct H as (before & tok & H & _). exists (before ++ [tok]).
  now rewrite <- app_assoc.
Qed.

Lemma match_located sc token s :
  located sc s -> post (match_ token s) (fun _ s' => located sc s') (raised_at sc).
Proof.
  intros Hs. unfold match_. destruct (la_is s token) eqn:Hla; [|exact Hs].
  apply RunnerFacts.la_is_true in Hla.
  assert (Hev : exists a, evaluate s = Ok a s).
  { unfold evaluate. repeat destruct (la_is s _); eauto. }
  destruct Hev as [a Hev]. rewrite (bind_ok _ _ _ _ _ Hev).
  assert (Hrest : exists before, Plex.pending sc = before ++ Plex.pending (scanner s))
    by (apply located_rest; [exact Hs|congruence]).
  pose proof (next_token_located sc s (proj1 Hs) Hrest) as Hn.
  eapply post_bind; [exact Hn|auto|].
  cbv beta. intros p s1 H. exact H.
Qed.

(** Whatever [parse] raises, it raises at a definite place. *)
Lemma parse_located sc :
  post (parse sc) (fun _ s' => located sc s') (raised_at sc).
Proof.
  unfold parse.
  eapply post_bind with (Q' := fun _ s' => located sc s') (E' := raised_at sc).
  - unfold create_scanner, mbind at 1, M_bind at 1.
    pose proof (next_token_located sc (State (la init) (val init) sc (st init) (out init))
                  eq_refl (ex_intro _ [] eq_refl)) as Hn.
    eapply post_bind; [exact Hn|auto|].
    cbv beta. intros p s1 H. exact H.
  - auto.
  - intros _ s0 Hs0. apply (stmt_list_kept (located sc) (raised_at sc)).
    + intros token s Hs. now apply match_located.
    + intros e s Hs He. destruct e; [contradiction| | |]; exact Hs.
    + intros s table lines Hs. exact Hs.
    + exact Hs0.
Qed.

End Located.

(** ** The message of every syntax error *)

Module Diagnosis.
Import Runner RunnerFacts.












Tactic Notation "guarded" constr(Hg) "as" simple_intropattern(p) :=
  eapply post_bind; [apply match_post | | ];
  [ let H := fresh in
    intros ? ? [_ [[-> _]|(_ & _ & H)]];
    [exact I | exfalso; apply H; apply la_is_true; exact Hg]
  | cbv beta; intros ? ? p ].

Tactic Notation "called" constr(IH) "as" simple_intropattern(p) :=
  eapply post_bind; [apply IH | | ];
  [ let H := fresh in intros ? ? H; exact H
  | cbv beta; intros ? ? p ].

Ltac folded Hb Hvs :=
  rewrite (but_last_sentinel _ _ Hvs), fold_op_sentinel; simpl; exact Hb.







End Diagnosis.

(** ** Sample runs *)

Example precedence_and_over_or :
  Runner.main "print 1 and 0 or 1" = Finished ["1"].
Proof. vm_compute. reflexivity. Qed.

Example precedence_or_over_xor :
  Runner.main "print 1 or 1 xor 1" = Finished ["0"].
Proof. vm_compute. reflexivity. Qed.

Example parentheses_override :
  Runner.main "print (1 or 0) and 0" = Finished ["0"]
  /\ Runner.main "print 1 or 0 and 0" = Finished ["1"].
Proof. split; vm_compute; reflexivity. Qed.

Example assignment_then_print :
  Runner.main "x = 101 print x x = x xor 1 print x" = Finished ["101"; "100"].
Proof. vm_compute. reflexivity. Qed.

Example print_of_unassigned :
  Runner.main "print y"
  = Crashed [] (RuntimeError "variable 'y' referenced before assignment").
Proof. vm_compute. reflexivity. Qed.

Example comments_and_spaces_skipped :
  Runner.main "x={ a comment
over two lines }101   print{}x" = Finished ["101"].
Proof. vm_compute. reflexivity. Qed.

Example error_at_second_equals :
  Runner.main "x = = 1"
  = Finished ["Parser Error: in expr: id, binary or '(' expected at line 1 char 5"].
Proof. vm_compute. reflexivity. Qed.

Example match_names_found_and_expected :
  Runner.main "x 1"
  = Finished ["Parser Error: found binary instead of = at line 1 char 3"].
Proof. vm_compute. reflexivity. Qed.

Example unrecognized_character :
  Runner.main "print 1
print 1 or 2" = Finished ["1"; "Scanner Error: at line 2 char 12"].
Proof. vm_compute. reflexivity. Qed.

Example recognizer_accepts :
  Recognizer.main "x = 101 print x and (y or 1)" = Finished ["Done!"].
Proof. vm_compute. reflexivity. Qed.

Example recognizer_rejects :
  Recognizer.main "print 1 and and"
  = Finished ["Parser Error: in operand: id, binary or '(' expected at line 1 char 13";
              "Done!"].
Proof. vm_compute. reflexivity. Qed.

(** * The claims *)

(** C1. For every well-formed program built from binary literals and
    identifiers assigned by an earlier statement, read from a scanner that
    delivers its tokens and then ends, [parse] ends normally and the lines
    printed are, in order, the values that the reference evaluator computes
    for the print statements with AND, OR and XOR over unsigned integers of
    unbounded width (precedence and > or > xor, parentheses overriding it),
    each rendered in binary with the fewest digits. *)
Theorem printed_values_match_reference (p : list Reference.stmt_t) (sc : Plex.scanner) :
  Reference.well_formed ∅ p = true ->
  lexemes sc = Reference.program_tokens p ->
  ends_well sc ->
  exists vs s',
    Reference.exec ∅ p = Some vs
    /\ Runner.parse sc = Ok tt s'
    /\ Runner.out s' = map Reference.render vs
    /\ Runner.report (Runner.parse sc) = Finished (map Reference.render vs).
Proof.
  apply RunnerCorrect.parse_correct.
Qed.

Lemma printed_values_match_reference_witness :
  exists vs s',
    Reference.exec ∅
      [Reference.Assign "x"
         (Reference.Expr
            (Reference.Term
               (Reference.Factor (Reference.Binary "0101") Reference.NoAnd)
               Reference.NoOr)
            Reference.NoXor);
       Reference.Print
         (Reference.Expr
            (Reference.Term
               (Reference.Factor (Reference.Id "x")
                  (Reference.And (Reference.Binary "110") Reference.NoAnd))
               (Reference.Or
                  (Reference.Factor
                     (Reference.Paren
                        (Reference.Expr
                           (Reference.Term
                              (Reference.Factor (Reference.Binary "1") Reference.NoAnd)
                              Reference.NoOr)
                           (Reference.Xor
                              (Reference.Term
                                 (Reference.Factor (Reference.Id "x") Reference.NoAnd)
                                 Reference.NoOr)
                              Reference.NoXor)))
                     Reference.NoAnd)
                  Reference.NoOr))
            (Reference.Xor
               (Reference.Term
                  (Reference.Factor (Reference.Binary "10000") Reference.NoAnd)
                  Reference.NoOr)
               Reference.NoXor))] = Some vs
    /\ Runner.parse (Plex.open "x = 0101 print x and 110 or (1 xor x) xor 10000") = Ok tt s'
    /\ Runner.out s' = map Reference.render vs
    /\ Runner.report (Runner.parse (Plex.open "x = 0101 print x and 110 or (1 xor x) xor 10000"))
       = Finished (map Reference.render vs).
Proof.
  apply printed_values_match_reference.
  - vm_compute. reflexivity.
  - vm_compute. reflexivity.
  - exists 1, 47. vm_compute. reflexivity.
Defined.

(** C2, as stated, fails: the identifier that [operand] consumes is looked
    up before the next lookahead is read, and the check for [None] comes
    after; in [print y $] the character after the undefined [y] cannot be
    scanned, and the run ends with the scanner's error. *)
Lemma undefined_identifier_before_bad_character :
  Runner.main "print y $" = Finished ["Scanner Error: at line 1 char 9"]
  /\ ~ (forall n s,
          Runner.la s = Some "id" -> Runner.st s !! Runner.val s = None ->
          exists s', Runner.operand (S n) s = Raise (Runner.undefined (Runner.val s)) s').
Proof.
  split; [vm_compute; reflexivity|].
  intros H. destruct (H 0 (started "y $" ∅)) as [s' Hs'].
  - reflexivity.
  - vm_compute. reflexivity.
  - vm_compute in Hs'. discriminate.
Qed.

(** C2, amended. When the lookahead is an identifier that has no value in
    the symbol table, [operand] never returns a value for it: it raises the
    undefined-identifier error, a [RuntimeError] and so no [ParseError], when
    the scanner delivers the next lookahead or the end of input, and the
    scanner's error when it cannot. *)
Theorem undefined_identifier_raises (n : nat) (s : Runner.state) :
  Runner.la s = Some "id" ->
  Runner.st s !! Runner.val s = None ->
  (forall v s', Runner.operand (S n) s <> Ok v s')
  /\ (forall msg, Runner.undefined (Runner.val s) <> ParseError msg)
  /\ match Plex.read (Runner.scanner s) with
     | inl (p, sc) =>
         Runner.operand (S n) s
         = Raise (Runner.undefined (Runner.val s))
             (Runner.State (fst p) (snd p) sc (Runner.st s) (Runner.out s))
     | inr sc =>
         Runner.operand (S n) s
         = Raise PlexError
             (Runner.State (Runner.la s) (Runner.val s) sc (Runner.st s) (Runner.out s))
     end.
Proof.
  intros Hla Hst.
  assert (Hop : Runner.operand (S n) s
                = (a ← Runner.match_ "id";
                   match a with
                   | Runner.PyNone => raise (Runner.undefined (Runner.val s))
                   | _ => Runner.as_int a
                   end) s).
  { cbn [Runner.operand]. unfold Runner.la_is at 1. rewrite Hla. reflexivity. }
  assert (Hm : Runner.match_ "id" s
               = match Plex.read (Runner.scanner s) with
                 | inl (p, sc) =>
                     Ok Runner.PyNone
                       (Runner.State (fst p) (snd p) sc (Runner.st s) (Runner.out s))
                 | inr sc =>
                     Raise PlexError
                       (Runner.State (Runner.la s) (Runner.val s) sc (Runner.st s)
                          (Runner.out s))
                 end).
  { unfold Runner.match_, Runner.la_is. rewrite Hla. simpl.
    rewrite (bind_ok _ _ _ _ _ (RunnerFacts.evaluate_id s Hla)), Hst.
    unfold mbind, M_bind, Runner.next_token.
    destruct (Plex.read (Runner.scanner s)) as [[p sc]|sc]; rewrite ?Hla; reflexivity. }
  rewrite Hop. unfold mbind at 1 2 3. unfold M_bind at 1 2 3. rewrite Hm.
  destruct (Plex.read (Runner.scanner s)) as [[p sc]|sc]; simpl;
    repeat split; try discriminate; reflexivity.
Qed.

Lemma undefined_identifier_raises_witness :
  Runner.la (started "y" ∅) = Some "id"
  /\ Runner.st (started "y" ∅) !! Runner.val (started "y" ∅) = None
  /\ Runner.operand 1 (started "y" ∅)
     = Raise (RuntimeError "variable 'y' referenced before assignment")
         (Runner.State None "" (Plex.Scanner [] (Plex.EndOfFile 1 1) 1 1) ∅ []).
Proof.
  assert (Hla : Runner.la (started "y" ∅) = Some "id") by reflexivity.
  assert (Hst : Runner.st (started "y" ∅) !! Runner.val (started "y" ∅) = None)
    by (vm_compute; reflexivity).
  split; [exact Hla|]. split; [exact Hst|].
  exact (proj2 (proj2 (undefined_identifier_raises 0 (started "y" ∅) Hla Hst))).
Defined.

(** C3. Assigning a binary literal to a variable and printing the variable
    at once prints the literal without its leading zeros, the binary text of
    its value with the fewest digits: for every literal [digits] and every
    identifier, on a scanner that delivers the five tokens of the two
    statements and then ends, the one line printed is [minimal digits]; it is
    ["0"] when the value of the literal is zero. *)
Theorem literal_round_trip (name digits : string) (sc : Plex.scanner) :
  Reference.binary_literal digits = true ->
  lexemes sc = [("id", name); ("=", "="); ("binary", digits);
                ("print", "print"); ("id", name)] ->
  ends_well sc ->
  exists s',
    Runner.parse sc = Ok tt s'
    /\ Runner.out s' = [minimal digits]
    /\ minimal digits = format_b (int2 digits)
    /\ (int2 digits = 0%Z -> Runner.out s' = ["0"]).
Proof.
  intros Hd Hlex Hend.
  pose (lit := Reference.Expr
                 (Reference.Term
                    (Reference.Factor (Reference.Binary digits) Reference.NoAnd)
                    Reference.NoOr)
                 Reference.NoXor).
  pose (var := Reference.Expr
                 (Reference.Term
                    (Reference.Factor (Reference.Id name) Reference.NoAnd)
                    Reference.NoOr)
                 Reference.NoXor).
  destruct (RunnerCorrect.parse_correct [Reference.Assign name lit; Reference.Print var] sc)
    as (vs & s' & Hex & Hp & Hout & _); [|exact Hlex|exact Hend|].
  { simpl. rewrite Hd. simpl. rewrite bool_decide_eq_true_2; [reflexivity|].
    apply elem_of_union_l, elem_of_singleton. reflexivity. }
  simpl in Hex. rewrite lookup_insert_eq in Hex. simpl in Hex. injection Hex as <-.
  simpl in Hout. rewrite (RunnerCorrect.render_binary_value _ Hd) in Hout.
  assert (Hmin : minimal digits = format_b (int2 digits)).
  { rewrite RunnerCorrect.int2_value, RunnerCorrect.format_render.
    symmetry. now apply RunnerCorrect.render_binary_value. }
  exists s'. repeat split; try assumption.
  intros Hz. rewrite Hout, Hmin, Hz. reflexivity.
Qed.

Lemma literal_round_trip_witness :
  Reference.binary_literal "0101" = true
  /\ lexemes (Plex.open "x = 0101 print x")
     = [("id", "x"); ("=", "="); ("binary", "0101"); ("print", "print"); ("id", "x")]
  /\ ends_well (Plex.open "x = 0101 print x")
  /\ exists s',
       Runner.parse (Plex.open "x = 0101 print x") = Ok tt s'
       /\ Runner.out s' = ["101"]
       /\ "101" = format_b (int2 "0101")
       /\ (int2 "0101" = 0%Z -> Runner.out s' = ["0"]).
Proof.
  assert (Hd : Reference.binary_literal "0101" = true) by reflexivity.
  assert (Hl : lexemes (Plex.open "x = 0101 print x")
               = [("id", "x"); ("=", "="); ("binary", "0101"); ("print", "print"); ("id", "x")])
    by (vm_compute; reflexivity).
  assert (He : ends_well (Plex.open "x = 0101 print x"))
    by (exists 1, 16; vm_compute; reflexivity).
  split; [exact Hd|]. split; [exact Hl|]. split; [exact He|].
  exact (literal_round_trip "x" "0101" (Plex.open "x = 0101 print x") Hd Hl He).
Defined.

(** C4, on the code. The scanner takes [PRINT] for the keyword, not for an
    identifier, but hands the parser the text it matched as the token kind;
    the parser compares the kind with ['print'] and rejects the program that
    it accepts in lower case. *)
Theorem uppercase_print_rejected :
  Plex.scan Plex.Idle 1 0 "PRINT" = ([Plex.Token "PRINT" "PRINT" 1 0], Plex.EndOfFile 1 5)
  /\ Plex.scan Plex.Idle 1 0 "print" = ([Plex.Token "print" "print" 1 0], Plex.EndOfFile 1 5)
  /\ Runner.main "print 1" = Finished ["1"]
  /\ Runner.main "PRINT 1"
     = Finished ["Parser Error: in stmt_list: id or print expected at line 1 char 1"]
  /\ Runner.main "x = 1 Print x"
     = Finished ["Parser Error: in operand_tail: or expected at line 1 char 7"].
Proof.
  repeat split; vm_compute; reflexivity.
Qed.

(** C5. An assignment that ends normally has matched the identifier and
    [=], evaluated the expression to a value [v], and stored [v] under the
    identifier: the new table is the old one with that binding added or
    overwritten, other identifiers keep theirs, no line already printed
    changes and none is added, the statements after it run on the new table,
    and there every read of the identifier, while the table is as the
    assignment left it, returns [v]. *)
Theorem assignment_binds_identifier (n : nat) (s s' : Runner.state) :
  Runner.la s = Some "id" ->
  Runner.stmt n s = Ok tt s' ->
  exists v n' x s1 y s2 s3,
    n = S n'
    /\ Runner.match_ "id" s = Ok x s1
    /\ Runner.match_ "=" s1 = Ok y s2
    /\ Runner.expr n' s2 = Ok v s3
    /\ Runner.st s' = <[Runner.val s := v]> (Runner.st s)
    /\ Runner.st s' !! Runner.val s = Some v
    /\ (forall name, name <> Runner.val s -> Runner.st s' !! name = Runner.st s !! name)
    /\ Runner.out s' = Runner.out s
    /\ Runner.stmt_list (S n) s = Runner.stmt_list n s'
    /\ (forall later,
          Runner.la later = Some "id" -> Runner.val later = Runner.val s ->
          Runner.st later = Runner.st s' ->
          Runner.evaluate later = Ok (Runner.PyInt v) later).
Proof.
  intros Hla Hstmt. destruct n as [|n']; [discriminate|].
  assert (Hlist : Runner.stmt_list (S (S n')) s
                  = (Runner.stmt (S n') ;; Runner.stmt_list (S n')) s).
  { cbn [Runner.stmt_list]. unfold Runner.la_is at 1. rewrite Hla. reflexivity. }
  rewrite (bind_ok _ _ _ _ _ Hstmt) in Hlist.
  unfold Runner.stmt in Hstmt. unfold Runner.la_is at 1 in Hstmt. rewrite Hla in Hstmt.
  simpl in Hstmt. unfold mbind at 1, M_bind at 1 in Hstmt.
  pose proof (RunnerFacts.match_post "id" s) as H1.
  destruct (Runner.match_ "id" s) as [x s1| |] eqn:E1; try discriminate.
  unfold mbind at 1, M_bind at 1 in Hstmt.
  pose proof (RunnerFacts.match_post "=" s1) as H2.
  destruct (Runner.match_ "=" s1) as [y s2| |] eqn:E2; try discriminate.
  unfold mbind at 1, M_bind at 1 in Hstmt.
  pose proof (RunnerFacts.expr_post n' s2) as H3. unfold value_post in H3.
  destruct (Runner.expr n' s2) as [v s3| |] eqn:E3; try discriminate.
  injection Hstmt as <-. simpl in H1, H2, H3.
  destruct H1 as ([Hs1 Ho1] & _), H2 as ([Hs2 Ho2] & _), H3 as [Hs3 Ho3].
  assert (Hst : <[Runner.val s := v]> (Runner.st s3) = <[Runner.val s := v]> (Runner.st s))
    by congruence.
  exists v, n', x, s1, y, s2, s3. simpl. rewrite Hst.
  split_and!; try reflexivity; try assumption.
  - apply lookup_insert_eq.
  - intros name Hne. apply lookup_insert_ne. congruence.
  - congruence.
  - simpl in Hlist. rewrite Hst in Hlist. exact Hlist.
  - intros later Hl Hv Ht. rewrite (RunnerFacts.evaluate_id _ Hl), Ht, Hv.
    rewrite lookup_insert_eq. reflexivity.
Qed.

Lemma assignment_binds_identifier_witness :
  Runner.la (started "x = 110 and 011 print x" {["x" := 1%Z]}) = Some "id"
  /\ Runner.stmt 9 (started "x = 110 and 011 print x" {["x" := 1%Z]})
     = Ok tt (end_state (Runner.stmt 9 (started "x = 110 and 011 print x" {["x" := 1%Z]}))
                Runner.init)
  /\ Runner.out (end_state (Runner.stmt 9 (started "x = 110 and 011 print x" {["x" := 1%Z]}))
                   Runner.init)
     = Runner.out (started "x = 110 and 011 print x" {["x" := 1%Z]}).
Proof.
  assert (Hla : Runner.la (started "x = 110 and 011 print x" {["x" := 1%Z]}) = Some "id")
    by reflexivity.
  assert (Hst : Runner.stmt 9 (started "x = 110 and 011 print x" {["x" := 1%Z]})
                = Ok tt (end_state
                           (Runner.stmt 9 (started "x = 110 and 011 print x" {["x" := 1%Z]}))
                           Runner.init)).
  { vm_compute. reflexivity. }
  split; [exact Hla|]. split; [exact Hst|].
  destruct (assignment_binds_identifier 9 _ _ Hla Hst)
    as (v & n' & x & s1 & y & s2 & s3 & _ & _ & _ & _ & _ & _ & _ & Hout & _).
  exact Hout.
Defined.

(** C6. The symbol table of a new parser object is empty, and is still
    empty when the first lookahead has been read. Evaluating an expression
    and executing a print statement leave the table as it was, whether they
    return or raise. *)
Theorem table_changed_only_by_assignment (n : nat) (s s' : Runner.state) (sc : Plex.scanner) :
  Runner.st Runner.init = ∅
  /\ (ends_in (Runner.create_scanner sc Runner.init) s' -> Runner.st s' = ∅)
  /\ (ends_in (Runner.expr n s) s' -> Runner.st s' = Runner.st s)
  /\ (Runner.la s = Some "print" -> ends_in (Runner.stmt n s) s' ->
      Runner.st s' = Runner.st s).
Proof.
  split_and!.
  - reflexivity.
  - pose proof (RunnerTotal.create_scanner_post sc) as H.
    destruct (Runner.create_scanner sc Runner.init); simpl;
      [intros <-; tauto|intros <-; tauto|tauto].
  - pose proof (RunnerFacts.expr_post n s) as H. unfold value_post, same_store in H.
    destruct (Runner.expr n s); simpl in *; [intros <-; tauto|intros <-; tauto|tauto].
  - intros Hla.
    pose proof (RunnerFacts.stmt_post n s) as H. unfold stmt_done, same_store in H.
    destruct (Runner.stmt n s); simpl in *; [|intros <-; tauto|tauto].
    intros <-. destruct H as [(Hid & _)|(_ & Hst & _)]; [congruence|exact Hst].
Qed.

Lemma table_changed_only_by_assignment_witness :
  ends_in (Runner.create_scanner (Plex.open "print 1") Runner.init) (started "print 1" ∅)
  /\ Runner.st (started "print 1" ∅) = ∅
  /\ Runner.la (started "print x or 10" {["x" := 1%Z]}) = Some "print"
  /\ ends_in (Runner.stmt 9 (started "print x or 10" {["x" := 1%Z]}))
       (end_state (Runner.stmt 9 (started "print x or 10" {["x" := 1%Z]})) Runner.init)
  /\ Runner.st (end_state (Runner.stmt 9 (started "print x or 10" {["x" := 1%Z]})) Runner.init)
     = Runner.st (started "print x or 10" {["x" := 1%Z]}).
Proof.
  assert (H1 : ends_in (Runner.create_scanner (Plex.open "print 1") Runner.init)
                 (started "print 1" ∅)) by (vm_compute; reflexivity).
  assert (H2 : Runner.la (started "print x or 10" {["x" := 1%Z]}) = Some "print")
    by reflexivity.
  assert (H3 : ends_in (Runner.stmt 9 (started "print x or 10" {["x" := 1%Z]}))
                 (end_state (Runner.stmt 9 (started "print x or 10" {["x" := 1%Z]}))
                    Runner.init)) by (vm_compute; reflexivity).
  split; [exact H1|].
  split; [exact (proj1 (proj2 (table_changed_only_by_assignment 0 Runner.init _ _)) H1)|].
  split; [exact H2|]. split; [exact H3|].
  exact (proj2 (proj2 (proj2 (table_changed_only_by_assignment 9 _ _ (Plex.open ""))))
           H2 H3).
Defined.






(** C9. The recognizer and the evaluating engine accept the same token
    streams: on every scanner on which the evaluating engine does not stop on
    an undefined identifier, the parse of [parser.py] raises a [ParseError]
    exactly when the parse of [runner.py] does, and returns exactly when it
    does. *)
Theorem engines_accept_same_streams (sc : Plex.scanner) :
  (forall var s, Runner.parse sc <> Raise (Runner.undefined var) s) ->
  ((exists msg s, Recognizer.parse sc = Raise (ParseError msg) s)
   <-> (exists msg s, Runner.parse sc = Raise (ParseError msg) s))
  /\ ((exists s, Recognizer.parse sc = Ok tt s) <-> (exists s, Runner.parse sc = Ok tt s)).
Proof.
  intros Hdef.
  pose proof (Equivalence.parse_simulates sc) as Hsim.
  pose proof (parse_post sc) as Hpost.
  destruct (Runner.parse sc) as [[] s|e s|]; simpl in *.
  - destruct Hsim as [[] ->]. split; split; intros H.
    + destruct H as (? & ? & ?). discriminate.
    + destruct H as (? & ? & ?). discriminate.
    + eauto.
    + eauto.
  - destruct Hpost as [->|[[var ->]|(m & -> & _)]].
    + rewrite Hsim. split; split.
      * intros (? & ? & H). discriminate.
      * intros (? & ? & H). discriminate.
      * intros (? & H). discriminate.
      * intros (? & H). discriminate.
    + exfalso. apply (Hdef var s). reflexivity.
    + destruct Hsim as [m' ->]. split; split; intros H.
      * eauto.
      * eauto.
      * destruct H. discriminate.
      * destruct H. discriminate.
  - rewrite Hsim. split; split.
    + intros (? & ? & H). discriminate.
    + intros (? & ? & H). discriminate.
    + intros (? & H). discriminate.
    + intros (? & H). discriminate.
Qed.

Lemma engines_accept_same_streams_witness :
  (forall var s, Runner.parse (Plex.open "x = 1 print x and )") <> Raise (Runner.undefined var) s)
  /\ (exists msg s, Recognizer.parse (Plex.open "x = 1 print x and )") = Raise (ParseError msg) s).
Proof.
  assert (H : forall var s, Runner.parse (Plex.open "x = 1 print x and )")
                            <> Raise (Runner.undefined var) s).
  { intros var s. vm_compute. discriminate. }
  split; [exact H|].
  apply (proj1 (engines_accept_same_streams _ H)).
  eexists. eexists. vm_compute. reflexivity.
Defined.

(** C10. An assignment whose evaluation raises an exception, of any kind and
    at any point after the identifier, leaves the symbol table as it was: the
    identifier keeps the value it had, or stays without one. *)
Theorem failed_assignment_keeps_table (n : nat) (s s' : Runner.state) (e : exn) :
  Runner.la s = Some "id" ->
  Runner.stmt n s = Raise e s' ->
  Runner.st s' = Runner.st s
  /\ Runner.st s' !! Runner.val s = Runner.st s !! Runner.val s.
Proof.
  intros _ Hstmt. pose proof (RunnerFacts.stmt_post n s) as H.
  rewrite Hstmt in H. simpl in H. destruct H as [[Hst _] _].
  split; [exact Hst|now rewrite Hst].
Qed.

Lemma failed_assignment_keeps_table_witness :
  Runner.la (started "x = 11 and y" {["x" := 1%Z]}) = Some "id"
  /\ Runner.stmt 9 (started "x = 11 and y" {["x" := 1%Z]})
     = Raise (RuntimeError "variable 'y' referenced before assignment")
         (end_state (Runner.stmt 9 (started "x = 11 and y" {["x" := 1%Z]})) Runner.init)
  /\ Runner.st (end_state (Runner.stmt 9 (started "x = 11 and y" {["x" := 1%Z]})) Runner.init)
     = Runner.st (started "x = 11 and y" {["x" := 1%Z]}).
Proof.
  assert (H1 : Runner.la (started "x = 11 and y" {["x" := 1%Z]}) = Some "id") by reflexivity.
  assert (H2 : Runner.stmt 9 (started "x = 11 and y" {["x" := 1%Z]})
               = Raise (RuntimeError "variable 'y' referenced before assignment")
                   (end_state (Runner.stmt 9 (started "x = 11 and y" {["x" := 1%Z]}))
                      Runner.init)) by (vm_compute; reflexivity).
  split; [exact H1|]. split; [exact H2|].
  exact (proj1 (failed_assignment_keeps_table 9 _ _ _ H1 H2)).
Defined.

(** * Further properties of the two programs *)

Ltac lexical_by_evaluation :=
  repeat first
    [ apply List.Forall_nil
    | apply List.Forall_cons;
      [ unfold lexical; simpl;
        first [ left; split; reflexivity
              | right; left; split_and!; reflexivity
              | right; right; left; split_and!; reflexivity
              | right; right; right; split; [reflexivity | simpl; tauto] ]
      | ] ].

(** X1. Every token that the scanner built by [create_scanner] delivers, on
    any text, is of one of four shapes: kind [binary] with a lexeme of one or
    more of the characters 0 and 1; kind [id] with a lexeme that is a letter
    followed by letters and digits and is none of [and], [or], [xor] and, in
    any case of letters, [print]; a kind equal to its lexeme, one of those
    reserved words; or a kind equal to its lexeme, one of [=], [(] and [)]. *)
Theorem scanned_tokens_are_lexical (text : string) :
  Forall lexical_token (Plex.pending (Plex.open text)).
Proof.
  apply Lexicon.open_lexical.
Qed.

(** X2. Every list of tokens of those four shapes is delivered by the
    scanner: on the lexemes written one after the other with a space after
    each, the scanner delivers exactly these kinds and lexemes, and the input
    ends without a lexical error. *)
Theorem spelled_tokens_scan_back (ks : list (string * string)) :
  Forall lexical ks ->
  lexemes (Plex.open (spell ks)) = ks /\ ends_well (Plex.open (spell ks)).
Proof.
  apply Spelling.open_spell.
Qed.

Lemma spelled_tokens_scan_back_witness :
  lexemes (Plex.open (spell [("id", "total1"); ("=", "="); ("(", "("); ("binary", "0110");
                             ("xor", "xor"); ("id", "android"); (")", ")");
                             ("print", "print"); ("id", "total1")]))
  = [("id", "total1"); ("=", "="); ("(", "("); ("binary", "0110");
     ("xor", "xor"); ("id", "android"); (")", ")");
     ("print", "print"); ("id", "total1")]
  /\ ends_well (Plex.open (spell [("id", "total1"); ("=", "="); ("(", "("); ("binary", "0110");
                                  ("xor", "xor"); ("id", "android"); (")", ")");
                                  ("print", "print"); ("id", "total1")])).
Proof.
  apply spelled_tokens_scan_back. lexical_by_evaluation.
Defined.

(** X3. The outcome of [parse] in [runner.py] does not depend on where the
    tokens stand in the text: on two scanners that deliver the same kinds and
    lexemes and end alike, both runs return, or both raise the same
    exception, with the same lines printed, the same symbol table and the
    same lookahead. Positions are read by the handlers of the main part
    only. *)
Theorem outcome_ignores_positions (sc sc' : Plex.scanner) :
  lexemes sc = lexemes sc' ->
  (ends_well sc <-> ends_well sc') ->
  same_outcome (Runner.parse sc) (Runner.parse sc').
Proof.
  apply Placeless.parse_same.
Qed.

Lemma outcome_ignores_positions_witness :
  same_outcome (Runner.parse (Plex.open "x = 11 print x and 10 print y"))
               (Runner.parse (Plex.open "x=11
  print x and{mask}10
print    y")).
Proof.
  apply outcome_ignores_positions.
  - vm_compute. reflexivity.
  - split; intros _.
    + exists 3, 10. vm_compute. reflexivity.
    + exists 1, 29. vm_compute. reflexivity.
Defined.

(** X4. A comment that stands outside any other comment can be replaced by
    one space, anywhere in a text: the scanner delivers the same kinds and
    lexemes and ends alike, and the run of [runner.py] has the same outcome,
    positions apart. *)
Theorem comment_reads_as_space (pre body rest : string) :
  in_comment false pre = false ->
  brace_free body = true ->
  lexemes (Plex.open (pre +:+ String "{" (body +:+ String "}" rest)))
  = lexemes (Plex.open (pre +:+ String " " rest))
  /\ (ends_well (Plex.open (pre +:+ String "{" (body +:+ String "}" rest)))
      <-> ends_well (Plex.open (pre +:+ String " " rest)))
  /\ same_outcome (Runner.parse (Plex.open (pre +:+ String "{" (body +:+ String "}" rest))))
                  (Runner.parse (Plex.open (pre +:+ String " " rest))).
Proof.
  intros Hpre Hbody.
  destruct (Spelling.look_open _ _ (Spelling.comment_anywhere pre body rest Hpre Hbody))
    as [Hlex Hend].
  split_and!; [exact Hlex|exact Hend|].
  now apply Placeless.parse_same.
Qed.

Lemma comment_reads_as_space_witness :
  lexemes (Plex.open ("x = 1{one} print" +:+ String "{" (" the value
of x " +:+ String "}" "x")))
  = lexemes (Plex.open ("x = 1{one} print" +:+ String " " "x"))
  /\ (ends_well (Plex.open ("x = 1{one} print" +:+ String "{" (" the value
of x " +:+ String "}" "x")))
      <-> ends_well (Plex.open ("x = 1{one} print" +:+ String " " "x")))
  /\ same_outcome
       (Runner.parse (Plex.open ("x = 1{one} print" +:+ String "{" (" the value
of x " +:+ String "}" "x"))))
       (Runner.parse (Plex.open ("x = 1{one} print" +:+ String " " "x"))).
Proof.
  apply comment_reads_as_space; reflexivity.
Defined.

(** X5. Two characters of white space in a row (space, tab or newline) read
    as the first alone, anywhere in a text, inside a comment or outside: the
    scanner delivers the same kinds and lexemes and ends alike, and the run
    of [runner.py] has the same outcome, positions apart. *)
Theorem blanks_read_as_one (pre : string) (c1 c2 : ascii) (rest : string) :
  Plex.is_space c1 = true ->
  Plex.is_space c2 = true ->
  lexemes (Plex.open (pre +:+ String c1 (String c2 rest)))
  = lexemes (Plex.open (pre +:+ String c1 rest))
  /\ (ends_well (Plex.open (pre +:+ String c1 (String c2 rest)))
      <-> ends_well (Plex.open (pre +:+ String c1 rest)))
  /\ same_outcome (Runner.parse (Plex.open (pre +:+ String c1 (String c2 rest))))
                  (Runner.parse (Plex.open (pre +:+ String c1 rest))).
Proof.
  intros H1 H2.
  destruct (Spelling.look_open _ _ (Spelling.spaces_anywhere pre c1 c2 rest H1 H2))
    as [Hlex Hend].
  split_and!; [exact Hlex|exact Hend|].
  now apply Placeless.parse_same.
Qed.

Lemma blanks_read_as_one_witness :
  lexemes (Plex.open ("print" +:+ String " " (String "010" "1 or 10")))
  = lexemes (Plex.open ("print" +:+ String " " "1 or 10"))
  /\ (ends_well (Plex.open ("print" +:+ String " " (String "010" "1 or 10")))
      <-> ends_well (Plex.open ("print" +:+ String " " "1 or 10")))
  /\ same_outcome (Runner.parse (Plex.open ("print" +:+ String " " (String "010" "1 or 10"))))
                  (Runner.parse (Plex.open ("print" +:+ String " " "1 or 10"))).
Proof.
  apply blanks_read_as_one; reflexivity.
Defined.

(** X6. From text to output: for every well-formed program whose tokens are
    of the four shapes of the lexicon, the main part of [runner.py], run on
    the lexemes of the program written with a space after each, prints
    exactly the values of the reference evaluator for the print statements,
    in order, and no error line. *)
Theorem program_text_prints_values (p : list Reference.stmt_t) :
  Reference.well_formed ∅ p = true ->
  Forall lexical (Reference.program_tokens p) ->
  exists vs,
    Reference.exec ∅ p = Some vs
    /\ Runner.main (spell (Reference.program_tokens p)) = Finished (map Reference.render vs).
Proof.
  intros Hwf Hlex.
  destruct (Spelling.open_spell _ Hlex) as [Htokens Hend].
  destruct (RunnerCorrect.parse_correct p _ Hwf Htokens Hend) as (vs & s' & Hex & _ & _ & Hrep).
  exists vs. split; [exact Hex|exact Hrep].
Qed.

Lemma program_text_prints_values_witness :
  exists vs,
    Reference.exec ∅
      [Reference.Assign "a"
         (Reference.Expr
            (Reference.Term
               (Reference.Factor (Reference.Binary "1100") Reference.NoAnd)
               Reference.NoOr)
            Reference.NoXor);
       Reference.Print
         (Reference.Expr
            (Reference.Term
               (Reference.Factor (Reference.Id "a")
                  (Reference.And (Reference.Binary "0110") Reference.NoAnd))
               Reference.NoOr)
            (Reference.Xor
               (Reference.Term
                  (Reference.Factor (Reference.Binary "1") Reference.NoAnd)
                  Reference.NoOr)
               Reference.NoXor))] = Some vs
    /\ Runner.main
         (spell (Reference.program_tokens
            [Reference.Assign "a"
               (Reference.Expr
                  (Reference.Term
                     (Reference.Factor (Reference.Binary "1100") Reference.NoAnd)
                     Reference.NoOr)
                  Reference.NoXor);
             Reference.Print
               (Reference.Expr
                  (Reference.Term
                     (Reference.Factor (Reference.Id "a")
                        (Reference.And (Reference.Binary "0110") Reference.NoAnd))
                     Reference.NoOr)
                  (Reference.Xor
                     (Reference.Term
                        (Reference.Factor (Reference.Binary "1") Reference.NoAnd)
                        Reference.NoOr)
                     Reference.NoXor))]))
       = Finished (map Reference.render vs).
Proof.
  apply program_text_prints_values.
  - vm_compute. reflexivity.
  - unfold Reference.program_tokens. simpl. lexical_by_evaluation.
Defined.

(** X7. [parser.py] accepts exactly the language of the grammar in its
    docstring: on any text, its main part prints [Done!] and nothing before
    it if and only if the text scans to its end without a lexical error and
    the tokens are those of a derivation of [Stmt_list]. *)
Theorem recognizer_accepts_the_grammar (text : string) :
  Recognizer.main text = Finished ["Done!"]
  <-> (ends_well (Plex.open text)
       /\ exists p, lexemes (Plex.open text) = Reference.program_tokens p).
Proof.
  unfold Recognizer.main. split.
  - intros Hmain.
    destruct (Recognizer.parse (Plex.open text)) as [[] s|e s|] eqn:Hparse.
    + apply (RecognizerFacts.parse_derives _ tt s); [apply Lexicon.open_plain|exact Hparse].
    + destruct e; simpl in Hmain; discriminate.
    + discriminate.
  - intros [Hend [p Htokens]].
    destruct (RecognizerFacts.parse_accepts p _ Htokens Hend) as [s' ->]. reflexivity.
Qed.

(** X9. What [runner.py] accepts is a well-formed program, and what it has
    printed are its values: when [parse] returns on a text, the text scans
    to its end, its tokens are those of a program of the grammar in which
    every identifier read was assigned by an earlier statement, and the
    lines printed are the values of the reference evaluator for that
    program. *)
Theorem accepted_text_is_well_formed (text : string) (s' : Runner.state) :
  Runner.parse (Plex.open text) = Ok tt s' ->
  ends_well (Plex.open text)
  /\ exists p vs,
       lexemes (Plex.open text) = Reference.program_tokens p
       /\ Reference.well_formed ∅ p = true
       /\ Reference.exec ∅ p = Some vs
       /\ Runner.out s' = map Reference.render vs.
Proof.
  intros Hparse.
  destruct (RunnerSound.parse_sound _ _ (Lexicon.open_plain text) Hparse)
    as (Hend & p & vs & Htokens & Hex & Hout).
  split; [exact Hend|]. exists p, vs. split_and!; try assumption.
  rewrite <- (dom_empty_L (M := gmap string) (A := N)).
  apply (RunnerSound.executed_well_formed p ∅ vs); [|exact Hex].
  rewrite <- Htokens. apply Lexicon.lexemes_lexical.
Qed.

Lemma accepted_text_is_well_formed_witness :
  ends_well (Plex.open "n = 101 print n or 10 n = n xor n print n")
  /\ exists p vs,
       lexemes (Plex.open "n = 101 print n or 10 n = n xor n print n")
       = Reference.program_tokens p
       /\ Reference.well_formed ∅ p = true
       /\ Reference.exec ∅ p = Some vs
       /\ Runner.out (end_state
                        (Runner.parse (Plex.open "n = 101 print n or 10 n = n xor n print n"))
                        Runner.init)
          = map Reference.render vs.
Proof.
  apply accepted_text_is_well_formed. vm_compute. reflexivity.
Defined.

(** X10. Whatever the text, and however the run ends, [parse] in
    [runner.py] ends within the depth allowed and every line it has printed
    is a binary numeral: one or more of the characters 0 and 1, without a
    sign and without a leading zero, ["0"] apart. *)
Theorem printed_lines_are_numerals (text : string) :
  exists s',
    ends_in (Runner.parse (Plex.open text)) s' /\ Forall numeral (Runner.out s').
Proof.
  pose proof (RunnerTotal.parse_total (Plex.open text)) as Htotal.
  pose proof (Lines.parse_lines _ (Lexicon.open_plain text)) as Hlines.
  destruct (Runner.parse (Plex.open text)) as [[] s|e s|]; [| |contradiction];
    simpl in Hlines; destruct Hlines as [ws Hws];
    exists s; (split; [reflexivity|]); rewrite Hws; apply Lines.rendered_numerals.
Qed.

(** X11. The text that the print statement writes for a value that is not
    negative reads back, as a binary literal, to the same value: it is a
    binary literal, [int(text, 2)] of it is the value, and it has no leading
    zero to strip. *)
Theorem printed_value_reads_back (z : Z) :
  (0 <= z)%Z ->
  int2 (format_b z) = z
  /\ Reference.binary_literal (format_b z) = true
  /\ minimal (format_b z) = format_b z.
Proof.
  apply Lines.format_unsigned.
Qed.

Lemma printed_value_reads_back_witness :
  int2 (format_b 44) = 44%Z
  /\ Reference.binary_literal (format_b 44) = true
  /\ minimal (format_b 44) = format_b 44.
Proof.
  apply printed_value_reads_back. lia.
Defined.

(** X12. The position that the handlers of [runner.py] print is that of
    the token at fault: when [parse] raises the scanner's error, the parser
    object stands where the scanner could not read; when it raises any other
    exception, its lookahead is a token of the input, the position is the
    start of that token and the scanner holds exactly the tokens after it,
    or the lookahead is the end of the input and the position is there. *)
Theorem error_is_at_lookahead (sc : Plex.scanner) (e : exn) (s' : Runner.state) :
  Runner.parse sc = Raise e s' ->
  raised_at sc e s'.
Proof.
  intros Hparse. pose proof (Located.parse_located sc) as H.
  rewrite Hparse in H. exact H.
Qed.

Lemma error_is_at_lookahead_witness :
  raised_at (Plex.open "x = 1
print x and = 1")
    (ParseError "in operand: id, binary or '(' expected")
    (end_state (Runner.parse (Plex.open "x = 1
print x and = 1")) Runner.init).
Proof.
  apply error_is_at_lookahead. vm_compute. reflexivity.
Defined.

(** X13. Neither engine runs out of the depth that [parse] allows, seven
    calls for each token and nine more: on every scanner both runs end, and
    neither main part is cut short. *)
Theorem parse_ends_within_depth (sc : Plex.scanner) :
  Runner.parse sc <> TooDeep
  /\ Recognizer.parse sc <> TooDeep
  /\ Runner.report (Runner.parse sc) <> Unfinished
  /\ Recognizer.report (Recognizer.parse sc) <> Unfinished.
Proof.
  pose proof (RunnerTotal.parse_total sc) as Hr.
  pose proof (RecognizerFacts.parse_settles sc) as Hp.
  split_and!.
  - exact Hr.
  - intros H. rewrite H in Hp. exact Hp.
  - destruct (Runner.parse sc) as [[] s|[|msg|msg|] s|]; simpl; try discriminate.
    now contradiction Hr.
  - destruct (Recognizer.parse sc) as [[] s|[|msg|msg|] s|]; simpl; try discriminate.
    exact (fun _ => Hp).
Qed.

(** X14. A syntax error is reported alike by the two programs: when [parse]
    in [runner.py] raises a [ParseError], [parse] in [parser.py] raises one
    at the same lookahead and the same position, with the same message but
    for the error of [operand_tail], which the two programs word
    differently; the error lines of the two main parts name the same line
    and character. *)
Theorem syntax_error_reported_alike (sc : Plex.scanner) (msg : string) (s : Runner.state) :
  Runner.parse sc = Raise (ParseError msg) s ->
  Recognizer.parse sc = Raise (ParseError (recognizer_message msg)) (erase s)
  /\ Runner.report (Runner.parse sc)
     = Finished (Runner.out s ++ [parser_error msg (Runner.position s)])
  /\ Recognizer.report (Recognizer.parse sc)
     = Finished [parser_error (recognizer_message msg) (Runner.position s); "Done!"].
Proof.
  intros Hparse. pose proof (Messages.parse_mirrors sc) as H.
  rewrite Hparse in *. simpl in H. rewrite H. split_and!; reflexivity.
Qed.

Lemma syntax_error_reported_alike_witness :
  Recognizer.parse (Plex.open "print 1 1")
  = Raise (ParseError (recognizer_message "in operand_tail: or expected"))
      (erase (end_state (Runner.parse (Plex.open "print 1 1")) Runner.init))
  /\ Runner.report (Runner.parse (Plex.open "print 1 1"))
     = Finished (Runner.out (end_state (Runner.parse (Plex.open "print 1 1")) Runner.init)
                 ++ [parser_error "in operand_tail: or expected"
                       (Runner.position
                          (end_state (Runner.parse (Plex.open "print 1 1")) Runner.init))])
  /\ Recognizer.report (Recognizer.parse (Plex.open "print 1 1"))
     = Finished [parser_error (recognizer_message "in operand_tail: or expected")
                   (Runner.position
                      (end_state (Runner.parse (Plex.open "print 1 1")) Runner.init));
                 "Done!"].
Proof.
  apply syntax_error_reported_alike. vm_compute. reflexivity.
Defined.

(** X15. A lexical error is reported alike by the two programs: when
    [parse] in [runner.py] raises the scanner's error, [parse] in
    [parser.py] raises it at the same place, and the two main parts print
    the same error line, after the lines of [runner.py] and before [Done!]
    in [parser.py]. *)
Theorem lexical_error_reported_alike (sc : Plex.scanner) (s : Runner.state) :
  Runner.parse sc = Raise PlexError s ->
  Recognizer.parse sc = Raise PlexError (erase s)
  /\ Runner.report (Runner.parse sc)
     = Finished (Runner.out s ++ [scanner_error (Runner.position s)])
  /\ Recognizer.report (Recognizer.parse sc)
     = Finished [scanner_error (Runner.position s); "Done!"].
Proof.
  intros Hparse. pose proof (Messages.parse_mirrors sc) as H.
  rewrite Hparse in *. simpl in H. rewrite H. split_and!; reflexivity.
Qed.

Lemma lexical_error_reported_alike_witness :
  Recognizer.parse (Plex.open "print 1 print 10 ; x")
  = Raise PlexError
      (erase (end_state (Runner.parse (Plex.open "print 1 print 10 ; x")) Runner.init))
  /\ Runner.report (Runner.parse (Plex.open "print 1 print 10 ; x"))
     = Finished (Runner.out (end_state (Runner.parse (Plex.open "print 1 print 10 ; x"))
                               Runner.init)
                 ++ [scanner_error
                       (Runner.position
                          (end_state (Runner.parse (Plex.open "print 1 print 10 ; x"))
                             Runner.init))])
  /\ Recognizer.report (Recognizer.parse (Plex.open "print 1 print 10 ; x"))
     = Finished [scanner_error
                   (Runner.position
                      (end_state (Runner.parse (Plex.open "print 1 print 10 ; x"))
                         Runner.init));
                 "Done!"].
Proof.
  apply lexical_error_reported_alike. vm_compute. reflexivity.
Defined.

(** X16. No bitwise operator of [runner.py] is applied to [None] or to
    a string: from any state of the parser object, whatever the lookahead
    and the symbol table, [expr], [stmt] and [stmt_list] never raise a
    [TypeError], and so [parse] never does. The [None] that closes the tuple
    of a tail is cut off before the fold, [operand] raises before it returns
    [None] for an identifier, and the text that [match] returns for the
    other tokens is never used as a value. *)
Theorem operators_get_integers (sc : Plex.scanner) (n : nat) (s s' : Runner.state) :
  Runner.parse sc <> Raise TypeError s'
  /\ Runner.expr n s <> Raise TypeError s'
  /\ Runner.stmt n s <> Raise TypeError s'
  /\ Runner.stmt_list n s <> Raise TypeError s'.
Proof.
  assert (Hnot : ~ engine_exn TypeError s').
  { intros [H|[[var H]|(m & H & _)]]; discriminate. }
  split_and!; intros H.
  - pose proof (parse_post sc) as Hp. rewrite H in Hp. exact (Hnot Hp).
  - pose proof (RunnerFacts.expr_post n s) as Hp. unfold value_post in Hp.
    rewrite H in Hp. exact (Hnot (proj2 Hp)).
  - pose proof (RunnerFacts.stmt_post n s) as Hp. rewrite H in Hp. exact (Hnot (proj2 Hp)).
  - pose proof (RunnerFacts.stmt_list_post n s) as Hp. rewrite H in Hp.
    exact (Hnot (proj2 Hp)).
Qed.

(** X17. The lines printed before an error are right. When [parse] in
    [runner.py] raises an exception on a text, of whatever kind, either the
    first read of the scanner failed and nothing is printed, or [stmt_list]
    has performed the statements of a program [p], one call of [stmt] for
    each, each call having returned and consumed exactly the tokens of its
    statement; the tokens of the text are those of [p] followed by what was
    still to read when the next statement began; that statement did not
    return, and the exception is the outcome of [stmt_list] there; the
    reference evaluator has a value for each print statement of [p], and the
    lines printed, when the failing statement began and at the raise, are
    these values, in order. *)
Theorem lines_before_error_are_values (text : string) (e : exn) (s' : Runner.state) :
  Runner.parse (Plex.open text) = Raise e s' ->
  (Runner.create_scanner (Plex.open text) Runner.init = Raise e s' /\ Runner.out s' = [])
  \/ exists s1 p vs m s0,
       Runner.create_scanner (Plex.open text) Runner.init = Ok tt s1
       /\ performed p (depth_for (length (Plex.pending (Plex.open text)))) s1 (S m) s0
       /\ Runner.stmt_list (S m) s0 = Raise e s'
       /\ (forall s2, Runner.stmt m s0 <> Ok tt s2)
       /\ lexemes (Plex.open text) = Reference.program_tokens p ++ upcoming s0
       /\ Reference.exec ∅ p = Some vs
       /\ Runner.out s0 = map Reference.render vs
       /\ Runner.out s' = map Reference.render vs.
Proof.
  apply RunnerSound.parse_halts. apply Lexicon.open_plain.
Qed.

Lemma lines_before_error_are_values_witness :
  (Runner.create_scanner (Plex.open "a = 11 print a print a and 10 a = (a print a")
     Runner.init
   = Raise (ParseError "found print instead of )")
       (end_state (Runner.parse (Plex.open "a = 11 print a print a and 10 a = (a print a"))
          Runner.init)
   /\ Runner.out
        (end_state (Runner.parse (Plex.open "a = 11 print a print a and 10 a = (a print a"))
           Runner.init) = [])
  \/ exists s1 p vs m s0,
       Runner.create_scanner (Plex.open "a = 11 print a print a and 10 a = (a print a")
         Runner.init = Ok tt s1
       /\ performed p
            (depth_for
               (length (Plex.pending
                          (Plex.open "a = 11 print a print a and 10 a = (a print a"))))
            s1 (S m) s0
       /\ Runner.stmt_list (S m) s0
          = Raise (ParseError "found print instead of )")
              (end_state
                 (Runner.parse (Plex.open "a = 11 print a print a and 10 a = (a print a"))
                 Runner.init)
       /\ (forall s2, Runner.stmt m s0 <> Ok tt s2)
       /\ lexemes (Plex.open "a = 11 print a print a and 10 a = (a print a")
          = Reference.program_tokens p ++ upcoming s0
       /\ Reference.exec ∅ p = Some vs
       /\ Runner.out s0 = map Reference.render vs
       /\ Runner.out
            (end_state
               (Runner.parse (Plex.open "a = 11 print a print a and 10 a = (a print a"))
               Runner.init)
          = map Reference.render vs.
Proof.
  apply lines_before_error_are_values. vm_compute. reflexivity.
Defined.


